(** * Range-check collector and export codec of the Varuna gnark fork

    A shallow embedding of
    - [std/rangecheck/varuna/rangecheck_varuna.go]: the collector
      ([varunaChecker]), the width optimizer ([optimalWidth],
      [nbR1CSConstraints], [decompSize]) and the decomposition hint
      ([DecomposeHint]);
    - [std/utils/export_utils/export_utils.go]: the three serializers,
      and the variant of [SerializeAssignment] that is given the
      constraint system.

    Go's [int] is a 64-bit two's complement integer: it is modelled as [Z]
    with the wrap-around written out ([wrap64]).  [*big.Int] is [Z]. *)

From Stdlib Require Import ZArith Lia List.
From Stdlib Require Import Strings.Byte Strings.Ascii Strings.String.
From Stdlib Require Import DecimalString DecimalZ DecimalPos.
From Stdlib Require Import Field.
From Stdlib Require QArith Qcanon.
From stdpp Require Import base option list strings gmap.
Import ListNotations.

Local Open Scope Z_scope.

(** ** Machine integers *)

Module GoInt.

Definition MaxInt64 : Z := 2 ^ 63 - 1.
Definition MinInt64 : Z := - 2 ^ 63.

(** Reduction of a mathematical integer to the [int] that Go stores. *)
Definition wrap64 (z : Z) : Z := (z + 2 ^ 63) mod 2 ^ 64 - 2 ^ 63.

Definition in_int (z : Z) : Prop := MinInt64 <= z <= MaxInt64.

Definition add (a b : Z) : Z := wrap64 (a + b).
Definition sub (a b : Z) : Z := wrap64 (a - b).

(** [a / b] on [int]: truncation toward zero.  Go panics when [b = 0];
    callers in this development guard that case before calling. *)
Definition quo (a b : Z) : Z := wrap64 (Z.quot a b).

(** [1 << n] on [int] for a non-negative shift count. *)
Definition shl1 (n : Z) : Z := wrap64 (Z.shiftl 1 n).

(** [uint(n)]: reinterpretation of an [int] as an unsigned 64-bit value. *)
Definition to_uint (n : Z) : Z := n mod 2 ^ 64.

(** [uint32(n)]. *)
Definition to_uint32 (n : Z) : Z := n mod 2 ^ 32.

(** [len(l)] as an [int]. *)
Definition len {A} (l : list A) : Z := Z.of_nat (length l).

End GoInt.

(** ** Requests *)

(** [checkedVariable]: a pending request; [V] is [frontend.Variable]. *)
Record checkedVariable (V : Type) := CheckedVariable {
  cv_v : V;
  cv_bits : Z
}.
Arguments CheckedVariable {V} _ _.
Arguments cv_v {V} _.
Arguments cv_bits {V} _.

(** ** Width optimizer *)

Section WidthOptimizer.
Context {V : Type}.
Implicit Types collected : list (checkedVariable V).

(** [decompSize(varSize, limbSize) = (varSize + limbSize - 1) / limbSize]. *)
Definition decompSize (varSize limbSize : Z) : Z :=
  GoInt.quo (GoInt.sub (GoInt.add varSize limbSize) 1) limbSize.

(** The accumulation loop of [nbR1CSConstraints]:
    [nbDecomposed += int(decompSize(collected[i].bits, baseLength))]. *)
Fixpoint nbDecomposed_loop (baseLength : Z) collected (nbDecomposed : Z) : Z :=
  match collected with
  | [] => nbDecomposed
  | c :: rest =>
      nbDecomposed_loop baseLength rest
        (GoInt.add nbDecomposed (decompSize (cv_bits c) baseLength))
  end.

(** The number of limbs of all requests at a limb width: the sum of the
    values [decompSize] returns, as a mathematical integer. *)
Definition code_totalLimbs (baseLength : Z) collected : Z :=
  foldr (fun c acc => decompSize (cv_bits c) baseLength + acc) 0 collected.

Definition nbR1CSConstraints (baseLength : Z) collected : Z :=
  let nbDecomposed := nbDecomposed_loop baseLength collected 0 in
  let eqs := GoInt.len collected in
  let nbRight := nbDecomposed in
  let nbleft := GoInt.shl1 baseLength in
  GoInt.add (GoInt.add (GoInt.add nbleft nbRight) eqs) 1.

(** The scan [for j := 2; j < 18; j++] of [optimalWidth], over the list
    of the values [j] still to visit. *)
Fixpoint optimalWidth_scan (countFn : Z -> list (checkedVariable V) -> Z)
    collected (js : list Z) (min minVal : Z) : Z :=
  match js with
  | [] => minVal
  | j :: js' =>
      let current := countFn j collected in
      if current <? min
      then optimalWidth_scan countFn collected js' current j
      else optimalWidth_scan countFn collected js' min minVal
  end.

Definition optimalWidth (countFn : Z -> list (checkedVariable V) -> Z)
    collected : Z :=
  optimalWidth_scan countFn collected (seqZ 2 16) GoInt.MaxInt64 0.

(** [getOptimalBasewidth] ignores its [api] argument. *)
Definition getOptimalBasewidth collected : Z :=
  optimalWidth nbR1CSConstraints collected.

End WidthOptimizer.

(** ** Decomposition hint *)

Inductive hintError :=
| ErrInputCount          (* "input must be 3 elements" *)
| ErrNotUint64           (* "first two inputs have to be uint64" *)
| ErrOutputCount (nbLimbs : Z). (* "need %d outputs instead to decompose" *)

(** What a call of a hint function does: it returns [nil], returns an
    error, or panics at run time. *)
Inductive hintResult :=
| HintOk (outputs : list Z)
| HintErr (e : hintError)
| HintPanicDivideByZero.

Definition IsUint64 (x : Z) : bool := (0 <=? x) && (x <? 2 ^ 64).

(** [int(x.Int64())] for a [big.Int] that passed [IsUint64]: the low 64
    bits, read as a signed integer. *)
Definition Int64 (x : Z) : Z := GoInt.wrap64 x.

(** The body of the loop of [DecomposeHint]: [outputs[i].Mod(tmp, base)]
    followed by [tmp.Rsh(tmp, uint(limbSize))], once per output slot.  The
    old contents of the slots are overwritten. *)
Fixpoint decompose_loop (base shift : Z) (outputs : list Z) (tmp : Z) : list Z :=
  match outputs with
  | [] => []
  | _ :: rest => (tmp mod base) :: decompose_loop base shift rest (Z.shiftr tmp shift)
  end.

Definition DecomposeHint (m : Z) (inputs : list Z) (outputs : list Z) : hintResult :=
  match inputs with
  | [in0; in1; val] =>
      if negb (IsUint64 in0) || negb (IsUint64 in1) then HintErr ErrNotUint64
      else
        let varSize := Int64 in0 in
        let limbSize := Int64 in1 in
        if limbSize =? 0 then HintPanicDivideByZero
        else
          let nbLimbs := @decompSize varSize limbSize in
          if negb (GoInt.len outputs =? nbLimbs) then HintErr (ErrOutputCount nbLimbs)
          else
            let shift := GoInt.to_uint limbSize in
            let base := Z.shiftl 1 shift in
            HintOk (decompose_loop base shift outputs val)
  | _ => HintErr ErrInputCount
  end.

(** The recomposition that the equality constraint of the collector
    states: [sum (limb_i * base^i)], least significant limb first. *)
Fixpoint recompose_from (base : Z) (i : Z) (limbs : list Z) : Z :=
  match limbs with
  | [] => 0
  | l :: rest => l * base ^ i + recompose_from base (i + 1) rest
  end.

Definition recompose (base : Z) (limbs : list Z) : Z := recompose_from base 0 limbs.

(** The mathematical ceiling of [a / b] for [b > 0]. *)
Definition ceil_div (a b : Z) : Z := - ((- a) / b).

(** ** The builder's interface *)

(** [constraint.Term]: a coefficient index and a variable index. *)
Record Term := MkTerm { CID : Z; VID : Z }.

(** [constraint.LinearExpression] is [[]Term]. *)
Abbreviation LinearExpression := (list Term) (only parsing).

(** [frontend.CanonicalVariable] is an interface; the collector asks
    whether the dynamic type is [constraint.LinearExpression]. *)
Inductive CanonicalVariable :=
| CanonLinear (l : LinearExpression)
| CanonOther.

(** The part of [frontend.API] and [frontend.Compiler] that the collector
    calls, taken as a parameter: the builder is not among the sources.
    [B] is the state of the builder, [V] is [frontend.Variable]; every
    operation threads the state and returns (a panic inside the builder
    is not modelled). *)
Class Builder (B V : Type) := {
  (** an [int] or [*big.Int] used as a [frontend.Variable] *)
  constant : Z -> V;
  (** [Compiler().NewHint(DecomposeHint, nbOutputs, inputs...)];
      [None] is a non-nil error *)
  NewHint : Z -> list V -> B -> option (list V) * B;
  Add : V -> V -> B -> V * B;
  Mul : V -> V -> B -> V * B;
  AssertIsEqual : V -> V -> B -> B;
  ToCanonicalVariable : V -> B -> CanonicalVariable * B
}.

(** The contract of [NewHint]: a successful call returns as many
    variables as were asked for. *)
Definition NewHint_arity {B V} `{Builder B V} : Prop :=
  forall n inputs b limbs b',
    NewHint n inputs b = (Some limbs, b') -> GoInt.len limbs = n.

(** A builder on which [NewHint] succeeds whenever at least one output is
    asked for. *)
Definition NewHint_succeeds {B V} `{Builder B V} : Prop :=
  forall n inputs b, 0 < n -> exists limbs b', NewHint n inputs b = (Some limbs, b').

(** A builder whose canonical variables are linear expressions (the R1CS
    builder). *)
Definition canonical_is_linear {B V} `{Builder B V} : Prop :=
  forall v b, exists l b', ToCanonicalVariable v b = (CanonLinear l, b').

(** ** The collector *)

Record Lookup := MkLookup {
  NbTable : Z;                     (* the size of the lookup table *)
  A : list LinearExpression        (* the A matrix of the lookup constraints *)
}.

Record varunaChecker (V : Type) := MkChecker {
  collected : list (checkedVariable V);
  closed : bool;
  lookups : Lookup
}.
Arguments MkChecker {V} _ _ _.
Arguments collected {V} _.
Arguments closed {V} _.
Arguments lookups {V} _.

(** The zero value [&varunaChecker{}]. *)
Definition new_varunaChecker {V} : varunaChecker V :=
  MkChecker [] false (MkLookup 0 []).

Inductive panicMsg :=
| PanicAlreadyClosed      (* "checker already closed" *)
| PanicNotClosed          (* "checker is not closed" *)
| PanicNoStore            (* "builder should implement key-value store" *)
| PanicInvalidStored      (* "stored rangechecker is not valid" *)
| PanicNotFound           (* "rangechecker not found" *)
| PanicDecompose          (* "decompose %v" *)
| PanicDivideByZero       (* run-time panic: integer divide by zero *)
| PanicSliceBounds        (* run-time panic: slice bounds out of range *)
| PanicNilDereference     (* run-time panic: nil pointer dereference *)
| PanicMakeSlice          (* run-time panic: makeslice: cap out of range *)
| PanicWft.               (* "wft!!!" *)

(** The largest size in bytes that the runtime allocates, [maxAlloc] of
    package [runtime]: [2^48] on the 64-bit platforms. *)
Definition maxAlloc : Z := 2 ^ 48.

(** [make([]T, 0, cap)] for an element of [size] bytes, as [makeslice] of
    the runtime decides it: the call panics with "cap out of range" when
    the capacity is negative or [size * cap] bytes exceed [maxAlloc].
    (A capacity that passes the test but exceeds the memory of the machine
    ends the program with a fatal error, which is not a panic and is not
    modelled.) *)
Definition makeslice_cap_out_of_range (size cap : Z) : bool :=
  (cap <? 0) || (maxAlloc <? size * cap).

(** A call either returns or panics. *)
Inductive result (T : Type) :=
| Done (x : T)
| Panic (p : panicMsg).
Arguments Done {T} _.
Arguments Panic {T} _.

Inductive finalizeError :=
| ErrUnhandledType.       (* "unhandled type of variable %T" *)

Section Collector.
Context {B V : Type} `{Builder B V}.

Definition set_closed (c : varunaChecker V) : varunaChecker V :=
  MkChecker (collected c) true (lookups c).

Definition set_lookups (c : varunaChecker V) (l : Lookup) : varunaChecker V :=
  MkChecker (collected c) (closed c) l.

(** [Check]: panics once closed, appends otherwise. *)
Definition Check (c : varunaChecker V) (v : V) (bits : Z) : result (varunaChecker V) :=
  if closed c then Panic PanicAlreadyClosed
  else Done (MkChecker (collected c ++ [CheckedVariable v bits]) (closed c) (lookups c)).

(** [composed = api.Add(composed, api.Mul(limbs[j], base^j))] for
    [j] from the given index on. *)
Fixpoint compose_loop (base : Z) (limbs : list V) (j : Z) (composed : V) (b : B) : V * B :=
  match limbs with
  | [] => (composed, b)
  | l :: rest =>
      let '(t, b1) := Mul l (constant (base ^ j)) b in
      let '(composed', b2) := Add composed t b1 in
      compose_loop base rest (j + 1) composed' b2
  end.

(** The loop over [c.collected]: a hint call per request, the limbs
    appended to [decomposed], the equality constraint emitted. *)
Fixpoint decompose_requests (baseLength base : Z) (cs : list (checkedVariable V))
    (decomposed : list V) (b : B) : result (list V) * B :=
  match cs with
  | [] => (Done decomposed, b)
  | c :: rest =>
      let nbLimbs := decompSize (cv_bits c) baseLength in
      match NewHint nbLimbs [constant (cv_bits c); constant baseLength; cv_v c] b with
      | (None, b1) => (Panic PanicDecompose, b1)
      | (Some limbs, b1) =>
          let '(composed, b2) := compose_loop base limbs 0 (constant 0) b1 in
          let b3 := AssertIsEqual composed (cv_v c) b2 in
          decompose_requests baseLength base rest (decomposed ++ limbs) b3
      end
  end.

(** The loop over [decomposed]: [c.lookups.A] grows by one member per
    variable until one is not a linear expression. *)
Fixpoint canonical_loop (decomposed : list V) (members : list LinearExpression) (b : B)
    : list LinearExpression * option finalizeError * B :=
  match decomposed with
  | [] => (members, None, b)
  | v :: rest =>
      match ToCanonicalVariable v b with
      | (CanonLinear l, b1) => canonical_loop rest (members ++ [l]) b1
      | (CanonOther, b1) => (members, Some ErrUnhandledType, b1)
      end
  end.

(** [handleVarunaRangeCheck].  The deferred [c.closed = true] runs on
    every path after the first test, also when the body panics, so the
    collector and the builder are returned together with the outcome.
    [decompSize] divides by [baseLength]: with a width of 0 the first
    request panics.  The map [uniqueBits] and the log lines have no
    effect on the result and are left out. *)
Definition handleVarunaRangeCheck (c : varunaChecker V) (b : B)
    : result (option finalizeError) * varunaChecker V * B :=
  if closed c then (Done None, c, b)
  else if GoInt.len (collected c) =? 0 then (Done None, set_closed c, b)
  else
    let baseLength := getOptimalBasewidth (collected c) in
    if baseLength =? 0 then (Panic PanicDivideByZero, set_closed c, b)
    else
      let base := Z.shiftl 1 (GoInt.to_uint baseLength) in
      match decompose_requests baseLength base (collected c) [] b with
      | (Panic p, b1) => (Panic p, set_closed c, b1)
      | (Done decomposed, b1) =>
          let nbTable := GoInt.shl1 baseLength in
          let '(members, err, b2) := canonical_loop decomposed [] b1 in
          (Done err, set_closed (set_lookups c (MkLookup nbTable members)), b2)
      end.

(** The methods a client of one collector can call. *)
Inductive op :=
| OpCheck (v : V) (bits : Z)
| OpFinalize.

(** One call on the pair of a collector and a builder; a panicking
    [Check] leaves both as they were. *)
Definition run_op (o : op) (s : varunaChecker V * B) : varunaChecker V * B :=
  match o with
  | OpCheck v bits =>
      match Check (fst s) v bits with
      | Done c' => (c', snd s)
      | Panic _ => s
      end
  | OpFinalize =>
      let '(_, c', b') := handleVarunaRangeCheck (fst s) (snd s) in (c', b')
  end.

(** The states of a collector that starts as [&varunaChecker{}]. *)
Inductive reachable (b0 : B) : varunaChecker V * B -> Prop :=
| reach_new : reachable b0 (new_varunaChecker, b0)
| reach_op o s : reachable b0 s -> reachable b0 (run_op o s)
| reach_builder c b b' : reachable b0 (c, b) -> reachable b0 (c, b').

End Collector.

(** ** One circuit build: the compiler's key-value slot and hook list *)

(** Keys of the key-value store of the compiler.  [ctxCheckerKey] is the
    private marker type of this package; every other key is some other
    gadget's. *)
Inductive kvKey :=
| ctxCheckerKey
| otherKey (n : nat).

#[global] Instance kvKey_eq_dec : EqDecision kvKey.
Proof. solve_decision. Defined.

#[global] Instance kvKey_countable : Countable kvKey.
Proof.
  refine (inj_countable'
    (fun k => match k with ctxCheckerKey => None | otherKey n => Some n end)
    (fun o => match o with None => ctxCheckerKey | Some n => otherKey n end) _).
  by intros [].
Defined.

(** A [*varunaChecker] is a location of the heap of collectors. *)
Abbreviation ptr := nat (only parsing).

(** What a slot holds: a [*varunaChecker], or a value of another type. *)
Inductive kvValue :=
| StoredChecker (p : ptr)
| StoredOther.

(** A callback registered with [Compiler().Defer]: the method value
    [cht.handleVarunaRangeCheck] of a collector, or another gadget's. *)
Inductive callback :=
| CallHandle (p : ptr)
| CallOther (n : nat).

#[global] Instance callback_eq_dec : EqDecision callback.
Proof. solve_decision. Defined.

(** Modelled from the spec: the key-value slot attached to the builder
    ([internal/kvstore]) and the registry of deferred finalize callbacks
    ([Compiler().Defer]), which are not among the sources.  [isStore]
    tells whether the compiler implements [kvstore.Store] (the type
    assertion of the code); the store is a map from keys to values,
    [GetKeyValue] of an absent key being [nil]; [deferred] lists the
    registered callbacks in order; [heap] holds the collectors that
    pointers refer to; [api] is the state of the builder proper. *)
Record build (B V : Type) := MkBuild {
  isStore : bool;
  kv : gmap kvKey kvValue;
  deferred : list callback;
  heap : list (varunaChecker V);
  api : B
}.
Arguments MkBuild {B V} _ _ _ _ _.
Arguments isStore {B V} _.
Arguments kv {B V} _.
Arguments deferred {B V} _.
Arguments heap {B V} _.
Arguments api {B V} _.

Section Build.
Context {B V : Type} `{Builder B V}.
Implicit Types w : build B V.

(** [NewVarunaRangechecker]: the stored collector when there is one, a
    new one otherwise, stored under the marker and registered with
    [Defer]. *)
Definition NewVarunaRangechecker w : result (ptr * build B V) :=
  if negb (isStore w) then Panic PanicNoStore
  else
    match kv w !! ctxCheckerKey with
    | Some (StoredChecker cht) => Done (cht, w)
    | Some StoredOther => Panic PanicInvalidStored
    | None =>
        let cht := length (heap w) in
        Done (cht,
              MkBuild (isStore w)
                      (<[ctxCheckerKey := StoredChecker cht]> (kv w))
                      (deferred w ++ [CallHandle cht])
                      (heap w ++ [new_varunaChecker])
                      (api w))
    end.

(** [c.Check(in, bits)] through the pointer [c]. *)
Definition CheckAt (c : ptr) (v : V) (bits : Z) w : result (build B V) :=
  match heap w !! c with
  | None => Panic PanicNilDereference
  | Some cht =>
      match Check cht v bits with
      | Panic p => Panic p
      | Done cht' =>
          Done (MkBuild (isStore w) (kv w) (deferred w) (<[c := cht']> (heap w)) (api w))
      end
  end.

(** The compiler running the hook [c.handleVarunaRangeCheck]. *)
Definition FinalizeAt (c : ptr) w : result (option finalizeError) * build B V :=
  match heap w !! c with
  | None => (Panic PanicNilDereference, w)
  | Some cht =>
      let '(r, cht', b') := handleVarunaRangeCheck cht (api w) in
      (r, MkBuild (isStore w) (kv w) (deferred w) (<[c := cht']> (heap w)) b')
  end.

(** [GetLookupByBuilder]; the result is the [Lookup] behind the returned
    pointer at the time of the call. *)
Definition GetLookupByBuilder w : result Lookup :=
  if negb (isStore w) then Panic PanicNoStore
  else
    match kv w !! ctxCheckerKey with
    | Some (StoredChecker c) =>
        match heap w !! c with
        | None => Panic PanicNilDereference
        | Some cht =>
            if negb (closed cht) then Panic PanicNotClosed
            else Done (lookups cht)
        end
    | Some StoredOther => Panic PanicInvalidStored
    | None => Panic PanicNotFound
    end.

(** What circuit-construction code and the compiler do to a build.  Only
    this package can name [ctxCheckerKey], so a foreign write to the store
    is under another key. *)
Inductive action :=
| ActNew                                    (* NewVarunaRangechecker(api) *)
| ActCheck (c : ptr) (v : V) (bits : Z)     (* c.Check(v, bits) *)
| ActSetKey (n : nat) (x : kvValue)         (* SetKeyValue of another gadget *)
| ActDefer (n : nat)                        (* Defer of another gadget *)
| ActApi (b : B)                            (* any arithmetic on the builder *)
| ActFinalize (c : ptr).                    (* the compiler running a hook *)

(** The build after an action; a panicking call leaves it as it was. *)
Definition act (a : action) w : build B V :=
  match a with
  | ActNew =>
      match NewVarunaRangechecker w with
      | Done (_, w') => w'
      | Panic _ => w
      end
  | ActCheck c v bits =>
      match CheckAt c v bits w with
      | Done w' => w'
      | Panic _ => w
      end
  | ActSetKey n x =>
      MkBuild (isStore w) (<[otherKey n := x]> (kv w)) (deferred w) (heap w) (api w)
  | ActDefer n =>
      MkBuild (isStore w) (kv w) (deferred w ++ [CallOther n]) (heap w) (api w)
  | ActApi b =>
      MkBuild (isStore w) (kv w) (deferred w) (heap w) b
  | ActFinalize c => snd (FinalizeAt c w)
  end.

Definition acts (l : list action) w : build B V :=
  fold_left (fun w a => act a w) l w.

(** The collectors whose hook is registered, in registration order. *)
Definition handle_hooks (l : list callback) : list ptr :=
  omap (fun cb => match cb with CallHandle c => Some c | CallOther _ => None end) l.

(** What stays true of a build once the collector [c] is stored: the
    slot keeps pointing to it, its hook is the one registered hook of
    this package, and the pointer stays valid. *)
Definition shares (c : ptr) w : Prop :=
  isStore w = true /\
  kv w !! ctxCheckerKey = Some (StoredChecker c) /\
  handle_hooks (deferred w) = [c] /\
  (c < length (heap w))%nat.

End Build.

(** An empty build over a compiler that implements the store. *)
Definition new_build {B V} (b : B) : build B V := MkBuild true ∅ [] [] b.

(** ** A small builder, for running the collector on concrete circuits *)

(** An instance of the builder interface with linear combinations over
    numbered wires, in two flavours that differ in the type of their
    canonical variables. *)

Module Mini.

(** A variable is a constant or a linear combination of wires, each
    term a coefficient and a wire number (wire 0 is the constant 1). *)
Inductive var :=
| Const (z : Z)
| Lin (l : list (Z * Z)).

Record st := MkSt {
  nextWire : Z;                       (* the next free wire *)
  asserted : list (var * var)         (* the equalities emitted so far *)
}.

Definition terms (v : var) : list (Z * Z) :=
  match v with
  | Const z => [(z, 0)]
  | Lin l => l
  end.

Definition scale (k : Z) (l : list (Z * Z)) : list (Z * Z) :=
  map (fun t => (k * fst t, snd t)) l.

(** A hint needs at least one output; the outputs are fresh wires. *)
Definition newHint (n : Z) (inputs : list var) (s : st) : option (list var) * st :=
  if n <=? 0 then (None, s)
  else (Some (map (fun w => Lin [(1, w)]) (seqZ (nextWire s) n)),
        MkSt (nextWire s + n) (asserted s)).

Definition add (x y : var) (s : st) : var * st :=
  match x, y with
  | Const a, Const b => (Const (a + b), s)
  | _, _ => (Lin (terms x ++ terms y), s)
  end.

(** A product with a constant stays linear; a product of two
    combinations is a fresh wire, bound by an emitted constraint. *)
Definition mul (x y : var) (s : st) : var * st :=
  match x, y with
  | Const a, Const b => (Const (a * b), s)
  | Const a, Lin l => (Lin (scale a l), s)
  | Lin l, Const b => (Lin (scale b l), s)
  | Lin _, Lin _ =>
      (Lin [(1, nextWire s)], MkSt (nextWire s + 1) (asserted s ++ [(x, y)]))
  end.

Definition assertIsEqual (x y : var) (s : st) : st :=
  MkSt (nextWire s) (asserted s ++ [(x, y)]).

(** With [linear] the canonical form of a variable is a linear
    expression, as in an R1CS builder; without it, it is of another type,
    as in a builder of sparse constraints.  The coefficient table is the
    identity: the coefficient index of a term is its coefficient. *)
Definition toCanonicalVariable (linear : bool) (v : var) (s : st)
    : CanonicalVariable * st :=
  if linear
  then (CanonLinear (map (fun t => MkTerm (fst t) (snd t)) (terms v)), s)
  else (CanonOther, s).

Definition mk_builder (linear : bool) : Builder st var := {|
  constant := Const;
  NewHint := newHint;
  Add := add;
  Mul := mul;
  AssertIsEqual := assertIsEqual;
  ToCanonicalVariable := toCanonicalVariable linear
|}.

Definition r1cs_builder : Builder st var := mk_builder true.
Definition scs_builder : Builder st var := mk_builder false.

(** A fresh builder with [n] input wires. *)
Definition fresh (n : Z) : st := MkSt (n + 1) [].

(** The circuit of the end-to-end scenario: three inputs, checked to
    8, 8 and 16 bits. *)
Definition scenario : list (checkedVariable var) :=
  [CheckedVariable (Lin [(1, 1)]) 8;
   CheckedVariable (Lin [(1, 2)]) 8;
   CheckedVariable (Lin [(1, 3)]) 16].

End Mini.

(** Requests that carry only a bit width. *)
Definition bits_only (bits : list Z) : list (checkedVariable unit) :=
  map (CheckedVariable tt) bits.

(** ** The export codec *)

(** [fr.Element] is four 64-bit limbs, least significant first, in
    Montgomery form; [Element] is four limbs in normal form;
    [constraint.Element] is six limbs.  All three are lists of limbs. *)
Abbreviation limbs := (list Z) (only parsing).

(** The field library [ecc/bls12-377/fr] as the exporters use it, taken
    as a parameter. *)
Class FieldLib := {
  Bits : limbs -> limbs;        (* [(fr.Element).Bits]: the normal form *)
  BigInt : limbs -> Z;          (* [(fr.Element).BigInt] *)
  Modulus : Z                   (* [fr.Modulus()] *)
}.

(** [constraint.R1C]. *)
Record R1C := MkR1C {
  L : LinearExpression;
  R : LinearExpression;
  O : LinearExpression
}.

(** The read interface of [constraint.R1CS]. *)
Record R1CS := MkR1CS {
  GetR1Cs : list R1C;
  GetCoefficient : Z -> limbs;
  GetNbConstraints : Z;
  GetNbPublicVariables : Z
}.

(** [cs.R1CSSolution]; only the witness vector [W] is read. *)
Record R1CSSolution := MkSolution {
  W : list limbs
}.

(** [ConstraintRaw]: three maps from a variable index to an [Element]. *)
Record ConstraintRaw := MkConstraintRaw {
  rawA : gmap Z limbs;
  rawB : gmap Z limbs;
  rawC : gmap Z limbs
}.

Inductive ioError :=
| ErrInvalid                 (* [os.ErrInvalid], "invalid argument" *)
| ErrOther (code : nat).     (* any other error of the operating system *)

Inductive marshalError :=
| MarshalFailed (code : nat).

Inductive exportError :=
| OfMarshal (e : marshalError)
| OfIO (e : ioError).

(** The files, as package [os] shows them, taken as a parameter.
    [os_Create] returns a file or an error; a file is written and
    closed, each with an optional error. *)
Class OS (FS File : Type) := {
  os_Create : string -> FS -> (File + ioError) * FS;
  file_Write : File -> list Byte.byte -> FS -> option ioError * FS;
  file_Close : File -> FS -> option ioError * FS
}.

(** The encoder ([cbor.Marshal]), taken as a parameter. *)
Class Encoder := {
  Marshal : forall T : Type, T -> marshalError + list Byte.byte
}.

Section WriteArtifact.
Context {FS File : Type} `{OS FS File}.

(** The methods [Write] and [Close] of [os.File] on a possibly nil
    receiver: a nil file answers [os.ErrInvalid]. *)
Definition File_Write (f : option File) (b : list Byte.byte) (fs : FS) : option ioError * FS :=
  match f with
  | None => (Some ErrInvalid, fs)
  | Some file => file_Write file b fs
  end.

Definition File_Close (f : option File) (fs : FS) : option ioError * FS :=
  match f with
  | None => (Some ErrInvalid, fs)
  | Some file => file_Close file fs
  end.

(** The closing block of every serializer:
    [f, _ := os.Create(filePath)], the encoding [got, err], an early
    return of [err], [f.Write(got)] with an early return of its error,
    [f.Close()] with its result dropped, [return nil]. *)
Definition write_artifact (filePath : string) (got : marshalError + list Byte.byte) (fs : FS)
    : option exportError * FS :=
  let '(created, fs1) := os_Create filePath fs in
  let f := match created with inl file => Some file | inr _ => None end in
  match got with
  | inl e => (Some (OfMarshal e), fs1)
  | inr b =>
      match File_Write f b fs1 with
      | (Some e, fs2) => (Some (OfIO e), fs2)
      | (None, fs2) => (None, snd (File_Close f fs2))
      end
  end.

(** A serializer: the value to encode is built first, which may panic;
    then comes the closing block. *)
Definition serialize {T : Type} `{Encoder} (raw : result T) (filePath : string) (fs : FS)
    : result (option exportError) * FS :=
  match raw with
  | Panic p => (Panic p, fs)
  | Done x =>
      let '(err, fs') := write_artifact filePath (Marshal T x) fs in (Done err, fs')
  end.

(** The file is created, [b] is written, and closing fails. *)
Definition close_fails (filePath : string) (b : list Byte.byte) (fs : FS) : Prop :=
  exists file fs1 fs2 e fs3,
    os_Create filePath fs = (inl file, fs1) /\
    file_Write file b fs1 = (None, fs2) /\
    file_Close file fs2 = (Some e, fs3).

End WriteArtifact.

(** [std/utils/export_utils/export_utils.go]. *)
Module ExportUtils.
Section Serializers.
Context `{FieldLib} `{Encoder} {FS File : Type} `{OS FS File}.

(** One side of a row: for every term, in order,
    [side[int(term.VID)] = ee.Bits()] with [ee] the first four limbs of
    the coefficient. *)
Definition fill_side (r1cs : R1CS) (lc : LinearExpression) (side : gmap Z limbs)
    : gmap Z limbs :=
  fold_left
    (fun m term => <[VID term := Bits (take 4 (GetCoefficient r1cs (CID term)))]> m)
    lc side.

(** The same with the test of [SerializeR1CS] after each assignment:
    a panic unless the element's integer is below the modulus. *)
Fixpoint fill_side_checked (r1cs : R1CS) (lc : LinearExpression) (side : gmap Z limbs)
    : result (gmap Z limbs) :=
  match lc with
  | [] => Done side
  | term :: rest =>
      let ee := take 4 (GetCoefficient r1cs (CID term)) in
      let side' := <[VID term := Bits ee]> side in
      if BigInt ee <? Modulus
      then fill_side_checked r1cs rest side'
      else Panic PanicWft
  end.

Fixpoint r1csRaw_loop (r1cs : R1CS) (rows : list R1C) (acc : list ConstraintRaw)
    : result (list ConstraintRaw) :=
  match rows with
  | [] => Done acc
  | r1c :: rest =>
      match fill_side_checked r1cs (L r1c) ∅ with
      | Panic p => Panic p
      | Done a =>
          match fill_side_checked r1cs (R r1c) ∅ with
          | Panic p => Panic p
          | Done b =>
              match fill_side_checked r1cs (O r1c) ∅ with
              | Panic p => Panic p
              | Done c => r1csRaw_loop r1cs rest (acc ++ [MkConstraintRaw a b c])
              end
          end
      end
  end.

(** [make(R1CSRaw, 0, n)] panics on a negative capacity.  The capacity
    is the number of constraints of the system, which holds them in
    memory, so the other reason for [make] to panic, a capacity too large,
    is left out. *)
Definition r1csRaw (r1cs : R1CS) : result (list ConstraintRaw) :=
  if GetNbConstraints r1cs <? 0 then Panic PanicMakeSlice
  else r1csRaw_loop r1cs (GetR1Cs r1cs) [].

Definition SerializeR1CS (r1cs : R1CS) (filePath : string) (fs : FS)
    : result (option exportError) * FS :=
  serialize (r1csRaw r1cs) filePath fs.

Record AssignmentRaw := MkAssignmentRaw {
  Variables : list limbs;
  PrimaryInputSize : Z;
  AuxiliaryInputSize : Z
}.

(** [solution.W[1:]] panics on an empty witness; otherwise every entry
    but the first is exported, and the two sizes are the constant 0. *)
Definition assignmentRaw (solution : R1CSSolution) : result AssignmentRaw :=
  match W solution with
  | [] => Panic PanicSliceBounds
  | _ :: rest => Done (MkAssignmentRaw (map Bits rest) 0 0)
  end.

Definition SerializeAssignment (solution : R1CSSolution) (filePath : string) (fs : FS)
    : result (option exportError) * FS :=
  serialize (assignmentRaw solution) filePath fs.

Record LookupRaw := MkLookupRaw {
  Table : list (Z * Z * Z);
  Constraints : list ConstraintRaw
}.

(** [make([][3]uint32, 0, lookup.NbTable)] panics on a capacity that
    is negative or too large, a row [[3]uint32] taking 12 bytes
    ([NbTable] is a field of the [Lookup], free of any bound); the rows
    are [{uint32(i), 0, 0}] for [i] from 0 to [NbTable - 1]; every member
    gives a row with only [A] filled. *)
Definition lookupRaw (lookup : Lookup) (r1cs : R1CS) : result LookupRaw :=
  if makeslice_cap_out_of_range 12 (NbTable lookup) then Panic PanicMakeSlice
  else
    Done (MkLookupRaw
            (map (fun i => (GoInt.to_uint32 i, 0, 0)) (seqZ 0 (NbTable lookup)))
            (map (fun lc => MkConstraintRaw (fill_side r1cs lc ∅) ∅ ∅) (A lookup))).

Definition SerializeLookup (lookup : Lookup) (r1cs : R1CS) (filePath : string) (fs : FS)
    : result (option exportError) * FS :=
  serialize (lookupRaw lookup r1cs) filePath fs.

End Serializers.
End ExportUtils.

(** The variant of the exporter that takes the constraint system
    ([SerializeAssignment(r1cs, solution, filePath)]). *)
Module ExportCounted.
Section Serializers.
Context `{FieldLib} `{Encoder} {FS File : Type} `{OS FS File}.

Record AssignmentRaw := MkAssignmentRaw {
  Variables : list limbs;      (* the first element "1" is also included *)
  NumPublicInputs : Z          (* number of public, include the first element "1" *)
}.

Definition assignmentRaw (r1cs : R1CS) (solution : R1CSSolution) : result AssignmentRaw :=
  Done (MkAssignmentRaw (map Bits (W solution))
                        (GoInt.to_uint (GetNbPublicVariables r1cs))).

Definition SerializeAssignment (r1cs : R1CS) (solution : R1CSSolution)
    (filePath : string) (fs : FS) : result (option exportError) * FS :=
  serialize (assignmentRaw r1cs solution) filePath fs.

End Serializers.
End ExportCounted.

(** ** The JSON variant of the exporter *)

(** The variant that writes JSON: field elements are exported as they
    are stored (no conversion to normal form, no test against the
    modulus), each as a quoted decimal number; the table rows are decimal
    strings. *)
Module ExportJson.

(** The double-quote character. *)
Definition quote : Ascii.ascii :=
  Ascii.Ascii false true false false false true false false.

Definition byte_of_Z (z : Z) : Byte.byte :=
  default Byte.x00 (Byte.of_N (Z.to_N (z mod 256))).

Definition Z_of_byte (x : Byte.byte) : Z := Z.of_N (Byte.to_N x).

(** [binary.BigEndian.PutUint64]: the eight bytes of a 64-bit value,
    most significant first. *)
Definition PutUint64 (x : Z) : list Byte.byte :=
  map (fun i => byte_of_Z (Z.shiftr x (8 * i))) [7; 6; 5; 4; 3; 2; 1; 0].

(** The buffer [b] of [MarshalJSON]: limb 3 in [b[0:8]], limb 2 in
    [b[8:16]], limb 1 in [b[16:24]], limb 0 in [b[24:32]]. *)
Definition buffer (z : limbs) : list Byte.byte :=
  PutUint64 (nth 3 z 0) ++ PutUint64 (nth 2 z 0) ++
  PutUint64 (nth 1 z 0) ++ PutUint64 (nth 0 z 0).

(** [SetBytes] of [big.Int]: the bytes as a big-endian unsigned integer. *)
Definition SetBytes (b : list Byte.byte) : Z :=
  fold_left (fun acc x => acc * 256 + Z_of_byte x) b 0.

(** [Text(10)] of [big.Int] and [strconv.Itoa]: the decimal digits, with
    a leading [-] for a negative number. *)
Definition Text10 (v : Z) : string := NilZero.string_of_int (Z.to_int v).
Definition Itoa (i : Z) : string := NilZero.string_of_int (Z.to_int i).

(** [FrElement.MarshalJSON]; the error it returns is always [nil]. *)
Definition MarshalJSON (z : limbs) : string :=
  String quote (String.append (Text10 (SetBytes (buffer z))) (String quote EmptyString)).

(** Reading a decimal number back. *)
Definition parse_decimal (s : string) : option Z :=
  option_map Z.of_int (NilZero.int_of_string s).

(** The integer that four limbs stand for, least significant first. *)
Definition limbs_value (z : limbs) : Z :=
  nth 0 z 0 + 2 ^ 64 * nth 1 z 0 + 2 ^ 128 * nth 2 z 0 + 2 ^ 192 * nth 3 z 0.

(** A value of the array type [[4]uint64]. *)
Definition is_element (z : limbs) : Prop :=
  length z = 4%nat /\ Forall (fun l => 0 <= l < 2 ^ 64) z.

(** One side of a row: [side[int(term.VID)] = FrElement{ee}] with [ee]
    the first four limbs of the coefficient. *)
Definition fill_side (r1cs : R1CS) (lc : list Term) (side : gmap Z limbs) : gmap Z limbs :=
  fold_left (fun m term => <[VID term := take 4 (GetCoefficient r1cs (CID term))]> m)
            lc side.

Definition r1csRaw (r1cs : R1CS) : result (list ConstraintRaw) :=
  if GetNbConstraints r1cs <? 0 then Panic PanicMakeSlice
  else Done (map (fun r1c => MkConstraintRaw (fill_side r1cs (L r1c) ∅)
                                            (fill_side r1cs (R r1c) ∅)
                                            (fill_side r1cs (O r1c) ∅))
                 (GetR1Cs r1cs)).

Record AssignmentRaw := MkAssignmentRaw {
  Variables : list limbs;
  PrimaryInputSize : Z;
  AuxiliaryInputSize : Z
}.

(** Every entry of the witness, the first included. *)
Definition assignmentRaw (solution : R1CSSolution) : result AssignmentRaw :=
  Done (MkAssignmentRaw (W solution) 0 0).

Record LookupRaw := MkLookupRaw {
  Table : list (string * string * string);
  Constraints : list ConstraintRaw
}.

(** [make([][3]string, 0, lookup.NbTable)]: a row of three strings takes
    48 bytes. *)
Definition lookupRaw (lookup : Lookup) (r1cs : R1CS) : result LookupRaw :=
  if makeslice_cap_out_of_range 48 (NbTable lookup) then Panic PanicMakeSlice
  else
    Done (MkLookupRaw
            (map (fun i => (Itoa i, "0"%string, "0"%string)) (seqZ 0 (NbTable lookup)))
            (map (fun lc => MkConstraintRaw (fill_side r1cs lc ∅) ∅ ∅) (A lookup))).

Section Serializers.
Context `{Encoder} {FS File : Type} `{OS FS File}.

Definition SerializeR1CS (r1cs : R1CS) (filePath : string) (fs : FS)
    : result (option exportError) * FS :=
  serialize (r1csRaw r1cs) filePath fs.

Definition SerializeAssignment (solution : R1CSSolution) (filePath : string) (fs : FS)
    : result (option exportError) * FS :=
  serialize (assignmentRaw solution) filePath fs.

Definition SerializeLookup (lookup : Lookup) (r1cs : R1CS) (filePath : string) (fs : FS)
    : result (option exportError) * FS :=
  serialize (lookupRaw lookup r1cs) filePath fs.

End Serializers.
End ExportJson.

(** ** The group law of G2 ([std/algebra/emulated/sw_bls12381/g2.go]) *)

Module SwBls12381.

(** The operations of [fields_bls12381.Ext2] that the group law calls,
    on the values of the field elements, taken as a parameter: the
    package is not among the sources.  [Inverse] is not called by the
    group law; it serves to state what [DivUnchecked] returns. *)
Class Ext2 (E : Type) := {
  Zero : E;
  One : E;
  Add : E -> E -> E;
  Sub : E -> E -> E;
  Mul : E -> E -> E;
  Neg : E -> E;
  Inverse : E -> E;
  Square : E -> E;
  Double : E -> E;
  MulByConstElement : E -> Z -> E;
  DivUnchecked : E -> E -> E
}.

(** The sum of [n] copies of an element. *)
Fixpoint times {E} `{Ext2 E} (n : nat) (x : E) : E :=
  match n with
  | 0%nat => Zero
  | S n' => Add x (times n' x)
  end.

(** The contract of the operations: they are those of a field;
    [DivUnchecked] is the quotient when the divisor is not zero (with a
    zero divisor its constraint leaves the result free). *)
Record Ext2_laws {E} `{Ext2 E} : Prop := {
  Ext2_field :
    field_theory Zero One Add Mul Sub Neg (fun a b => Mul a (Inverse b)) Inverse eq;
  Square_spec : forall x, Square x = Mul x x;
  Double_spec : forall x, Double x = Add x x;
  MulByConstElement_spec : forall x c, 0 <= c -> MulByConstElement x c = times (Z.to_nat c) x;
  DivUnchecked_spec : forall a b, b <> Zero -> DivUnchecked a b = Mul a (Inverse b)
}.
Arguments Ext2_laws E {_}.

(** [G2Affine]. *)
Record G2Affine (E : Type) := MkG2Affine { X : E; Y : E }.
Arguments MkG2Affine {E} _ _.
Arguments X {E} _.
Arguments Y {E} _.

Section GroupLaw.
Context {E : Type} `{Ext2 E}.

Definition add (p q : G2Affine E) : G2Affine E :=
  (* compute λ = (q.y-p.y)/(q.x-p.x) *)
  let qypy := Sub (Y q) (Y p) in
  let qxpx := Sub (X q) (X p) in
  let lam := DivUnchecked qypy qxpx in
  (* xr = λ²-p.x-q.x *)
  let lamlam := Square lam in
  let qxpx := Add (X p) (X q) in
  let xr := Sub lamlam qxpx in
  (* p.y = λ(p.x-r.x) - p.y *)
  let pxrx := Sub (X p) xr in
  let lampxrx := Mul lam pxrx in
  let yr := Sub lampxrx (Y p) in
  MkG2Affine xr yr.

Definition neg (p : G2Affine E) : G2Affine E :=
  let xr := X p in
  let yr := Neg (Y p) in
  MkG2Affine xr yr.

Definition sub (p q : G2Affine E) : G2Affine E :=
  let qNeg := neg q in
  add p qNeg.

Definition double (p : G2Affine E) : G2Affine E :=
  (* compute λ = (3p.x²)/2*p.y *)
  let xx3a := Square (X p) in
  let xx3a := MulByConstElement xx3a 3 in
  let y2 := Double (Y p) in
  let lam := DivUnchecked xx3a y2 in
  (* xr = λ²-2p.x *)
  let x2 := Double (X p) in
  let lamlam := Square lam in
  let xr := Sub lamlam x2 in
  (* yr = λ(p-xr) - p.y *)
  let pxrx := Sub (X p) xr in
  let lampxrx := Mul lam pxrx in
  let yr := Sub lampxrx (Y p) in
  MkG2Affine xr yr.

(** [for s := 0; s < n; s++ { pn = g2.double(pn) }]: no iteration for
    [n <= 0]. *)
Definition doubleN (p : G2Affine E) (n : Z) : G2Affine E :=
  Nat.iter (Z.to_nat n) double p.

Definition triple (p : G2Affine E) : G2Affine E :=
  (* compute λ1 = (3p.x²)/2p.y *)
  let xx := Square (X p) in
  let xx := MulByConstElement xx 3 in
  let y2 := Double (Y p) in
  let lam1 := DivUnchecked xx y2 in
  (* xr = λ1²-2p.x *)
  let x2 := MulByConstElement (X p) 2 in
  let lam1lam1 := Square lam1 in
  let x2 := Sub lam1lam1 x2 in
  (* compute λ2 = 2p.y/(x2 − p.x) − λ1 *)
  let x1x2 := Sub (X p) x2 in
  let lam2 := DivUnchecked y2 x1x2 in
  let lam2 := Sub lam2 lam1 in
  (* xr = λ²-p.x-x2 *)
  let lam2lam2 := Square lam2 in
  let qxrx := Add x2 (X p) in
  let xr := Sub lam2lam2 qxrx in
  (* yr = λ(p.x-xr) - p.y *)
  let pxrx := Sub (X p) xr in
  let lam2pxrx := Mul lam2 pxrx in
  let yr := Sub lam2pxrx (Y p) in
  MkG2Affine xr yr.

Definition doubleAndAdd (p q : G2Affine E) : G2Affine E :=
  (* compute λ1 = (q.y-p.y)/(q.x-p.x) *)
  let yqyp := Sub (Y q) (Y p) in
  let xqxp := Sub (X q) (X p) in
  let lam1 := DivUnchecked yqyp xqxp in
  (* compute x2 = λ1²-p.x-q.x *)
  let lam1lam1 := Square lam1 in
  let xqxp := Add (X p) (X q) in
  let x2 := Sub lam1lam1 xqxp in
  (* compute λ2 = -λ1-2*p.y/(x2-p.x) *)
  let ypyp := Add (Y p) (Y p) in
  let x2xp := Sub x2 (X p) in
  let lam2 := DivUnchecked ypyp x2xp in
  let lam2 := Add lam1 lam2 in
  let lam2 := Neg lam2 in
  (* compute x3 = λ2²-p.x-x2 *)
  let lam2lam2 := Square lam2 in
  let x3 := Sub lam2lam2 (X p) in
  let x3 := Sub x3 x2 in
  (* compute y3 = λ2*(p.x - x3)-p.y *)
  let y3 := Sub (X p) x3 in
  let y3 := Mul lam2 y3 in
  let y3 := Sub y3 (Y p) in
  MkG2Affine x3 y3.

Definition scalarMulBySeed (q : G2Affine E) : G2Affine E :=
  let z := triple q in
  let z := double z in
  let z := doubleAndAdd z q in
  let z := doubleN z 2 in
  let z := doubleAndAdd z q in
  let z := doubleN z 8 in
  let z := doubleAndAdd z q in
  let z := doubleN z 31 in
  let z := doubleAndAdd z q in
  let z := doubleN z 16 in
  neg z.

(** The curve [y² = x³ + b]. *)
Definition on_curve (b : E) (p : G2Affine E) : Prop :=
  Mul (Y p) (Y p) = Add (Mul (Mul (X p) (X p)) (X p)) b.

End GroupLaw.

(** The rational number of an integer. *)
Definition Qc_of_Z (k : Z) : Qcanon.Qc := Qcanon.Q2Qc (QArith_base.inject_Z k).

(** The rational numbers as an instance of the operations. *)
Definition Qc_ext2 : Ext2 Qcanon.Qc := {|
  Zero := Qc_of_Z 0;
  One := Qc_of_Z 1;
  Add := Qcanon.Qcplus;
  Sub := Qcanon.Qcminus;
  Mul := Qcanon.Qcmult;
  Neg := Qcanon.Qcopp;
  Inverse := Qcanon.Qcinv;
  Square := fun x => Qcanon.Qcmult x x;
  Double := fun x => Qcanon.Qcplus x x;
  MulByConstElement := fun x c => Qcanon.Qcmult x (Qc_of_Z c);
  DivUnchecked := Qcanon.Qcdiv
|}.

(** The point with parameter [k] of the cuspidal cubic [y² = x³]:
    [(1/k², 1/k³)]. *)
Definition cusp_point (k : Z) : G2Affine Qcanon.Qc :=
  MkG2Affine (Qcanon.Qcinv (Qcanon.Qcmult (Qc_of_Z k) (Qc_of_Z k)))
             (Qcanon.Qcinv (Qcanon.Qcmult (Qcanon.Qcmult (Qc_of_Z k) (Qc_of_Z k)) (Qc_of_Z k))).

(** The point with integer coordinates [(x, y)] over the rationals. *)
Definition Qpoint (x y : Z) : G2Affine Qcanon.Qc :=
  MkG2Affine (Qc_of_Z x) (Qc_of_Z y).

(** The scalars of the addition chain of [scalarMulBySeed]: not zero and
    below [2^64] in absolute value. *)
Definition small_scalar (a : Z) : Prop :=
  a <> 0 /\ Z.abs a < 18446744073709551616.

(** [pt a] is the multiple by [a] of one point, as far as the formulas of
    this file are concerned and for small scalars: two multiples share
    their abscissa only when the scalars are equal or opposite, no
    multiple has ordinate zero, the chord formula adds the scalars of two
    multiples with distinct scalars, the tangent formula doubles the
    scalar and [neg] negates it.  The multiples of a point of a curve
    whose order is an odd prime above [2^65] are of this kind. *)
Definition chord_tangent_multiples {E} `{Ext2 E} (pt : Z -> G2Affine E) : Prop :=
  (forall a b, small_scalar a -> small_scalar b ->
     X (pt a) = X (pt b) -> a = b \/ a = - b) /\
  (forall a, small_scalar a -> Double (Y (pt a)) <> Zero) /\
  (forall a b, small_scalar a -> small_scalar b -> small_scalar (a + b) ->
     a <> b -> add (pt a) (pt b) = pt (a + b)) /\
  (forall a, small_scalar a -> small_scalar (2 * a) -> double (pt a) = pt (2 * a)) /\
  (forall a, small_scalar a -> neg (pt a) = pt (- a)).

End SwBls12381.

(** ** Stand-ins for the libraries, for running the exporters *)

(** The scalar field of BLS12-377, elements in Montgomery form with
    [R = 2^256]. *)
Module Fr.

Definition q : Z :=
  8444461749428370424248824938781546531375899335154063827935233455917409239041.

(** The inverse of [2^256] modulo [q]. *)
Definition Rinv : Z :=
  3482466379256973933331601287759811764685972354380176549708408303012390300674.

Definition to_Z (e : limbs) : Z := foldr (fun l acc => l + 2 ^ 64 * acc) 0 e.

Definition of_Z (z : Z) : limbs :=
  map (fun i => (z / 2 ^ (64 * i)) mod 2 ^ 64) (seqZ 0 4).

Definition from_mont (e : limbs) : Z := (to_Z e * Rinv) mod q.

(** The Montgomery form of an integer. *)
Definition of_int (z : Z) : limbs := of_Z ((z * 2 ^ 256) mod q).

#[export] Instance lib : FieldLib := {|
  Bits := fun e => of_Z (from_mont e);
  BigInt := from_mont;
  Modulus := q
|}.

Example Rinv_inverse : (2 ^ 256 * Rinv) mod q = 1.
Proof. reflexivity. Qed.

Example Bits_of_int_7 : Bits (of_int 7) = [7; 0; 0; 0].
Proof. reflexivity. Qed.

End Fr.

(** A file system in memory: a path is creatable or not, a file takes a
    bounded number of bytes, and closing may report an error. *)
Module MemFS.

Record fs := MkFS {
  files : gmap string (list Byte.byte);
  readonly : list string;            (* paths that cannot be created *)
  capacity : nat;                    (* bytes a write can take *)
  close_error : option ioError       (* what closing a file answers *)
}.

Definition create (path : string) (s : fs) : (string + ioError) * fs :=
  if bool_decide (path ∈ readonly s) then (inr (ErrOther 13), s)
  else (inl path,
        MkFS (<[path := []]> (files s)) (readonly s) (capacity s) (close_error s)).

Definition write (path : string) (b : list Byte.byte) (s : fs) : option ioError * fs :=
  if (capacity s <? length b)%nat
  then (Some (ErrOther 28),
        MkFS (<[path := take (capacity s) b]> (files s)) (readonly s) (capacity s)
             (close_error s))
  else (None, MkFS (<[path := b]> (files s)) (readonly s) (capacity s) (close_error s)).

Definition close (path : string) (s : fs) : option ioError * fs := (close_error s, s).

#[export] Instance os : OS fs string := {|
  os_Create := create;
  file_Write := write;
  file_Close := close
|}.

(** An encoder that writes one byte per exported value. *)
#[export] Instance encoder : Encoder := {|
  Marshal := fun T x => inr [Byte.x00]
|}.

End MemFS.

(** ** The cost model in the words of the specification *)

(** [totalLimbs(w)]: the sum over the requests of [ceil(bitWidth_i / w)]. *)
Definition spec_totalLimbs {V} (collected : list (checkedVariable V)) (w : Z) : Z :=
  foldr (fun c acc => ceil_div (cv_bits c) w + acc) 0 collected.

(** [cost(w) = tableRows(w) + totalLimbs(w) + numRequests + 1]. *)
Definition spec_cost {V} (collected : list (checkedVariable V)) (w : Z) : Z :=
  2 ^ w + spec_totalLimbs collected w + Z.of_nat (length collected) + 1.

(** The sum of the requested bit widths. *)
Definition total_bits {V} (collected : list (checkedVariable V)) : Z :=
  foldr (fun c acc => cv_bits c + acc) 0 collected.

(** Requests on which the 64-bit cost computation agrees with the
    mathematical one: no negative bit width, and a total that stays far
    from the top of the [int] range. *)
Definition in_range {V} (collected : list (checkedVariable V)) : Prop :=
  Forall (fun c => 0 <= cv_bits c) collected /\
  total_bits collected + 17 * Z.of_nat (length collected) <= 2 ^ 62.

(** ** Vocabulary of the properties *)

Section CollectorVocabulary.
Context {B V : Type} `{Builder B V}.

(** One [Check] per entry of a list of requests, in order. *)
Definition checks (requests : list (checkedVariable V)) (s : varunaChecker V * B)
    : varunaChecker V * B :=
  fold_left (fun s r => run_op (OpCheck (cv_v r) (cv_bits r)) s) requests s.

(** [group] is what [NewHint] returned, in some state of the builder, for
    the inputs [bits], [baseLength] and the checked variable of a
    request. *)
Definition hinted (baseLength : Z) (rq : checkedVariable V) (group : list V) : Prop :=
  exists b1 b2,
    NewHint (decompSize (cv_bits rq) baseLength)
      [constant (cv_bits rq); constant baseLength; cv_v rq] b1 = (Some group, b2).

(** A member of the [Lookup] is the canonical form of a limb. *)
Definition canonical_of (v : V) (l : list Term) : Prop :=
  exists b1 b2, ToCanonicalVariable v b1 = (CanonLinear l, b2).

(** The calls of this package among the actions. *)
Definition own_action (a : @action B V) : Prop :=
  match a with
  | ActNew | ActCheck _ _ _ | ActFinalize _ => True
  | ActSetKey _ _ | ActDefer _ | ActApi _ => False
  end.

(** The callbacks of other gadgets, in registration order. *)
Definition other_hooks (l : list callback) : list nat :=
  omap (fun cb => match cb with CallOther n => Some n | CallHandle _ => None end) l.

(** The build holds, under the key of this package, the closed collector
    [cht] at the address [c]. *)
Definition holds_closed (c : ptr) (cht : varunaChecker V) (w : build B V) : Prop :=
  isStore w = true /\
  kv w !! ctxCheckerKey = Some (StoredChecker c) /\
  heap w !! c = Some cht /\
  closed cht = true.

End CollectorVocabulary.

Section ExportVocabulary.
Context {FS File : Type} `{OS FS File} `{FieldLib}.

(** The file is created and the bytes [b] are written without error;
    [fs'] is the file system after the file is closed. *)
Definition written (filePath : string) (b : list Byte.byte) (fs fs' : FS) : Prop :=
  exists file fs1 fs2,
    os_Create filePath fs = (inl file, fs1) /\
    file_Write file b fs1 = (None, fs2) /\
    fs' = snd (file_Close file fs2).

(** The coefficient of every term of a linear expression reads as an
    integer below the modulus. *)
Definition in_field (r1cs : R1CS) (lc : list Term) : Prop :=
  Forall (fun t => BigInt (take 4 (GetCoefficient r1cs (CID t))) < Modulus) lc.

(** The exported row of a constraint. *)
Definition row_of (r1cs : R1CS) (r1c : R1C) : ConstraintRaw :=
  MkConstraintRaw (ExportUtils.fill_side r1cs (L r1c) ∅)
                  (ExportUtils.fill_side r1cs (R r1c) ∅)
                  (ExportUtils.fill_side r1cs (O r1c) ∅).

Definition row_in_field (r1cs : R1CS) (r1c : R1C) : Prop :=
  in_field r1cs (L r1c) /\ in_field r1cs (R r1c) /\ in_field r1cs (O r1c).

(** The row of the binary export that corresponds to a row of the JSON
    export: every element in normal form. *)
Definition normal_row (row : ConstraintRaw) : ConstraintRaw :=
  MkConstraintRaw (Bits <$> rawA row) (Bits <$> rawB row) (Bits <$> rawC row).

End ExportVocabulary.

(** The bytes of the low [k] bytes of a value, most significant first. *)
Definition be_bytes (k : nat) (x : Z) : list Byte.byte :=
  map (fun i => ExportJson.byte_of_Z (Z.shiftr x (8 * i))) (rev (seqZ 0 (Z.of_nat k))).

(** * Proofs *)

(** ** Machine integers *)

Lemma wrap64_small z : GoInt.in_int z -> GoInt.wrap64 z = z.
Proof.
  unfold GoInt.in_int, GoInt.MinInt64, GoInt.MaxInt64, GoInt.wrap64. intros Hz.
  rewrite Z.mod_small; lia.
Qed.

Lemma wrap64_range z : GoInt.in_int (GoInt.wrap64 z).
Proof.
  unfold GoInt.in_int, GoInt.MinInt64, GoInt.MaxInt64, GoInt.wrap64.
  pose proof (Z.mod_pos_bound (z + 2 ^ 63) (2 ^ 64) ltac:(lia)). lia.
Qed.

Lemma wrap64_add_l a b : GoInt.wrap64 (GoInt.wrap64 a + b) = GoInt.wrap64 (a + b).
Proof.
  unfold GoInt.wrap64. f_equal.
  replace ((a + 2 ^ 63) mod 2 ^ 64 - 2 ^ 63 + b + 2 ^ 63)
    with ((a + 2 ^ 63) mod 2 ^ 64 + b) by lia.
  rewrite Zplus_mod_idemp_l. f_equal. lia.
Qed.

Lemma wrap64_add_r a b : GoInt.wrap64 (a + GoInt.wrap64 b) = GoInt.wrap64 (a + b).
Proof. rewrite (Z.add_comm a), wrap64_add_l. f_equal. lia. Qed.

Lemma shl1_small n : 0 <= n <= 62 -> GoInt.shl1 n = 2 ^ n.
Proof.
  intros Hn. unfold GoInt.shl1. rewrite Z.shiftl_1_l. apply wrap64_small.
  unfold GoInt.in_int, GoInt.MinInt64, GoInt.MaxInt64.
  pose proof (Z.pow_le_mono_r 2 n 62 ltac:(lia) ltac:(lia)).
  pose proof (Z.pow_pos_nonneg 2 n ltac:(lia) ltac:(lia)).
  change (2 ^ 63) with (2 * 2 ^ 62). lia.
Qed.

(** The capacities that [make] accepts. *)
Lemma makeslice_cap_in_range size cap :
  makeslice_cap_out_of_range size cap = false <-> 0 <= cap /\ size * cap <= maxAlloc.
Proof.
  unfold makeslice_cap_out_of_range. rewrite orb_false_iff, !Z.ltb_ge. tauto.
Qed.

(** ** [decompSize] is the ceiling, away from overflow *)

Lemma ceil_div_spec a b : 0 < b -> ceil_div a b = (a + b - 1) / b.
Proof.
  intros Hb. unfold ceil_div.
  pose proof (Z.div_mod (- a) b ltac:(lia)) as H1.
  pose proof (Z.mod_pos_bound (- a) b Hb) as H2.
  apply (Z.div_unique (a + b - 1) b _ (b - 1 - (- a) mod b)); lia.
Qed.

Lemma ceil_div_bounds a b : 0 <= a -> 0 < b -> 0 <= ceil_div a b <= a.
Proof.
  intros Ha Hb. rewrite ceil_div_spec by lia. split.
  - apply Z.div_pos; lia.
  - destruct (Z.eq_dec a 0) as [->|Hne].
    + rewrite Z.div_small; lia.
    + apply Z.div_le_upper_bound; nia.
Qed.

Lemma decompSize_ceil varSize limbSize :
  0 <= varSize <= 2 ^ 62 -> 0 < limbSize <= 2 ^ 32 ->
  decompSize varSize limbSize = ceil_div varSize limbSize.
Proof.
  intros Hv Hl. unfold decompSize, GoInt.quo, GoInt.sub, GoInt.add.
  assert (H62 : 2 ^ 63 = 2 * 2 ^ 62) by reflexivity.
  rewrite (wrap64_small (varSize + limbSize))
    by (unfold GoInt.in_int, GoInt.MinInt64, GoInt.MaxInt64; lia).
  rewrite (wrap64_small (varSize + limbSize - 1))
    by (unfold GoInt.in_int, GoInt.MinInt64, GoInt.MaxInt64; lia).
  rewrite Z.quot_div_nonneg by lia.
  rewrite <- ceil_div_spec by lia.
  apply wrap64_small. pose proof (ceil_div_bounds varSize limbSize ltac:(lia) ltac:(lia)).
  unfold GoInt.in_int, GoInt.MinInt64, GoInt.MaxInt64; lia.
Qed.

(** ** The cost function of the code *)

Section OptimizerFacts.
Context {V : Type}.
Implicit Types collected cs : list (checkedVariable V).

Lemma nbDecomposed_loop_wrap j cs acc :
  GoInt.wrap64 (nbDecomposed_loop j cs acc) = GoInt.wrap64 (acc + code_totalLimbs j cs).
Proof.
  revert acc. induction cs as [|c cs IH]; intros acc; simpl.
  - f_equal. lia.
  - rewrite IH. unfold GoInt.add. rewrite wrap64_add_l. f_equal. lia.
Qed.

(** The cost the code computes is the 64-bit reduction of the sum of its
    four terms. *)
Lemma nbR1CSConstraints_wrap j cs :
  nbR1CSConstraints j cs =
  GoInt.wrap64 (GoInt.shl1 j + GoInt.len cs + 1 + code_totalLimbs j cs).
Proof.
  unfold nbR1CSConstraints, GoInt.add.
  rewrite wrap64_add_l, <- Z.add_assoc, wrap64_add_l.
  replace (GoInt.shl1 j + nbDecomposed_loop j cs 0 + (GoInt.len cs + 1))
    with (GoInt.shl1 j + GoInt.len cs + 1 + nbDecomposed_loop j cs 0) by lia.
  rewrite <- (wrap64_add_r _ (nbDecomposed_loop j cs 0)).
  rewrite nbDecomposed_loop_wrap, wrap64_add_r. f_equal.
Qed.

Lemma code_totalLimbs_perm j cs cs' :
  Permutation cs cs' -> code_totalLimbs j cs = code_totalLimbs j cs'.
Proof.
  induction 1; simpl; lia.
Qed.

Lemma nbR1CSConstraints_perm j cs cs' :
  Permutation cs cs' -> nbR1CSConstraints j cs = nbR1CSConstraints j cs'.
Proof.
  intros HP. rewrite !nbR1CSConstraints_wrap.
  rewrite (code_totalLimbs_perm j cs cs' HP).
  unfold GoInt.len. by rewrite (Permutation_length HP).
Qed.

Lemma total_bits_nonneg cs :
  Forall (fun c => 0 <= cv_bits c) cs -> 0 <= total_bits cs.
Proof. induction 1; simpl; lia. Qed.

Lemma spec_totalLimbs_bounds j cs :
  0 < j -> Forall (fun c => 0 <= cv_bits c) cs ->
  0 <= spec_totalLimbs cs j <= total_bits cs.
Proof.
  intros Hj. induction 1 as [|c cs Hc Hcs IH]; simpl; [lia|].
  pose proof (ceil_div_bounds (cv_bits c) j Hc Hj). lia.
Qed.

Lemma code_totalLimbs_spec j cs :
  0 < j <= 17 -> Forall (fun c => 0 <= cv_bits c) cs -> total_bits cs <= 2 ^ 62 ->
  code_totalLimbs j cs = spec_totalLimbs cs j.
Proof.
  intros Hj. induction 1 as [|c cs Hc Hcs IH]; simpl; intros Ht; [done|].
  pose proof (total_bits_nonneg cs Hcs).
  rewrite IH by lia. rewrite decompSize_ceil; [done|lia|lia].
Qed.

(** Away from overflow the code computes the cost of the specification. *)
Lemma nbR1CSConstraints_spec j cs :
  2 <= j <= 17 -> in_range cs -> nbR1CSConstraints j cs = spec_cost cs j.
Proof.
  intros Hj [Hnn Htot].
  pose proof (total_bits_nonneg cs Hnn) as Hb.
  pose proof (spec_totalLimbs_bounds j cs ltac:(lia) Hnn) as Hs.
  rewrite nbR1CSConstraints_wrap, shl1_small by lia.
  rewrite code_totalLimbs_spec by (try done; lia).
  unfold spec_cost, GoInt.len.
  assert (0 < 2 ^ j <= 2 ^ 17) as Hp.
  { split; [apply Z.pow_pos_nonneg; lia | apply Z.pow_le_mono_r; lia]. }
  rewrite wrap64_small; [lia|].
  unfold GoInt.in_int, GoInt.MinInt64, GoInt.MaxInt64.
  change (2 ^ 63) with (2 * 2 ^ 62). change (2 ^ 17) with 131072 in Hp.
  assert (131072 < 2 ^ 62) by reflexivity. lia.
Qed.

(** ** The scan *)

Lemma optimalWidth_scan_ext (f : Z -> list (checkedVariable V) -> Z) cs cs' js min minVal :
  (forall j, f j cs = f j cs') ->
  optimalWidth_scan f cs js min minVal = optimalWidth_scan f cs' js min minVal.
Proof.
  intros Hf. revert min minVal.
  induction js as [|j js IH]; intros min minVal; simpl; [done|].
  rewrite <- Hf. destruct (f j cs <? min); apply IH.
Qed.

(** What the scan returns: the incoming candidate when no visited width
    is cheaper than the incoming minimum, and otherwise a visited width
    that is strictly cheaper than every width before it and at most as
    expensive as every width after it. *)
Lemma optimalWidth_scan_spec (f : Z -> list (checkedVariable V) -> Z) cs js :
  forall min minVal,
    let r := optimalWidth_scan f cs js min minVal in
    (r = minVal /\ Forall (fun j => min <= f j cs) js) \/
    (exists l1 l2, js = l1 ++ r :: l2 /\ f r cs < min /\
       Forall (fun j => f r cs < f j cs) l1 /\
       Forall (fun j => f r cs <= f j cs) l2).
Proof.
  induction js as [|j js IH]; intros min minVal; simpl.
  - left. split; [done|constructor].
  - destruct (Z.ltb_spec (f j cs) min) as [Hlt|Hge].
    + destruct (IH (f j cs) j) as [[Hr Hall]|(l1 & l2 & Hjs & Hr & H1 & H2)].
      * right. exists [], js. rewrite Hr. repeat split; [done|constructor|done].
      * right. exists (j :: l1), l2. rewrite Hjs at 1.
        repeat split; [lia|by constructor|done].
    + destruct (IH min minVal) as [[Hr Hall]|(l1 & l2 & Hjs & Hr & H1 & H2)].
      * left. split; [done|]. by constructor.
      * right. exists (j :: l1), l2. rewrite Hjs at 1.
        repeat split; [done| |done]. constructor; [lia|done].
Qed.

(** A split of the scanned range [2..17] at [r] has the smaller widths
    on the left and the larger ones on the right. *)
Lemma seqZ_split (m : Z) (n : Z) l1 r l2 :
  seqZ m n = l1 ++ r :: l2 ->
  m <= r < m + n /\
  (forall j, m <= j < r -> j ∈ l1) /\
  (forall j, r < j < m + n -> j ∈ l2).
Proof.
  intros Hs.
  assert (Hr : seqZ m n !! length l1 = Some r).
  { rewrite Hs. rewrite lookup_app_r by lia. by rewrite Nat.sub_diag. }
  apply lookup_seqZ in Hr as [Hr Hlen].
  split; [lia|]. split.
  - intros j Hj.
    assert (Hj' : seqZ m n !! Z.to_nat (j - m) = Some j).
    { apply lookup_seqZ. lia. }
    rewrite Hs, lookup_app_l in Hj' by lia.
    by apply list_elem_of_lookup_2 in Hj'.
  - intros j Hj.
    assert (Hj' : seqZ m n !! Z.to_nat (j - m) = Some j).
    { apply lookup_seqZ. lia. }
    rewrite Hs, lookup_app_r in Hj' by lia.
    replace (Z.to_nat (j - m) - length l1)%nat
      with (S (Z.to_nat (j - m) - length l1 - 1)) in Hj' by lia.
    simpl in Hj'. by apply list_elem_of_lookup_2 in Hj'.
Qed.

(** [optimalWidth] with a cost function that stays below [MaxInt64] on
    some width of the range. *)
Lemma optimalWidth_spec (f : Z -> list (checkedVariable V) -> Z) cs :
  (exists j, 2 <= j <= 17 /\ f j cs < GoInt.MaxInt64) ->
  let w := optimalWidth f cs in
  2 <= w <= 17 /\
  (forall j, 2 <= j <= 17 -> f w cs <= f j cs) /\
  (forall j, 2 <= j < w -> f w cs < f j cs).
Proof.
  intros (j0 & Hj0 & Hlt) w. subst w. unfold optimalWidth.
  destruct (optimalWidth_scan_spec f cs (seqZ 2 16) GoInt.MaxInt64 0)
    as [[_ Hall]|(l1 & l2 & Hjs & Hr & H1 & H2)].
  - rewrite Forall_forall in Hall.
    assert (j0 ∈ seqZ 2 16) as Hin by (apply elem_of_seqZ; lia).
    specialize (Hall j0 Hin). lia.
  - set (w := optimalWidth_scan f cs (seqZ 2 16) GoInt.MaxInt64 0) in *.
    destruct (seqZ_split 2 16 l1 w l2 Hjs) as (Hw & Hl & Hg).
    rewrite Forall_forall in H1, H2.
    split; [lia|]. split.
    + intros j Hj.
      destruct (Z.lt_trichotomy j w) as [Hc|[->|Hc]].
      * specialize (H1 j (Hl j ltac:(lia))). lia.
      * lia.
      * apply H2, Hg. lia.
    + intros j Hj. apply H1, Hl. lia.
Qed.

End OptimizerFacts.

(** ** The decomposition hint *)

Lemma decompose_loop_length base shift outputs tmp :
  length (decompose_loop base shift outputs tmp) = length outputs.
Proof.
  revert tmp. induction outputs as [|o outputs IH]; intros tmp; simpl; [done|].
  by rewrite IH.
Qed.

Lemma decompose_loop_limbs shift outputs tmp :
  0 <= shift ->
  Forall (fun l => 0 <= l < 2 ^ shift) (decompose_loop (2 ^ shift) shift outputs tmp).
Proof.
  intros Hs. revert tmp. induction outputs as [|o outputs IH]; intros tmp; simpl.
  - constructor.
  - constructor; [|apply IH]. apply Z.mod_pos_bound, Z.pow_pos_nonneg; lia.
Qed.

(** The limbs written by the loop recompose to the value reduced modulo
    [base ^ nbLimbs]. *)
Lemma recompose_decompose_loop shift outputs :
  0 < shift ->
  forall tmp i, 0 <= i ->
    recompose_from (2 ^ shift) i (decompose_loop (2 ^ shift) shift outputs tmp) =
    (2 ^ shift) ^ i * (tmp mod (2 ^ shift) ^ GoInt.len outputs).
Proof.
  intros Hs. set (base := 2 ^ shift).
  assert (Hb : 0 < base) by (apply Z.pow_pos_nonneg; lia).
  induction outputs as [|o outputs IH]; intros tmp i Hi; simpl.
  - unfold GoInt.len. simpl. rewrite Z.mod_1_r. lia.
  - rewrite IH by lia. rewrite Z.shiftr_div_pow2 by lia. fold base.
    unfold GoInt.len. simpl length. rewrite Nat2Z.inj_succ, Z.pow_succ_r by lia.
    assert (0 < base ^ Z.of_nat (length outputs)) by (apply Z.pow_pos_nonneg; lia).
    rewrite (Z.rem_mul_r tmp base) by lia.
    rewrite Z.pow_add_r, Z.pow_1_r by lia. ring.
Qed.

Lemma ceil_div_covers a b : 0 < b -> a <= ceil_div a b * b.
Proof.
  intros Hb. unfold ceil_div.
  pose proof (Z.mul_div_le (- a) b Hb). lia.
Qed.

(** C6.  For a bit width in [1,253], a limb width in [2,17] and a value
    below [2^bitWidth] in canonical non-negative form, [DecomposeHint]
    called with [ceil(bitWidth/limbWidth)] output slots returns without
    error, fills that many limbs, each below [2^limbWidth], and the sum of
    [limb_i * (2^limbWidth)^i], least significant limb first, is the value. *)
Theorem DecomposeHint_roundtrip (m bitWidth limbWidth value : Z) (outputs : list Z) :
  1 <= bitWidth <= 253 ->
  2 <= limbWidth <= 17 ->
  0 <= value < 2 ^ bitWidth ->
  GoInt.len outputs = ceil_div bitWidth limbWidth ->
  exists limbs,
    DecomposeHint m [bitWidth; limbWidth; value] outputs = HintOk limbs /\
    GoInt.len limbs = ceil_div bitWidth limbWidth /\
    Forall (fun l => 0 <= l < 2 ^ limbWidth) limbs /\
    recompose (2 ^ limbWidth) limbs = value.
Proof.
  intros Hb Hl Hv Hlen.
  assert (Hin : forall z, 0 <= z <= 253 -> GoInt.wrap64 z = z).
  { intros z Hz. apply wrap64_small.
    unfold GoInt.in_int, GoInt.MinInt64, GoInt.MaxInt64. lia. }
  exists (decompose_loop (2 ^ limbWidth) limbWidth outputs value).
  split; [|split; [|split]].
  - unfold DecomposeHint.
    assert (IsUint64 bitWidth = true) as ->.
    { unfold IsUint64. apply andb_true_intro. split; [apply Z.leb_le|apply Z.ltb_lt]; lia. }
    assert (IsUint64 limbWidth = true) as ->.
    { unfold IsUint64. apply andb_true_intro. split; [apply Z.leb_le|apply Z.ltb_lt]; lia. }
    simpl negb. simpl orb. cbv iota.
    unfold Int64. rewrite !Hin by lia.
    destruct (Z.eqb_spec limbWidth 0) as [?|_]; [lia|].
    rewrite decompSize_ceil by lia.
    rewrite Hlen, Z.eqb_refl. simpl negb. cbv iota.
    unfold GoInt.to_uint. rewrite (Z.mod_small limbWidth) by lia.
    by rewrite Z.shiftl_1_l.
  - unfold GoInt.len in *. by rewrite decompose_loop_length.
  - apply decompose_loop_limbs. lia.
  - unfold recompose. rewrite recompose_decompose_loop by lia.
    rewrite Z.pow_0_r, Z.mul_1_l, Hlen.
    apply Z.mod_small. split; [lia|].
    rewrite <- Z.pow_mul_r.
    + apply Z.lt_le_trans with (2 ^ bitWidth); [lia|].
      apply Z.pow_le_mono_r; [lia|].
      pose proof (ceil_div_covers bitWidth limbWidth ltac:(lia)). lia.
    + lia.
    + pose proof (ceil_div_bounds bitWidth limbWidth ltac:(lia) ltac:(lia)). lia.
Qed.

(** An instance: the 16-bit value [0xBEEF] in limbs of 5 bits. *)
Lemma DecomposeHint_roundtrip_witness :
  exists limbs,
    DecomposeHint 0 [16; 5; 48879] [0; 0; 0; 0] = HintOk limbs /\
    GoInt.len limbs = ceil_div 16 5 /\
    Forall (fun l => 0 <= l < 2 ^ 5) limbs /\
    recompose (2 ^ 5) limbs = 48879.
Proof.
  apply (DecomposeHint_roundtrip 0 16 5 48879 [0; 0; 0; 0]).
  - lia.
  - lia.
  - split; [lia|]. reflexivity.
  - reflexivity.
Defined.

(** ** The width optimizer *)

(** Determinism over the multiset: a reordering of the requests does not
    change the selected width, overflow or not. *)
Lemma getOptimalBasewidth_perm {V} (cs cs' : list (checkedVariable V)) :
  Permutation cs cs' -> getOptimalBasewidth cs = getOptimalBasewidth cs'.
Proof.
  intros HP. unfold getOptimalBasewidth, optimalWidth.
  apply optimalWidth_scan_ext. intros j. by apply nbR1CSConstraints_perm.
Qed.

Lemma spec_cost_2_below_max {V} (cs : list (checkedVariable V)) :
  in_range cs -> spec_cost cs 2 < GoInt.MaxInt64.
Proof.
  intros [Hnn Htot]. unfold spec_cost, GoInt.MaxInt64.
  pose proof (spec_totalLimbs_bounds 2 cs ltac:(lia) Hnn).
  change (2 ^ 63) with (2 * 2 ^ 62). change (2 ^ 2) with 4.
  assert (8 < 2 ^ 62) by reflexivity. lia.
Qed.

(** The selected width on requests in range, in terms of the cost of the
    specification. *)
Lemma getOptimalBasewidth_spec {V} (cs : list (checkedVariable V)) :
  in_range cs ->
  let w := getOptimalBasewidth cs in
  2 <= w <= 17 /\
  (forall j, 2 <= j <= 17 -> spec_cost cs w <= spec_cost cs j) /\
  (forall j, 2 <= j < w -> spec_cost cs w < spec_cost cs j).
Proof.
  intros Hr w. subst w. unfold getOptimalBasewidth.
  destruct (optimalWidth_spec nbR1CSConstraints cs) as (Hw & Hmin & Htie).
  { exists 2. split; [lia|]. rewrite nbR1CSConstraints_spec by (done || lia).
    by apply spec_cost_2_below_max. }
  revert Hw Hmin Htie. generalize (optimalWidth nbR1CSConstraints cs) as w.
  intros w Hw Hmin Htie.
  split; [done|]. split.
  - intros j Hj. specialize (Hmin j Hj).
    by rewrite !nbR1CSConstraints_spec in Hmin by (done || lia).
  - intros j Hj. specialize (Htie j Hj).
    by rewrite !nbR1CSConstraints_spec in Htie by (done || lia).
Qed.

(** C5, as the code has it.  For requests whose bit widths are not
    negative and whose total, plus 17 per request, is at most [2^62], the
    selected width lies in [2,17], no width of [2,17] has a lower cost
    [2^w + sum ceil(bitWidth_i / w) + numRequests + 1], every smaller
    width has a strictly higher cost (a tie goes to the smaller width),
    and a reordering of the requests selects the same width. *)
Theorem optimalWidth_minimal {V} (collected : list (checkedVariable V)) :
  in_range collected ->
  let w := getOptimalBasewidth collected in
  2 <= w <= 17 /\
  (forall j, 2 <= j <= 17 -> spec_cost collected w <= spec_cost collected j) /\
  (forall j, 2 <= j < w -> spec_cost collected w < spec_cost collected j) /\
  (forall collected', Permutation collected collected' ->
     getOptimalBasewidth collected' = w).
Proof.
  intros Hr w. destruct (getOptimalBasewidth_spec collected Hr) as (H1 & H2 & H3).
  repeat split; try done; try apply H1.
  intros cs' HP. symmetry. by apply getOptimalBasewidth_perm.
Qed.

(** An instance: four requests of 253, 64, 64 and 1 bits. *)
Lemma optimalWidth_minimal_witness :
  let collected := bits_only [253; 64; 64; 1] in
  let w := getOptimalBasewidth collected in
  2 <= w <= 17 /\
  (forall j, 2 <= j <= 17 -> spec_cost collected w <= spec_cost collected j) /\
  (forall j, 2 <= j < w -> spec_cost collected w < spec_cost collected j) /\
  (forall collected', Permutation collected collected' ->
     getOptimalBasewidth collected' = w).
Proof.
  apply (optimalWidth_minimal (bits_only [253; 64; 64; 1])).
  split.
  - repeat constructor; simpl; lia.
  - vm_compute. discriminate.
Defined.

(** C5 as stated fails on a request of [2^63 - 1] bits: the addition in
    [decompSize] wraps around, the code selects width 2, and width 17 has
    a strictly lower cost. *)
Lemma optimalWidth_overflow_counterexample :
  let collected := bits_only [GoInt.MaxInt64] in
  let w := getOptimalBasewidth collected in
  w = 2 /\ ~ (forall j, 2 <= j <= 17 -> spec_cost collected w <= spec_cost collected j).
Proof.
  split; [reflexivity|].
  intros Hmin. specialize (Hmin 17 ltac:(lia)). vm_compute in Hmin. by apply Hmin.
Qed.

(** ** The collector *)

Section CollectorFacts.
Context {B V : Type} `{Builder B V}.
Implicit Types (c : varunaChecker V) (b : B).

Lemma Check_closed c v bits :
  closed c = true -> Check c v bits = Panic PanicAlreadyClosed.
Proof. intros Hc. unfold Check. by rewrite Hc. Qed.

Lemma Check_open c v bits :
  closed c = false ->
  Check c v bits =
  Done (MkChecker (collected c ++ [CheckedVariable v bits]) false (lookups c)).
Proof. intros Hc. unfold Check. by rewrite Hc. Qed.

Lemma handle_closed c b :
  closed c = true -> handleVarunaRangeCheck c b = (Done None, c, b).
Proof. intros Hc. unfold handleVarunaRangeCheck. by rewrite Hc. Qed.

Lemma handle_empty c b :
  closed c = false -> collected c = [] ->
  handleVarunaRangeCheck c b = (Done None, set_closed c, b).
Proof. intros Hc He. unfold handleVarunaRangeCheck. by rewrite Hc, He. Qed.

(** The deferred assignment: whatever the outcome, the collector is
    closed when the hook is left, and the requests are still there. *)
Lemma handle_closes c b r c' b' :
  handleVarunaRangeCheck c b = (r, c', b') ->
  closed c' = true /\ collected c' = collected c.
Proof.
  unfold handleVarunaRangeCheck.
  destruct (closed c) eqn:Hc; [intros [= <- <- <-]; done|].
  destruct (GoInt.len (collected c) =? 0); [intros [= <- <- <-]; done|].
  destruct (getOptimalBasewidth (collected c) =? 0); [intros [= <- <- <-]; done|].
  destruct (decompose_requests _ _ _ _ _) as [[decomposed|p] b1];
    [|intros [= <- <- <-]; done].
  destruct (canonical_loop _ _ _) as [[members err] b2].
  intros [= <- <- <-]; done.
Qed.

(** While a collector that started as [&varunaChecker{}] is open its
    [Lookup] is still the zero value. *)
Lemma reachable_open_lookups b0 s :
  reachable b0 s -> closed (fst s) = false -> lookups (fst s) = MkLookup 0 [].
Proof.
  induction 1 as [|o [c b] Hs IH|c b b' Hs IH]; simpl in *; [done| |done].
  destruct o as [v bits|]; simpl.
  - unfold Check. destruct (closed c) eqn:Hc; simpl; [intros; congruence|].
    intros _. by apply IH.
  - destruct (handleVarunaRangeCheck c b) as [[r c'] b'] eqn:Hh.
    apply handle_closes in Hh as [Hcl _]. simpl. congruence.
Qed.

(** The limbs collected by the loop over the requests: [NewHint]
    returning what it was asked for, their number grows by
    [decompSize(bits, baseLength)] per request. *)
Lemma decompose_requests_length baseLength base cs :
  NewHint_arity ->
  forall decomposed b decomposed' b',
    decompose_requests baseLength base cs decomposed b = (Done decomposed', b') ->
    GoInt.len decomposed' = GoInt.len decomposed + code_totalLimbs baseLength cs.
Proof.
  intros Har. induction cs as [|rq cs IH]; intros decomposed b decomposed' b'; simpl.
  - intros [= <- <-]. lia.
  - destruct (NewHint _ _ b) as [[limbs|] b1] eqn:Hh; [|discriminate].
    destruct (compose_loop _ _ _ _ _) as [composed b2].
    intros Hd. apply IH in Hd. apply Har in Hh.
    unfold GoInt.len in *. rewrite length_app in Hd. lia.
Qed.

Lemma decompose_requests_succeeds baseLength base cs :
  NewHint_succeeds ->
  Forall (fun rq => 0 < decompSize (cv_bits rq) baseLength) cs ->
  forall decomposed b, exists decomposed' b',
    decompose_requests baseLength base cs decomposed b = (Done decomposed', b').
Proof.
  intros Hs. induction 1 as [|rq cs Hc Hcs IH]; intros decomposed b; simpl.
  - by eexists _, _.
  - destruct (Hs _ [constant (cv_bits rq); constant baseLength; cv_v rq] b Hc)
      as (limbs & b1 & ->).
    destruct (compose_loop _ _ _ _ _) as [composed b2]. apply IH.
Qed.

Lemma canonical_loop_length decomposed :
  forall members b members' err b',
    canonical_loop decomposed members b = (members', err, b') ->
    match err with
    | None => length members' = (length members + length decomposed)%nat
    | Some _ => (length members' < length members + length decomposed)%nat
    end.
Proof.
  induction decomposed as [|v decomposed IH]; intros members b members' err b'; simpl.
  - intros [= <- <- <-]. lia.
  - destruct (ToCanonicalVariable v b) as [[l|] b1].
    + intros Hc. apply IH in Hc. rewrite length_app in Hc. simpl in Hc.
      destruct err; lia.
    + intros [= <- <- <-]. lia.
Qed.

Lemma canonical_loop_linear decomposed :
  canonical_is_linear ->
  forall members b, exists members' b',
    canonical_loop decomposed members b = (members', None, b').
Proof.
  intros Hl. induction decomposed as [|v decomposed IH]; intros members b; simpl.
  - by eexists _, _.
  - destruct (Hl v b) as (l & b1 & ->). apply IH.
Qed.

(** A run of the hook on an open collector with requests that returns
    (no panic): the table size is [1 << baseLength]; with no error there
    is a member per limb, with the error there are fewer. *)
Lemma handle_open_done c b err c' b' :
  NewHint_arity ->
  closed c = false -> collected c <> [] ->
  handleVarunaRangeCheck c b = (Done err, c', b') ->
  let baseLength := getOptimalBasewidth (collected c) in
  NbTable (lookups c') = GoInt.shl1 baseLength /\
  match err with
  | None => GoInt.len (A (lookups c')) = code_totalLimbs baseLength (collected c)
  | Some _ => GoInt.len (A (lookups c')) < code_totalLimbs baseLength (collected c)
  end.
Proof.
  intros Har Hc Hne. unfold handleVarunaRangeCheck. rewrite Hc.
  destruct (Z.eqb_spec (GoInt.len (collected c)) 0) as [Hz|_].
  { destruct (collected c); [done|]. unfold GoInt.len in Hz. simpl in Hz. lia. }
  destruct (getOptimalBasewidth (collected c) =? 0); [discriminate|].
  destruct (decompose_requests _ _ _ _ _) as [[decomposed|p] b1] eqn:Hd; [|discriminate].
  destruct (canonical_loop _ _ _) as [[members e] b2] eqn:Hl.
  intros [= <- <- <-]. simpl. split; [done|].
  apply decompose_requests_length in Hd; [|done].
  apply canonical_loop_length in Hl. unfold GoInt.len in *. simpl in *.
  destruct e; lia.
Qed.

(** On a builder whose hints succeed and whose canonical variables are
    linear, the hook returns [nil] when every request needs a limb. *)
Lemma handle_open_succeeds c b :
  NewHint_succeeds -> canonical_is_linear ->
  closed c = false ->
  getOptimalBasewidth (collected c) <> 0 ->
  Forall (fun r => 0 < decompSize (cv_bits r) (getOptimalBasewidth (collected c)))
         (collected c) ->
  exists c' b', handleVarunaRangeCheck c b = (Done None, c', b').
Proof.
  intros Hs Hl Hc Hw Hall. unfold handleVarunaRangeCheck. rewrite Hc.
  destruct (GoInt.len (collected c) =? 0); [by eexists _, _|].
  destruct (Z.eqb_spec (getOptimalBasewidth (collected c)) 0) as [?|_]; [done|].
  destruct (decompose_requests_succeeds _
              (Z.shiftl 1 (GoInt.to_uint (getOptimalBasewidth (collected c))))
              _ Hs Hall [] b) as (decomposed & b1 & ->).
  destruct (canonical_loop_linear decomposed Hl [] b1) as (members & b2 & ->).
  by eexists _, _.
Qed.

End CollectorFacts.

(** ** The small builder meets the contracts *)

Lemma Mini_newHint_arity linear : @NewHint_arity Mini.st Mini.var (Mini.mk_builder linear).
Proof.
  intros n inputs b limbs b'. simpl. unfold Mini.newHint.
  destruct (Z.leb_spec n 0) as [?|Hn]; [discriminate|].
  intros [= <- <-]. unfold GoInt.len. rewrite length_map, length_seqZ. lia.
Qed.

Lemma Mini_newHint_succeeds linear : @NewHint_succeeds Mini.st Mini.var (Mini.mk_builder linear).
Proof.
  intros n inputs b Hn. simpl. unfold Mini.newHint.
  destruct (Z.leb_spec n 0) as [?|_]; [lia|]. by eexists _, _.
Qed.

Lemma Mini_canonical_is_linear : @canonical_is_linear Mini.st Mini.var Mini.r1cs_builder.
Proof. intros v b. simpl. by eexists _, _. Qed.

(** ** Claims about the collector *)

Lemma triple_eta {X Y Z : Type} (x : X * Y * Z) : x = (fst (fst x), snd (fst x), snd x).
Proof. by destruct x as [[? ?] ?]. Qed.

(** C7.  Once the collector is closed, a run of the finalize hook returns
    [nil] and changes neither the collector (so the stored [Lookup] is the
    same by value) nor the builder, and [Check] panics with "checker
    already closed" instead of appending.  The collector is closed after
    any run of the hook, so a second run is such a no-op. *)
Theorem Finalize_idempotent {B V} `{Builder B V} (c : varunaChecker V) (b : B) :
  (closed c = true ->
     handleVarunaRangeCheck c b = (Done None, c, b) /\
     forall v bits, Check c v bits = Panic PanicAlreadyClosed) /\
  (forall r1 c1 b1,
     handleVarunaRangeCheck c b = (r1, c1, b1) ->
     handleVarunaRangeCheck c1 b1 = (Done None, c1, b1) /\
     lookups (snd (fst (handleVarunaRangeCheck c1 b1))) = lookups c1 /\
     forall v bits, Check c1 v bits = Panic PanicAlreadyClosed).
Proof.
  split.
  - intros Hc. split; [by apply handle_closed|]. intros v bits. by apply Check_closed.
  - intros r1 c1 b1 Hh. apply handle_closes in Hh as [Hc _].
    rewrite (handle_closed c1 b1 Hc). repeat split.
    intros v bits. by apply Check_closed.
Qed.

(** An instance: the scenario, finalized once, on the small R1CS builder. *)
Lemma Finalize_idempotent_witness :
  let s := @handleVarunaRangeCheck _ _ Mini.r1cs_builder
             (MkChecker Mini.scenario false (MkLookup 0 [])) (Mini.fresh 3) in
  @handleVarunaRangeCheck _ _ Mini.r1cs_builder (snd (fst s)) (snd s)
    = (Done None, snd (fst s), snd s) /\
  lookups (snd (fst (@handleVarunaRangeCheck _ _ Mini.r1cs_builder (snd (fst s)) (snd s))))
    = lookups (snd (fst s)) /\
  forall v bits, Check (snd (fst s)) v bits = Panic PanicAlreadyClosed.
Proof.
  intros s.
  apply (proj2 (@Finalize_idempotent _ _ Mini.r1cs_builder
                  (MkChecker Mini.scenario false (MkLookup 0 [])) (Mini.fresh 3))
               (fst (fst s)) (snd (fst s)) (snd s)).
  apply triple_eta.
Defined.

(** C8.  On an open collector that started as [&varunaChecker{}] and has
    no request, the finalize hook returns [nil] without a panic, closes
    the collector, leaves the [Lookup] with table size 0 and no member,
    and leaves the builder as it was: no constraint is emitted. *)
Theorem Finalize_empty {B V} `{Builder B V} (b0 : B) (c : varunaChecker V) (b : B) :
  reachable b0 (c, b) ->
  closed c = false ->
  collected c = [] ->
  exists c',
    handleVarunaRangeCheck c b = (Done None, c', b) /\
    closed c' = true /\
    collected c' = [] /\
    lookups c' = MkLookup 0 [] /\
    NbTable (lookups c') = 0 /\
    A (lookups c') = [].
Proof.
  intros Hr Hc He. exists (set_closed c).
  rewrite (handle_empty c b Hc He).
  pose proof (reachable_open_lookups b0 (c, b) Hr Hc) as Hl. simpl in Hl.
  unfold set_closed. simpl. rewrite Hl, He. done.
Qed.

(** An instance: a collector just created, on a builder that moved on. *)
Lemma Finalize_empty_witness :
  exists c',
    @handleVarunaRangeCheck _ _ Mini.r1cs_builder new_varunaChecker (Mini.fresh 5)
      = (Done None, c', Mini.fresh 5) /\
    closed c' = true /\
    collected c' = [] /\
    lookups c' = MkLookup 0 [] /\
    NbTable (lookups c') = 0 /\
    A (lookups c') = [].
Proof.
  apply (@Finalize_empty _ _ Mini.r1cs_builder (Mini.fresh 3) new_varunaChecker (Mini.fresh 5)).
  - apply reach_builder with (b := Mini.fresh 3). apply reach_new.
  - reflexivity.
  - reflexivity.
Defined.

(** C1, as the code has it.  For three requests of 8, 8 and 16 bits the
    cost [2^w + 2*ceil(8/w) + ceil(16/w) + 3 + 1] is 24 at width 2, 24 at
    width 3, 28 at width 4 and 264 at width 8; the scan of widths 2..17
    selects width 2, the first of the two cheapest; and on a builder whose
    hints return the limbs asked for and whose canonical variables are
    linear expressions, finalization returns [nil] and leaves a [Lookup]
    with [2 * 4 + 8 = 16] members and table size [2^2 = 4]. *)
Theorem scenario_8_8_16 {B V} `{Builder B V} (v1 v2 v3 : V) (b : B) :
  NewHint_arity -> NewHint_succeeds -> canonical_is_linear ->
  let requests := [CheckedVariable v1 8; CheckedVariable v2 8; CheckedVariable v3 16] in
  map (spec_cost requests) (seqZ 2 16) =
    [24; 24; 28; 44; 75; 139; 264; 520; 1032; 2056; 4104; 8200; 16392; 32776;
     65543; 131079] /\
  map (fun w => nbR1CSConstraints w requests) (seqZ 2 16) =
    map (spec_cost requests) (seqZ 2 16) /\
  getOptimalBasewidth requests = 2 /\
  exists c' b',
    handleVarunaRangeCheck (MkChecker requests false (MkLookup 0 [])) b
      = (Done None, c', b') /\
    closed c' = true /\
    NbTable (lookups c') = 4 /\
    length (A (lookups c')) = 16%nat.
Proof.
  intros Har Hsu Hli requests.
  assert (Hw : getOptimalBasewidth requests = 2) by (vm_compute; reflexivity).
  split; [vm_compute; reflexivity|]. split; [vm_compute; reflexivity|].
  split; [exact Hw|].
  set (c := MkChecker requests false (MkLookup 0 [])).
  destruct (handle_open_succeeds c b Hsu Hli eq_refl) as (c' & b' & Hh).
  { simpl. rewrite Hw. lia. }
  { simpl. rewrite Hw. repeat constructor. }
  exists c', b'. split; [exact Hh|].
  destruct (handle_closes c b _ _ _ Hh) as [Hcl _].
  destruct (handle_open_done c b None c' b' Har eq_refl ltac:(done) Hh) as [Ht Hm].
  change (collected c) with requests in Ht, Hm. rewrite Hw in Ht, Hm.
  split; [exact Hcl|]. split; [exact Ht|].
  change (code_totalLimbs 2 requests) with 16 in Hm. unfold GoInt.len in Hm. lia.
Qed.

(** An instance: the scenario on the small R1CS builder. *)
Lemma scenario_8_8_16_witness :
  map (spec_cost Mini.scenario) (seqZ 2 16) =
    [24; 24; 28; 44; 75; 139; 264; 520; 1032; 2056; 4104; 8200; 16392; 32776;
     65543; 131079] /\
  map (fun w => nbR1CSConstraints w Mini.scenario) (seqZ 2 16) =
    map (spec_cost Mini.scenario) (seqZ 2 16) /\
  getOptimalBasewidth Mini.scenario = 2 /\
  exists c' b',
    @handleVarunaRangeCheck _ _ Mini.r1cs_builder
      (MkChecker Mini.scenario false (MkLookup 0 [])) (Mini.fresh 3)
      = (Done None, c', b') /\
    closed c' = true /\
    NbTable (lookups c') = 4 /\
    length (A (lookups c')) = 16%nat.
Proof.
  apply (@scenario_8_8_16 _ _ Mini.r1cs_builder
           (Mini.Lin [(1, 1)]) (Mini.Lin [(1, 2)]) (Mini.Lin [(1, 3)]) (Mini.fresh 3)).
  - apply Mini_newHint_arity.
  - apply Mini_newHint_succeeds.
  - apply Mini_canonical_is_linear.
Defined.

(** C1 as stated fails: on the three requests the optimizer does not
    select width 4, and the [Lookup] that finalization leaves on the small
    R1CS builder has neither 8 members nor table size 16. *)
Lemma scenario_8_8_16_counterexample :
  getOptimalBasewidth Mini.scenario = 2 /\
  getOptimalBasewidth Mini.scenario <> 4 /\
  (let s := @handleVarunaRangeCheck _ _ Mini.r1cs_builder
              (MkChecker Mini.scenario false (MkLookup 0 [])) (Mini.fresh 3) in
   fst (fst s) = Done None /\
   length (A (lookups (snd (fst s)))) = 16%nat /\
   length (A (lookups (snd (fst s)))) <> 8%nat /\
   NbTable (lookups (snd (fst s))) = 4 /\
   NbTable (lookups (snd (fst s))) <> 16).
Proof.
  vm_compute. repeat split; discriminate.
Qed.

(** ** One build *)

Section BuildFacts.
Context {B V : Type} `{Builder B V}.
Implicit Types (w : build B V) (c : ptr).

Lemma FinalizeAt_heap c w cht r w' :
  heap w !! c = Some cht ->
  FinalizeAt c w = (r, w') ->
  exists cht' b',
    handleVarunaRangeCheck cht (api w) = (r, cht', b') /\
    w' = MkBuild (isStore w) (kv w) (deferred w) (<[c := cht']> (heap w)) b' /\
    heap w' !! c = Some cht'.
Proof.
  intros Hc. unfold FinalizeAt. rewrite Hc.
  destruct (handleVarunaRangeCheck cht (api w)) as [[r0 cht'] b'] eqn:Hh.
  intros [= <- <-]. exists cht', b'. repeat split. simpl.
  apply list_lookup_insert_eq. by eapply lookup_lt_Some.
Qed.

(** A second run of the hook changes nothing. *)
Lemma FinalizeAt_twice c w cht r w' :
  heap w !! c = Some cht ->
  FinalizeAt c w = (r, w') ->
  FinalizeAt c w' = (Done None, w').
Proof.
  intros Hc Hf.
  destruct (FinalizeAt_heap c w cht r w' Hc Hf) as (cht' & b' & Hh & -> & Hc').
  destruct (handle_closes cht (api w) r cht' b' Hh) as [Hcl _].
  unfold FinalizeAt. rewrite Hc'. cbn [api isStore kv deferred heap].
  rewrite (handle_closed cht' b' Hcl). f_equal. f_equal.
  apply list_insert_id. exact Hc'.
Qed.

Lemma GetLookupByBuilder_stored w c cht :
  isStore w = true ->
  kv w !! ctxCheckerKey = Some (StoredChecker c) ->
  heap w !! c = Some cht ->
  GetLookupByBuilder w =
  if closed cht then Done (lookups cht) else Panic PanicNotClosed.
Proof.
  intros Hs Hk Hc. unfold GetLookupByBuilder. rewrite Hs, Hk, Hc. simpl.
  by destruct (closed cht).
Qed.

Lemma NewVarunaRangechecker_stored c w :
  shares c w -> NewVarunaRangechecker w = Done (c, w).
Proof.
  intros (Hs & Hk & _ & _). unfold NewVarunaRangechecker. by rewrite Hs, Hk.
Qed.

Lemma act_shares c a w : shares c w -> shares c (act a w).
Proof.
  intros Hsh. pose proof Hsh as (Hs & Hk & Hd & Hl).
  destruct a as [|c' v bits|n x|n|b|c']; simpl.
  - by rewrite (NewVarunaRangechecker_stored c w Hsh).
  - unfold CheckAt. destruct (heap w !! c') as [cht|]; [|done].
    destruct (Check cht v bits) as [cht'|]; [|done].
    repeat split; simpl; try done. by rewrite length_insert.
  - repeat split; simpl; try done. by rewrite lookup_insert_ne.
  - repeat split; simpl; try done.
    unfold handle_hooks in *. rewrite omap_app, Hd. done.
  - done.
  - unfold FinalizeAt. destruct (heap w !! c') as [cht|]; [|done].
    destruct (handleVarunaRangeCheck cht (api w)) as [[r cht'] b'].
    repeat split; simpl; try done. by rewrite length_insert.
Qed.

Lemma acts_shares c l : forall w, shares c w -> shares c (acts l w).
Proof.
  unfold acts. induction l as [|a l IH]; intros w Hsh; simpl; [done|].
  apply IH. by apply act_shares.
Qed.

End BuildFacts.

(** ** Claims about one build *)

(** C10.  On a build whose compiler implements the key-value store and
    where no collector is stored yet, the first [NewVarunaRangechecker]
    creates a collector, stores it and registers its hook; after any
    further construction steps, every later call returns that same
    collector and leaves the build as it is, so the hook stays registered
    exactly once, and a [Check] through the pointer appends to that one
    collector. *)
Theorem NewVarunaRangechecker_single {B V} `{Builder B V} (w : build B V) :
  isStore w = true ->
  kv w !! ctxCheckerKey = None ->
  handle_hooks (deferred w) = [] ->
  exists c w1,
    NewVarunaRangechecker w = Done (c, w1) /\
    heap w1 !! c = Some new_varunaChecker /\
    deferred w1 = deferred w ++ [CallHandle c] /\
    forall l,
      NewVarunaRangechecker (acts l w1) = Done (c, acts l w1) /\
      handle_hooks (deferred (acts l w1)) = [c] /\
      (exists cht,
        heap (acts l w1) !! c = Some cht /\
        forall v bits,
          closed cht = false ->
          exists w3,
            CheckAt c v bits (acts l w1) = Done w3 /\
            heap w3 !! c =
              Some (MkChecker (collected cht ++ [CheckedVariable v bits]) false (lookups cht))) /\
      (forall r w3,
         FinalizeAt c (acts l w1) = (r, w3) -> FinalizeAt c w3 = (Done None, w3)).
Proof.
  intros Hs Hk Hd. unfold NewVarunaRangechecker at 1. rewrite Hs, Hk. cbn [negb].
  eexists _, _. split; [reflexivity|]. cbn [heap deferred].
  split; [by rewrite lookup_app_r, Nat.sub_diag by lia|].
  split; [done|]. intros l.
  match goal with |- context [acts l ?x] => set (w1 := x) end.
  assert (Hsh : shares (length (heap w)) w1).
  { unfold shares. subst w1. cbn [isStore kv deferred heap]. split; [done|].
    split; [by rewrite lookup_insert_eq|]. split.
    - unfold handle_hooks in *. by rewrite omap_app, Hd.
    - rewrite length_app. simpl. lia. }
  apply (acts_shares _ l) in Hsh. pose proof Hsh as (Hs2 & Hk2 & Hd2 & Hl2).
  split; [by apply NewVarunaRangechecker_stored|]. split; [done|].
  destruct (lookup_lt_is_Some_2 _ _ Hl2) as [cht Hcht].
  split.
  - exists cht. split; [done|]. intros v bits Hc.
    unfold CheckAt. rewrite Hcht, (Check_open cht v bits Hc).
    eexists. split; [reflexivity|]. cbn [heap]. by apply list_lookup_insert_eq.
  - intros r w3 Hf. by eapply FinalizeAt_twice.
Qed.

(** An instance: a fresh build over the small R1CS builder. *)
Lemma NewVarunaRangechecker_single_witness :
  exists c w1,
    @NewVarunaRangechecker Mini.st Mini.var (new_build (Mini.fresh 2)) = Done (c, w1) /\
    heap w1 !! c = Some new_varunaChecker /\
    deferred w1 = deferred (new_build (B := Mini.st) (V := Mini.var) (Mini.fresh 2))
                    ++ [CallHandle c] /\
    forall l,
      NewVarunaRangechecker (@acts _ _ Mini.r1cs_builder l w1)
        = Done (c, @acts _ _ Mini.r1cs_builder l w1) /\
      handle_hooks (deferred (@acts _ _ Mini.r1cs_builder l w1)) = [c] /\
      (exists cht,
        heap (@acts _ _ Mini.r1cs_builder l w1) !! c = Some cht /\
        forall v bits,
          closed cht = false ->
          exists w3,
            CheckAt c v bits (@acts _ _ Mini.r1cs_builder l w1) = Done w3 /\
            heap w3 !! c =
              Some (MkChecker (collected cht ++ [CheckedVariable v bits]) false (lookups cht))) /\
      (forall r w3,
         @FinalizeAt _ _ Mini.r1cs_builder c (@acts _ _ Mini.r1cs_builder l w1) = (r, w3) ->
         @FinalizeAt _ _ Mini.r1cs_builder c w3 = (Done None, w3)).
Proof.
  apply (@NewVarunaRangechecker_single _ _ Mini.r1cs_builder (new_build (Mini.fresh 2))).
  - reflexivity.
  - reflexivity.
  - reflexivity.
Defined.

(** C3, as the code has it.  With a collector stored in the build,
    [GetLookupByBuilder] panics with "checker is not closed" while the
    collector is open and returns its [Lookup] exactly when it is closed.
    Every run of the finalize hook closes the collector, whatever it
    returns, so [GetLookupByBuilder] succeeds from then on; when the hook,
    run on an open collector with requests, returned [nil], the [Lookup] is
    complete: its table size is [1 << baseLength] and it has one member
    per limb of every request. *)
Theorem GetLookup_only_closed {B V} `{Builder B V}
    (w : build B V) (c : ptr) (cht : varunaChecker V) :
  isStore w = true ->
  kv w !! ctxCheckerKey = Some (StoredChecker c) ->
  heap w !! c = Some cht ->
  (closed cht = false -> GetLookupByBuilder w = Panic PanicNotClosed) /\
  (forall l, GetLookupByBuilder w = Done l <-> closed cht = true /\ l = lookups cht) /\
  (forall r w',
     FinalizeAt c w = (r, w') ->
     exists cht',
       heap w' !! c = Some cht' /\
       closed cht' = true /\
       GetLookupByBuilder w' = Done (lookups cht') /\
       (NewHint_arity -> closed cht = false -> collected cht <> [] -> r = Done None ->
        NbTable (lookups cht') = GoInt.shl1 (getOptimalBasewidth (collected cht)) /\
        GoInt.len (A (lookups cht')) =
          code_totalLimbs (getOptimalBasewidth (collected cht)) (collected cht))).
Proof.
  intros Hs Hk Hc.
  rewrite (GetLookupByBuilder_stored w c cht Hs Hk Hc).
  split; [by intros ->|]. split.
  - intros l. destruct (closed cht); split.
    + by intros [= <-].
    + by intros [_ ->].
    + discriminate.
    + by intros [? _].
  - intros r w' Hf.
    destruct (FinalizeAt_heap c w cht r w' Hc Hf) as (cht' & b' & Hh & -> & Hc').
    destruct (handle_closes cht (api w) r cht' b' Hh) as [Hcl _].
    exists cht'. split; [done|]. split; [done|]. split.
    + erewrite GetLookupByBuilder_stored; [|exact Hs|exact Hk|exact Hc'].
      by rewrite Hcl.
    + intros Har Hop Hne ->.
      apply (handle_open_done cht (api w) None cht' b' Har Hop Hne Hh).
Qed.

(** An instance: the scenario collected on the small R1CS builder. *)
Lemma GetLookup_only_closed_witness :
  let w := @acts _ _ Mini.r1cs_builder
             [ActNew;
              ActCheck 0%nat (Mini.Lin [(1, 1)]) 8;
              ActCheck 0%nat (Mini.Lin [(1, 2)]) 8;
              ActCheck 0%nat (Mini.Lin [(1, 3)]) 16]
             (new_build (Mini.fresh 3)) in
  let cht := MkChecker Mini.scenario false (MkLookup 0 []) in
  (closed cht = false -> GetLookupByBuilder w = Panic PanicNotClosed) /\
  (forall l, GetLookupByBuilder w = Done l <-> closed cht = true /\ l = lookups cht) /\
  (forall r w',
     @FinalizeAt _ _ Mini.r1cs_builder 0%nat w = (r, w') ->
     exists cht',
       heap w' !! 0%nat = Some cht' /\
       closed cht' = true /\
       GetLookupByBuilder w' = Done (lookups cht') /\
       (@NewHint_arity _ _ Mini.r1cs_builder ->
        closed cht = false -> collected cht <> [] -> r = Done None ->
        NbTable (lookups cht') = GoInt.shl1 (getOptimalBasewidth (collected cht)) /\
        GoInt.len (A (lookups cht')) =
          code_totalLimbs (getOptimalBasewidth (collected cht)) (collected cht))).
Proof.
  intros w cht.
  apply (@GetLookup_only_closed _ _ Mini.r1cs_builder w 0%nat cht).
  - reflexivity.
  - reflexivity.
  - reflexivity.
Defined.

(** C3 as stated fails: on a builder whose canonical variables are not
    linear expressions, the hook run on one 8-bit request returns the
    unhandled-type error, the collector is closed all the same, and
    [GetLookupByBuilder] then returns a [Lookup] with table size 4 and no
    member, although the request was decomposed into 4 limbs. *)
Lemma GetLookup_partial_counterexample :
  let w := @acts _ _ Mini.scs_builder
             [ActNew; ActCheck 0%nat (Mini.Lin [(1, 1)]) 8]
             (new_build (Mini.fresh 1)) in
  let s := @FinalizeAt _ _ Mini.scs_builder 0%nat w in
  GetLookupByBuilder w = Panic PanicNotClosed /\
  fst s = Done (Some ErrUnhandledType) /\
  GetLookupByBuilder (snd s) = Done (MkLookup 4 []) /\
  code_totalLimbs (getOptimalBasewidth (bits_only [8])) (bits_only [8]) = 4.
Proof.
  vm_compute. repeat split.
Qed.

(** ** The export codec *)

Section WriteArtifactFacts.
Context {FS File : Type} `{OS FS File} `{Encoder}.

(** A failed creation leaves a nil file: the encoding error is returned
    if there is one, and otherwise the write on the nil file answers
    [os.ErrInvalid], which is returned.  The error of the creation is
    dropped, and the file system is as the failed creation left it. *)
Lemma serialize_create_fails {T : Type} (x : T) filePath fs ce fs1 :
  os_Create filePath fs = (inr ce, fs1) ->
  serialize (Done x) filePath fs =
    (Done (Some (match Marshal T x with
                 | inl me => OfMarshal me
                 | inr _ => OfIO ErrInvalid
                 end)), fs1).
Proof.
  intros Hc. unfold serialize, write_artifact. rewrite Hc.
  by destruct (Marshal T x) as [me|b].
Qed.

(** A failed write returns its own error; the file is not closed. *)
Lemma serialize_write_fails {T : Type} (x : T) b filePath fs file fs1 e fs2 :
  Marshal T x = inr b ->
  os_Create filePath fs = (inl file, fs1) ->
  file_Write file b fs1 = (Some e, fs2) ->
  serialize (Done x) filePath fs = (Done (Some (OfIO e)), fs2).
Proof.
  intros Hm Hc Hw. unfold serialize, write_artifact. rewrite Hm, Hc. simpl.
  by rewrite Hw.
Qed.

(** A successful write is followed by [Close], whose result is dropped. *)
Lemma serialize_writes {T : Type} (x : T) b filePath fs file fs1 fs2 :
  Marshal T x = inr b ->
  os_Create filePath fs = (inl file, fs1) ->
  file_Write file b fs1 = (None, fs2) ->
  serialize (Done x) filePath fs = (Done None, snd (file_Close file fs2)).
Proof.
  intros Hm Hc Hw. unfold serialize, write_artifact. rewrite Hm, Hc. simpl.
  by rewrite Hw.
Qed.

Lemma serialize_close_fails {T : Type} (x : T) b filePath fs file fs1 fs2 e fs3 :
  Marshal T x = inr b ->
  os_Create filePath fs = (inl file, fs1) ->
  file_Write file b fs1 = (None, fs2) ->
  file_Close file fs2 = (Some e, fs3) ->
  serialize (Done x) filePath fs = (Done None, fs3).
Proof.
  intros Hm Hc Hw Hcl. rewrite (serialize_writes x b filePath fs file fs1 fs2) by done.
  by rewrite Hcl.
Qed.

End WriteArtifactFacts.

Section ExportOutcome.
Context {FS File : Type} `{OS FS File} `{Encoder}.

Lemma write_artifact_nil filePath got fs fs' :
  write_artifact filePath got fs = (None, fs') <->
  exists b, got = inr b /\ written filePath b fs fs'.
Proof.
  unfold write_artifact, written.
  destruct (os_Create filePath fs) as [[file|e] fs1] eqn:Hc; simpl.
  - destruct got as [me|b]; simpl.
    + split; [discriminate|]. by intros (b & ? & _).
    + destruct (file_Write file b fs1) as [[e|] fs2] eqn:Hw; simpl.
      * split; [discriminate|].
        intros (b' & [= <-] & file' & fs1' & fs2' & [= <- <-] & Hw' & _). congruence.
      * split.
        -- intros [= <-]. exists b. split; [done|]. by exists file, fs1, fs2.
        -- intros (b' & [= <-] & file' & fs1' & fs2' & [= <- <-] & Hw' & ->).
           rewrite Hw in Hw'. by injection Hw' as <-.
  - destruct got as [me|b]; simpl.
    + split; [discriminate|]. by intros (b & ? & _).
    + split; [discriminate|]. by intros (b' & _ & file' & fs1' & fs2' & ? & _).
Qed.

(** A serializer returns [nil] exactly when its value was built, encoded
    and written to a created file. *)
Lemma serialize_nil {T : Type} (raw : result T) filePath fs fs' :
  serialize raw filePath fs = (Done None, fs') <->
  exists x b, raw = Done x /\ Marshal T x = inr b /\ written filePath b fs fs'.
Proof.
  unfold serialize. destruct raw as [x|p].
  - destruct (write_artifact filePath (Marshal T x) fs) as [err fs0] eqn:Hw. split.
    + intros [= -> <-]. apply write_artifact_nil in Hw as (b & Hm & Hwr).
      by exists x, b.
    + intros (x' & b & [= <-] & Hm & Hwr).
      assert (write_artifact filePath (Marshal T x) fs = (None, fs')) as Hn.
      { apply write_artifact_nil. by exists b. }
      congruence.
  - split; [discriminate|]. by intros (x & b & ? & _).
Qed.

(** A failed encoding is returned as it is, and the file system is as
    [os.Create] left it: the file was created (or truncated) before the
    encoding, and is neither written nor closed. *)
Lemma serialize_encoding_fails {T : Type} (x : T) e filePath fs :
  Marshal T x = inl e ->
  serialize (Done x) filePath fs = (Done (Some (OfMarshal e)), snd (os_Create filePath fs)).
Proof.
  intros Hm. unfold serialize, write_artifact. rewrite Hm.
  by destruct (os_Create filePath fs) as [[file|e'] fs1].
Qed.


End ExportOutcome.

(** C4, as the code has it.  In each of the three serializers, once the
    value to encode is built: when the creation of the file fails the call
    returns the encoding error if there is one and otherwise the
    [os.ErrInvalid] of the write on the nil file (the error of the
    creation itself is dropped); when the file is created and the write of
    the encoded bytes fails, the call returns the error of that write, and
    the file is left as the failed write left it, not closed; and when
    only closing fails, the call returns [nil]: the result of [Close] is
    dropped. *)
Theorem export_io_failure_surfaces `{FieldLib} `{Encoder} {FS File : Type} `{OS FS File}
    (filePath : string) (fs : FS) :
  (forall ce fs1,
     os_Create filePath fs = (inr ce, fs1) ->
     (forall r1cs raw,
        ExportUtils.r1csRaw r1cs = Done raw ->
        ExportUtils.SerializeR1CS r1cs filePath fs =
          (Done (Some (match Marshal _ raw with
                       | inl me => OfMarshal me
                       | inr _ => OfIO ErrInvalid
                       end)), fs1)) /\
     (forall solution raw,
        ExportUtils.assignmentRaw solution = Done raw ->
        ExportUtils.SerializeAssignment solution filePath fs =
          (Done (Some (match Marshal _ raw with
                       | inl me => OfMarshal me
                       | inr _ => OfIO ErrInvalid
                       end)), fs1)) /\
     (forall lookup r1cs raw,
        ExportUtils.lookupRaw lookup r1cs = Done raw ->
        ExportUtils.SerializeLookup lookup r1cs filePath fs =
          (Done (Some (match Marshal _ raw with
                       | inl me => OfMarshal me
                       | inr _ => OfIO ErrInvalid
                       end)), fs1))) /\
  (forall b file fs1 e fs2,
     os_Create filePath fs = (inl file, fs1) ->
     file_Write file b fs1 = (Some e, fs2) ->
     (forall r1cs raw,
        ExportUtils.r1csRaw r1cs = Done raw -> Marshal _ raw = inr b ->
        ExportUtils.SerializeR1CS r1cs filePath fs = (Done (Some (OfIO e)), fs2)) /\
     (forall solution raw,
        ExportUtils.assignmentRaw solution = Done raw -> Marshal _ raw = inr b ->
        ExportUtils.SerializeAssignment solution filePath fs = (Done (Some (OfIO e)), fs2)) /\
     (forall lookup r1cs raw,
        ExportUtils.lookupRaw lookup r1cs = Done raw -> Marshal _ raw = inr b ->
        ExportUtils.SerializeLookup lookup r1cs filePath fs = (Done (Some (OfIO e)), fs2))) /\
  (forall b file fs1 fs2 e fs3,
     os_Create filePath fs = (inl file, fs1) ->
     file_Write file b fs1 = (None, fs2) ->
     file_Close file fs2 = (Some e, fs3) ->
     (forall r1cs raw,
        ExportUtils.r1csRaw r1cs = Done raw -> Marshal _ raw = inr b ->
        ExportUtils.SerializeR1CS r1cs filePath fs = (Done None, fs3)) /\
     (forall solution raw,
        ExportUtils.assignmentRaw solution = Done raw -> Marshal _ raw = inr b ->
        ExportUtils.SerializeAssignment solution filePath fs = (Done None, fs3)) /\
     (forall lookup r1cs raw,
        ExportUtils.lookupRaw lookup r1cs = Done raw -> Marshal _ raw = inr b ->
        ExportUtils.SerializeLookup lookup r1cs filePath fs = (Done None, fs3))).
Proof.
  split; [|split].
  - intros ce fs1 Hc. repeat split.
    + intros r1cs raw Hr. unfold ExportUtils.SerializeR1CS. rewrite Hr.
      by apply (serialize_create_fails raw filePath fs ce).
    + intros solution raw Hr. unfold ExportUtils.SerializeAssignment. rewrite Hr.
      by apply (serialize_create_fails raw filePath fs ce).
    + intros lookup r1cs raw Hr. unfold ExportUtils.SerializeLookup. rewrite Hr.
      by apply (serialize_create_fails raw filePath fs ce).
  - intros b file fs1 e fs2 Hc Hw. repeat split.
    + intros r1cs raw Hr Hm. unfold ExportUtils.SerializeR1CS. rewrite Hr.
      by apply (serialize_write_fails raw b filePath fs file fs1).
    + intros solution raw Hr Hm. unfold ExportUtils.SerializeAssignment. rewrite Hr.
      by apply (serialize_write_fails raw b filePath fs file fs1).
    + intros lookup r1cs raw Hr Hm. unfold ExportUtils.SerializeLookup. rewrite Hr.
      by apply (serialize_write_fails raw b filePath fs file fs1).
  - intros b file fs1 fs2 e fs3 Hc Hw Hcl. repeat split.
    + intros r1cs raw Hr Hm. unfold ExportUtils.SerializeR1CS. rewrite Hr.
      by apply (serialize_close_fails raw b filePath fs file fs1 fs2 e).
    + intros solution raw Hr Hm. unfold ExportUtils.SerializeAssignment. rewrite Hr.
      by apply (serialize_close_fails raw b filePath fs file fs1 fs2 e).
    + intros lookup r1cs raw Hr Hm. unfold ExportUtils.SerializeLookup. rewrite Hr.
      by apply (serialize_close_fails raw b filePath fs file fs1 fs2 e).
Qed.

(** An instance on the file system in memory: a witness export to a
    path that cannot be created answers [os.ErrInvalid], not the error 13
    of the creation; a lookup export to a full disk answers the error 28
    of the write and leaves the created file empty. *)
Lemma export_io_failure_surfaces_witness :
  let ro := MemFS.MkFS ∅ ["/ro/witness"%string] 16 None in
  let full := MemFS.MkFS ∅ [] 0 None in
  @ExportUtils.SerializeAssignment Fr.lib MemFS.encoder _ _ MemFS.os
     (MkSolution [Fr.of_int 1; Fr.of_int 7]) "/ro/witness"%string ro
    = (Done (Some (OfIO ErrInvalid)), ro) /\
  @ExportUtils.SerializeLookup Fr.lib MemFS.encoder _ _ MemFS.os
     (MkLookup 4 [[MkTerm 0 5]]) (MkR1CS [] (fun _ => Fr.of_int 1 ++ [0; 0]) 0 1)
     "/tmp/lookup"%string full
    = (Done (Some (OfIO (ErrOther 28))),
       MemFS.MkFS {[ "/tmp/lookup"%string := [] ]} [] 0 None).
Proof.
  intros ro full. split.
  - refine (proj1 (proj2 (proj1 (@export_io_failure_surfaces Fr.lib MemFS.encoder _ _ MemFS.os
                                   "/ro/witness"%string ro) (ErrOther 13) ro _))
              (MkSolution [Fr.of_int 1; Fr.of_int 7])
              (ExportUtils.MkAssignmentRaw [[7; 0; 0; 0]] 0 0) _);
      vm_compute; reflexivity.
  - refine (proj2 (proj2 (proj1 (proj2 (@export_io_failure_surfaces Fr.lib MemFS.encoder _ _
                                          MemFS.os "/tmp/lookup"%string full))
                            [Byte.x00] "/tmp/lookup"%string
                            (MemFS.MkFS {[ "/tmp/lookup"%string := [] ]} [] 0 None)
                            (ErrOther 28)
                            (MemFS.MkFS {[ "/tmp/lookup"%string := [] ]} [] 0 None)
                            _ _))
              (MkLookup 4 [[MkTerm 0 5]]) (MkR1CS [] (fun _ => Fr.of_int 1 ++ [0; 0]) 0 1)
              (ExportUtils.MkLookupRaw [(0, 0, 0); (1, 0, 0); (2, 0, 0); (3, 0, 0)]
                 [MkConstraintRaw {[ 5 := [1; 0; 0; 0] ]} ∅ ∅]) _ _);
      vm_compute; reflexivity.
Defined.

(** C4 as stated fails: an export whose file is created and written but
    whose [Close] reports an error returns [nil]; and a failed creation is
    answered with [os.ErrInvalid], not with the error of the creation. *)
Lemma export_close_error_counterexample :
  close_fails (H := MemFS.os) "witness.cbor"%string [Byte.x00]
    (MemFS.MkFS ∅ [] 1024 (Some (ErrOther 5))) /\
  fst (@ExportUtils.SerializeAssignment Fr.lib MemFS.encoder _ _ MemFS.os
         (MkSolution [Fr.of_int 1; Fr.of_int 7]) "witness.cbor"%string
         (MemFS.MkFS ∅ [] 1024 (Some (ErrOther 5)))) = Done None /\
  fst (MemFS.create "/ro/witness"%string (MemFS.MkFS ∅ ["/ro/witness"%string] 16 None))
    = inr (ErrOther 13) /\
  fst (@ExportUtils.SerializeAssignment Fr.lib MemFS.encoder _ _ MemFS.os
         (MkSolution [Fr.of_int 1; Fr.of_int 7]) "/ro/witness"%string
         (MemFS.MkFS ∅ ["/ro/witness"%string] 16 None)) = Done (Some (OfIO ErrInvalid)).
Proof.
  split; [by eexists _, _, _, _, _|]. repeat split.
Qed.

Section ExportFacts.
Context `{FieldLib}.

(** What a side holds after the loop over the terms: under a variable
    index, the element of the last term with that index. *)
Lemma fill_side_lookup (r1cs : R1CS) (lc : LinearExpression) :
  forall (side : gmap Z (list Z)) (vid : Z),
    ExportUtils.fill_side r1cs lc side !! vid =
    match last (filter (fun t => VID t = vid) lc) with
    | Some t => Some (Bits (take 4 (GetCoefficient r1cs (CID t))))
    | None => side !! vid
    end.
Proof.
  unfold ExportUtils.fill_side.
  induction lc as [|t lc IH]; intros side vid; [done|].
  cbn [fold_left]. rewrite IH. destruct (decide (VID t = vid)) as [He|Hne].
  - rewrite filter_cons_True by done. rewrite last_cons.
    destruct (last (filter _ lc)); [done|]. by rewrite He, lookup_insert_eq.
  - rewrite filter_cons_False by done.
    destruct (last (filter _ lc)); [done|]. by rewrite lookup_insert_ne.
Qed.

(** The layout of the lookup export for a table size that fits 32 bits. *)
Lemma lookupRaw_layout (lookup : Lookup) (r1cs : R1CS) :
  0 <= NbTable lookup <= 2 ^ 32 ->
  exists raw,
    ExportUtils.lookupRaw lookup r1cs = Done raw /\
    ExportUtils.Table raw = map (fun i => (i, 0, 0)) (seqZ 0 (NbTable lookup)) /\
    GoInt.len (ExportUtils.Table raw) = NbTable lookup /\
    length (ExportUtils.Constraints raw) = length (A lookup) /\
    forall i lc,
      A lookup !! i = Some lc ->
      exists row,
        ExportUtils.Constraints raw !! i = Some row /\
        rawB row = ∅ /\ rawC row = ∅ /\
        forall vid,
          rawA row !! vid =
          (fun t => Bits (take 4 (GetCoefficient r1cs (CID t))))
            <$> last (filter (fun t => VID t = vid) lc).
Proof.
  intros Ht. unfold ExportUtils.lookupRaw.
  rewrite (proj2 (makeslice_cap_in_range 12 (NbTable lookup)))
    by (change maxAlloc with 281474976710656; change (2 ^ 32) with 4294967296 in Ht; lia).
  eexists. split; [reflexivity|]. simpl. split; [|split; [|split]].
  - apply map_ext_in. intros i Hi. apply list_elem_of_In, elem_of_seqZ in Hi.
    unfold GoInt.to_uint32. rewrite Z.mod_small; [done|lia].
  - unfold GoInt.len. rewrite length_map, length_seqZ. lia.
  - by rewrite length_map.
  - intros i lc Hi. eexists. split.
    + rewrite list_lookup_fmap, Hi. reflexivity.
    + simpl. split; [done|]. split; [done|]. intros vid.
      rewrite fill_side_lookup. destruct (last _); [done|]. by rewrite lookup_empty.
Qed.

End ExportFacts.

(** ** The table size of a collector's [Lookup] *)

(** Whatever the cost function, the scan returns its initial 0 or a
    width of the range. *)
Lemma optimalWidth_range {V} (f : Z -> list (checkedVariable V) -> Z) cs :
  optimalWidth f cs = 0 \/ 2 <= optimalWidth f cs <= 17.
Proof.
  unfold optimalWidth.
  destruct (optimalWidth_scan_spec f cs (seqZ 2 16) GoInt.MaxInt64 0)
    as [[Hr _]|(l1 & l2 & Hjs & _)]; [by left|right].
  destruct (seqZ_split 2 16 l1 _ l2 Hjs) as (Hw & _). lia.
Qed.

Lemma handle_NbTable {B V} `{Builder B V} (c : varunaChecker V) (b : B) r c' b' :
  handleVarunaRangeCheck c b = (r, c', b') ->
  NbTable (lookups c') = NbTable (lookups c) \/
  exists w, 2 <= w <= 17 /\ NbTable (lookups c') = 2 ^ w.
Proof.
  unfold handleVarunaRangeCheck.
  destruct (closed c); [intros [= <- <- <-]; by left|].
  destruct (GoInt.len (collected c) =? 0); [intros [= <- <- <-]; by left|].
  destruct (Z.eqb_spec (getOptimalBasewidth (collected c)) 0) as [?|Hw];
    [intros [= <- <- <-]; by left|].
  destruct (decompose_requests _ _ _ _ _) as [[decomposed|p] b1];
    [|intros [= <- <- <-]; by left].
  destruct (canonical_loop _ _ _) as [[members err] b2].
  intros [= <- <- <-]. right. simpl.
  destruct (optimalWidth_range nbR1CSConstraints (collected c)) as [?|Hr]; [done|].
  exists (getOptimalBasewidth (collected c)). split; [done|].
  apply shl1_small. unfold getOptimalBasewidth. lia.
Qed.

(** The table size of a collector that started as [&varunaChecker{}] is
    0 or a power [2^w] with [w] in [2,17]. *)
Lemma reachable_NbTable {B V} `{Builder B V} (b0 : B) s :
  reachable b0 s -> 0 <= NbTable (lookups (fst s)) <= 2 ^ 17.
Proof.
  induction 1 as [|o [c b] Hs IH|c b b' Hs IH]; simpl in *; [lia| |done].
  destruct o as [v bits|]; simpl.
  - unfold Check. by destruct (closed c).
  - destruct (handleVarunaRangeCheck c b) as [[r c'] b'] eqn:Hh. simpl.
    destruct (handle_NbTable c b r c' b' Hh) as [->|(w & Hw & ->)]; [done|].
    split; [apply Z.pow_nonneg; lia|apply Z.pow_le_mono_r; lia].
Qed.

(** C9.  For the [Lookup] of a collector that started as
    [&varunaChecker{}], with table size [T] and members [M],
    [SerializeLookup] does not panic, and the value it encodes has exactly
    [T] table rows, the triples [(0,0,0)], [(1,0,0)], ..., [(T-1,0,0)] in
    this order, followed by one row per member of [M], in the order of
    [M]; in such a row [B] and [C] are empty and [A] maps a variable index
    to the normal form of the coefficient that the system's table gives
    for the (last) term of the member with that index.  The encoding of
    this value is what the export writes: when the file is created and
    takes the bytes, the call writes them to it, closes it and returns
    [nil]; and it returns [nil] in no other case. *)
Theorem SerializeLookup_layout {B V} `{Builder B V} `{FieldLib} `{Encoder}
    {FS File : Type} `{OS FS File}
    (b0 : B) (c : varunaChecker V) (b : B) (r1cs : R1CS) (filePath : string) (fs : FS) :
  reachable b0 (c, b) ->
  exists raw,
    ExportUtils.lookupRaw (lookups c) r1cs = Done raw /\
    (exists err fs',
       ExportUtils.SerializeLookup (lookups c) r1cs filePath fs = (Done err, fs')) /\
    (forall data file fs1 fs2,
       Marshal _ raw = inr data ->
       os_Create filePath fs = (inl file, fs1) ->
       file_Write file data fs1 = (None, fs2) ->
       ExportUtils.SerializeLookup (lookups c) r1cs filePath fs
         = (Done None, snd (file_Close file fs2))) /\
    (forall fs',
       ExportUtils.SerializeLookup (lookups c) r1cs filePath fs = (Done None, fs') ->
       exists data, Marshal _ raw = inr data /\ written filePath data fs fs') /\
    ExportUtils.Table raw = map (fun i => (i, 0, 0)) (seqZ 0 (NbTable (lookups c))) /\
    GoInt.len (ExportUtils.Table raw) = NbTable (lookups c) /\
    length (ExportUtils.Constraints raw) = length (A (lookups c)) /\
    forall i lc,
      A (lookups c) !! i = Some lc ->
      exists row,
        ExportUtils.Constraints raw !! i = Some row /\
        rawB row = ∅ /\ rawC row = ∅ /\
        forall vid,
          rawA row !! vid =
          (fun t => Bits (take 4 (GetCoefficient r1cs (CID t))))
            <$> last (filter (fun t => VID t = vid) lc).
Proof.
  intros Hr. pose proof (reachable_NbTable b0 (c, b) Hr) as Hb. simpl in Hb.
  destruct (lookupRaw_layout (lookups c) r1cs) as (raw & Hraw & Hrest).
  { split; [lia|]. apply Z.le_trans with (2 ^ 17); [lia|]. by apply Z.pow_le_mono_r. }
  exists raw. split; [done|].
  unfold ExportUtils.SerializeLookup. rewrite Hraw.
  split; [|split; [|split; [|done]]].
  - unfold serialize. destruct (write_artifact _ _ _) as [err fs']. by exists err, fs'.
  - intros data file fs1 fs2 Hm Hc Hw. by apply (serialize_writes raw data filePath fs file fs1).
  - intros fs' Hs. apply serialize_nil in Hs as (x & data & [= <-] & Hm & Hw).
    by exists data.
Qed.

Lemma reachable_run {B V} `{Builder B V} (b0 : B) (ops : list op) :
  forall s, reachable b0 s -> reachable b0 (fold_left (fun s o => run_op o s) ops s).
Proof.
  induction ops as [|o ops IH]; intros s Hs; simpl; [done|].
  apply IH. by apply reach_op.
Qed.

(** An instance: the scenario, finalized on the small R1CS builder, and
    exported against a coefficient table that holds the Montgomery form
    of each index, to an empty file system in memory: the call returns
    [nil] and the file holds the bytes of the encoder. *)
Lemma SerializeLookup_layout_witness :
  let s := fold_left (fun s o => @run_op _ _ Mini.r1cs_builder o s)
             [OpCheck (Mini.Lin [(1, 1)]) 8; OpCheck (Mini.Lin [(1, 2)]) 8;
              OpCheck (Mini.Lin [(1, 3)]) 16; OpFinalize]
             (new_varunaChecker, Mini.fresh 3) in
  let r1cs := MkR1CS [] (fun cid => Fr.of_int cid ++ [0; 0]) 0 4 in
  let fs := MemFS.MkFS ∅ [] 1024 None in
  (exists raw,
    @ExportUtils.lookupRaw Fr.lib (lookups (fst s)) r1cs = Done raw /\
    (exists err fs',
       @ExportUtils.SerializeLookup Fr.lib MemFS.encoder _ _ MemFS.os
         (lookups (fst s)) r1cs "lookup.cbor"%string fs = (Done err, fs')) /\
    (forall data file fs1 fs2,
       @Marshal MemFS.encoder _ raw = inr data ->
       @os_Create _ _ MemFS.os "lookup.cbor"%string fs = (inl file, fs1) ->
       @file_Write _ _ MemFS.os file data fs1 = (None, fs2) ->
       @ExportUtils.SerializeLookup Fr.lib MemFS.encoder _ _ MemFS.os
         (lookups (fst s)) r1cs "lookup.cbor"%string fs
         = (Done None, snd (@file_Close _ _ MemFS.os file fs2))) /\
    (forall fs',
       @ExportUtils.SerializeLookup Fr.lib MemFS.encoder _ _ MemFS.os
         (lookups (fst s)) r1cs "lookup.cbor"%string fs = (Done None, fs') ->
       exists data,
         @Marshal MemFS.encoder _ raw = inr data /\
         @written _ _ MemFS.os "lookup.cbor"%string data fs fs') /\
    ExportUtils.Table raw = map (fun i => (i, 0, 0)) (seqZ 0 (NbTable (lookups (fst s)))) /\
    GoInt.len (ExportUtils.Table raw) = NbTable (lookups (fst s)) /\
    length (ExportUtils.Constraints raw) = length (A (lookups (fst s))) /\
    forall i lc,
      A (lookups (fst s)) !! i = Some lc ->
      exists row,
        ExportUtils.Constraints raw !! i = Some row /\
        rawB row = ∅ /\ rawC row = ∅ /\
        forall vid,
          rawA row !! vid =
          (fun t => @Bits Fr.lib (take 4 (GetCoefficient r1cs (CID t))))
            <$> last (filter (fun t => VID t = vid) lc)) /\
  @ExportUtils.SerializeLookup Fr.lib MemFS.encoder _ _ MemFS.os
    (lookups (fst s)) r1cs "lookup.cbor"%string fs
    = (Done None, MemFS.MkFS {[ "lookup.cbor"%string := [Byte.x00] ]} [] 1024 None).
Proof.
  intros s r1cs fs. split.
  - apply (@SerializeLookup_layout _ _ Mini.r1cs_builder Fr.lib MemFS.encoder _ _ MemFS.os
             (Mini.fresh 3) (fst s) (snd s) r1cs "lookup.cbor"%string fs).
    rewrite <- surjective_pairing. apply reachable_run. apply reach_new.
  - vm_compute. reflexivity.
Defined.

(** C2, as the code has it.  [SerializeAssignment] of
    [export_utils.go] panics on an empty witness and otherwise exports the
    witness without its entry 0, so [len(W) - 1] elements, with the
    constant 0 in both size fields: it is not given the constraint system.
    The variant that is given the constraint system exports the count of
    public variables the system reports, and all [len(W)] entries of the
    witness, entry 0 included.  In both, the encoding of that value is
    what the export writes: when the file is created and takes the bytes,
    the call writes them to it, closes it and returns [nil]; and it
    returns [nil] in no other case. *)
Theorem SerializeAssignment_counts `{FieldLib} `{Encoder} {FS File : Type} `{OS FS File}
    (r1cs : R1CS) (solution : R1CSSolution) (filePath : string) (fs : FS) :
  (W solution = [] ->
     ExportUtils.assignmentRaw solution = Panic PanicSliceBounds /\
     ExportUtils.SerializeAssignment solution filePath fs = (Panic PanicSliceBounds, fs)) /\
  (W solution <> [] ->
     exists raw,
       ExportUtils.assignmentRaw solution = Done raw /\
       ExportUtils.Variables raw = map Bits (tail (W solution)) /\
       GoInt.len (ExportUtils.Variables raw) = GoInt.len (W solution) - 1 /\
       ExportUtils.PrimaryInputSize raw = 0 /\
       ExportUtils.AuxiliaryInputSize raw = 0 /\
       (forall data file fs1 fs2,
          Marshal _ raw = inr data ->
          os_Create filePath fs = (inl file, fs1) ->
          file_Write file data fs1 = (None, fs2) ->
          ExportUtils.SerializeAssignment solution filePath fs
            = (Done None, snd (file_Close file fs2))) /\
       (forall fs',
          ExportUtils.SerializeAssignment solution filePath fs = (Done None, fs') ->
          exists data, Marshal _ raw = inr data /\ written filePath data fs fs')) /\
  (exists raw,
     ExportCounted.assignmentRaw r1cs solution = Done raw /\
     ExportCounted.Variables raw = map Bits (W solution) /\
     GoInt.len (ExportCounted.Variables raw) = GoInt.len (W solution) /\
     ExportCounted.NumPublicInputs raw = GetNbPublicVariables r1cs mod 2 ^ 64 /\
     (forall data file fs1 fs2,
        Marshal _ raw = inr data ->
        os_Create filePath fs = (inl file, fs1) ->
        file_Write file data fs1 = (None, fs2) ->
        ExportCounted.SerializeAssignment r1cs solution filePath fs
          = (Done None, snd (file_Close file fs2))) /\
     (forall fs',
        ExportCounted.SerializeAssignment r1cs solution filePath fs = (Done None, fs') ->
        exists data, Marshal _ raw = inr data /\ written filePath data fs fs')).
Proof.
  unfold ExportUtils.SerializeAssignment, ExportCounted.SerializeAssignment.
  unfold ExportUtils.assignmentRaw, ExportCounted.assignmentRaw.
  split; [by intros ->|]. split.
  - intros Hne. destruct (W solution) as [|one rest]; [done|].
    exists (ExportUtils.MkAssignmentRaw (map Bits rest) 0 0).
    split; [done|]. split; [done|].
    split; [unfold GoInt.len; cbn [ExportUtils.Variables length]; rewrite length_map; lia|].
    split; [done|]. split; [done|]. split.
    + intros data file fs1 fs2 Hm Hc Hw.
      by apply (serialize_writes _ data filePath fs file fs1).
    + intros fs' Hs. apply serialize_nil in Hs as (x & data & [= <-] & Hm & Hw).
      by exists data.
  - exists (ExportCounted.MkAssignmentRaw (map Bits (W solution))
              (GoInt.to_uint (GetNbPublicVariables r1cs))).
    split; [done|]. split; [done|].
    split; [unfold GoInt.len; cbn [ExportCounted.Variables]; by rewrite length_map|].
    split; [done|]. split.
    + intros data file fs1 fs2 Hm Hc Hw.
      by apply (serialize_writes _ data filePath fs file fs1).
    + intros fs' Hs. apply serialize_nil in Hs as (x & data & [= <-] & Hm & Hw).
      by exists data.
Qed.

(** C2 as stated fails on a witness of two entries for a system with
    one public variable, exported to an empty file system in memory: what
    [export_utils.go] writes is the encoding of one element and the count
    0, what the variant writes is the encoding of the count 1 and of two
    elements. *)
Lemma SerializeAssignment_counts_counterexample :
  let solution := MkSolution [Fr.of_int 1; Fr.of_int 7] in
  let r1cs := MkR1CS [] (fun _ => []) 0 1 in
  let fs := MemFS.MkFS ∅ [] 1024 None in
  (exists raw data,
     @ExportUtils.assignmentRaw Fr.lib solution = Done raw /\
     @Marshal MemFS.encoder _ raw = inr data /\
     @ExportUtils.SerializeAssignment Fr.lib MemFS.encoder _ _ MemFS.os
        solution "witness.cbor"%string fs
       = (Done None, MemFS.MkFS {[ "witness.cbor"%string := data ]} [] 1024 None) /\
     ExportUtils.Variables raw = [[7; 0; 0; 0]] /\
     length (ExportUtils.Variables raw) = 1%nat /\
     ExportUtils.PrimaryInputSize raw = 0 /\
     ExportUtils.PrimaryInputSize raw <> GetNbPublicVariables r1cs) /\
  (exists raw data,
     @ExportCounted.assignmentRaw Fr.lib r1cs solution = Done raw /\
     @Marshal MemFS.encoder _ raw = inr data /\
     @ExportCounted.SerializeAssignment Fr.lib MemFS.encoder _ _ MemFS.os
        r1cs solution "witness.cbor"%string fs
       = (Done None, MemFS.MkFS {[ "witness.cbor"%string := data ]} [] 1024 None) /\
     ExportCounted.NumPublicInputs raw = 1 /\
     ExportCounted.Variables raw = [[1; 0; 0; 0]; [7; 0; 0; 0]] /\
     length (ExportCounted.Variables raw) = 2%nat /\
     length (ExportCounted.Variables raw) <> (2 - 1)%nat).
Proof.
  intros solution r1cs fs.
  split; eexists _, _; (split; [reflexivity|]); (split; [reflexivity|]);
    (split; [vm_compute; reflexivity|]); simpl; repeat split; discriminate.
Qed.

(** * Further properties of the collector, the optimizer and the hint *)

(** X1.  Whatever the cost function: when no width of 2..17 costs less
    than [math.MaxInt64] the scan returns its initial 0; otherwise it
    returns a width of 2..17 that no width of the range undercuts and that
    is strictly cheaper than every smaller width. *)
Theorem optimalWidth_any_cost {V} (countFn : Z -> list (checkedVariable V) -> Z)
    (collected : list (checkedVariable V)) :
  ((forall j, 2 <= j <= 17 -> GoInt.MaxInt64 <= countFn j collected) ->
     optimalWidth countFn collected = 0) /\
  ((exists j, 2 <= j <= 17 /\ countFn j collected < GoInt.MaxInt64) ->
     2 <= optimalWidth countFn collected <= 17 /\
     (forall j, 2 <= j <= 17 ->
        countFn (optimalWidth countFn collected) collected <= countFn j collected) /\
     (forall j, 2 <= j < optimalWidth countFn collected ->
        countFn (optimalWidth countFn collected) collected < countFn j collected)).
Proof.
  split.
  - intros Hall. unfold optimalWidth.
    destruct (optimalWidth_scan_spec countFn collected (seqZ 2 16) GoInt.MaxInt64 0)
      as [[Hr _]|(l1 & l2 & Hjs & Hlt & _)]; [done|].
    destruct (seqZ_split 2 16 l1 _ l2 Hjs) as (Hw & _).
    assert (Hw' : 2 <= optimalWidth_scan countFn collected (seqZ 2 16) GoInt.MaxInt64 0 <= 17)
      by lia.
    apply Hall in Hw'. lia.
  - intros Hex. by apply optimalWidth_spec.
Qed.

(** X2.  Away from overflow [decompSize(varSize, limbSize)] is the least
    number of limbs that cover the bits: it is 0 for 0 bits, and for a
    positive width [n] limbs cover it while [n - 1] limbs do not. *)
Theorem decompSize_covers (varSize limbSize : Z) :
  0 <= varSize <= 2 ^ 62 ->
  0 < limbSize <= 2 ^ 32 ->
  0 <= decompSize varSize limbSize /\
  varSize <= decompSize varSize limbSize * limbSize /\
  (decompSize varSize limbSize - 1) * limbSize < varSize + Z.b2z (varSize =? 0) * limbSize /\
  (varSize = 0 <-> decompSize varSize limbSize = 0).
Proof.
  intros Hv Hl. rewrite decompSize_ceil by lia.
  pose proof (ceil_div_bounds varSize limbSize ltac:(lia) ltac:(lia)) as Hb.
  pose proof (ceil_div_covers varSize limbSize ltac:(lia)) as Hc.
  rewrite ceil_div_spec in * by lia.
  pose proof (Z.div_mod (varSize + limbSize - 1) limbSize ltac:(lia)) as Hdm.
  pose proof (Z.mod_pos_bound (varSize + limbSize - 1) limbSize ltac:(lia)) as Hm.
  set (n := (varSize + limbSize - 1) / limbSize) in *.
  split; [lia|]. split; [lia|]. split; [|split].
  - destruct (Z.eqb_spec varSize 0); simpl; nia.
  - intros ->. unfold n. rewrite Z.div_small; lia.
  - intros Hn. nia.
Qed.

(** An instance: 253 bits in limbs of 16 bits need 16 limbs. *)
Lemma decompSize_covers_witness :
  0 <= decompSize 253 16 /\
  253 <= decompSize 253 16 * 16 /\
  (decompSize 253 16 - 1) * 16 < 253 + Z.b2z (253 =? 0) * 16 /\
  (253 = 0 <-> decompSize 253 16 = 0).
Proof.
  apply (decompSize_covers 253 16).
  - split; [lia|]. vm_compute. discriminate.
  - split; [lia|]. vm_compute. discriminate.
Defined.

(** X3.  The ways [DecomposeHint] refuses its arguments: any number of
    inputs other than 3 is an error; a first or second input outside
    [0, 2^64) is an error; a limb size of 0 is a division by zero; and
    with sizes in range an output slice of the wrong length is an error
    that names the number of limbs needed. *)
Theorem DecomposeHint_rejects (m : Z) (inputs outputs : list Z) :
  (length inputs <> 3%nat -> DecomposeHint m inputs outputs = HintErr ErrInputCount) /\
  (forall varSize limbSize val,
     inputs = [varSize; limbSize; val] ->
     (varSize < 0 \/ 2 ^ 64 <= varSize \/ limbSize < 0 \/ 2 ^ 64 <= limbSize) ->
     DecomposeHint m inputs outputs = HintErr ErrNotUint64) /\
  (forall varSize val,
     inputs = [varSize; 0; val] -> 0 <= varSize < 2 ^ 64 ->
     DecomposeHint m inputs outputs = HintPanicDivideByZero) /\
  (forall varSize limbSize val,
     inputs = [varSize; limbSize; val] ->
     0 <= varSize <= 2 ^ 62 -> 0 < limbSize <= 2 ^ 32 ->
     GoInt.len outputs <> ceil_div varSize limbSize ->
     DecomposeHint m inputs outputs = HintErr (ErrOutputCount (ceil_div varSize limbSize))).
Proof.
  assert (Hu : forall x, 0 <= x < 2 ^ 64 -> IsUint64 x = true).
  { intros x Hx. unfold IsUint64. apply andb_true_intro.
    split; [apply Z.leb_le|apply Z.ltb_lt]; lia. }
  assert (Hn : forall x, x < 0 \/ 2 ^ 64 <= x -> IsUint64 x = false).
  { intros x Hx. unfold IsUint64. apply andb_false_iff.
    destruct Hx; [left; apply Z.leb_gt|right; apply Z.ltb_ge]; lia. }
  assert (Hw : forall x, 0 <= x <= 2 ^ 62 -> GoInt.wrap64 x = x).
  { intros x Hx. apply wrap64_small.
    unfold GoInt.in_int, GoInt.MinInt64, GoInt.MaxInt64.
    change (2 ^ 63) with (2 * 2 ^ 62). lia. }
  assert (H62 : 2 ^ 62 < 2 ^ 64) by reflexivity.
  assert (H32 : 2 ^ 32 < 2 ^ 62) by reflexivity.
  split; [|split; [|split]].
  - intros Hlen. unfold DecomposeHint.
    destruct inputs as [|a [|b [|c [|d rest]]]]; simpl in *; done.
  - intros varSize limbSize val -> Hbad. unfold DecomposeHint.
    destruct (IsUint64 varSize) eqn:Ha; [|done].
    rewrite (Hn limbSize); [done|].
    destruct Hbad as [?|[?|[?|?]]]; try lia;
      exfalso; unfold IsUint64 in Ha; apply andb_prop in Ha as [H1 H2];
      apply Z.leb_le in H1; apply Z.ltb_lt in H2; lia.
  - intros varSize val -> Hv. unfold DecomposeHint.
    rewrite (Hu varSize Hv), (Hu 0) by lia. reflexivity.
  - intros varSize limbSize val -> Hv Hl Hlen. unfold DecomposeHint.
    rewrite (Hu varSize), (Hu limbSize) by lia. simpl negb. simpl orb. cbv iota.
    unfold Int64. rewrite !Hw by lia.
    destruct (Z.eqb_spec limbSize 0) as [?|_]; [lia|].
    rewrite decompSize_ceil by lia.
    destruct (Z.eqb_spec (GoInt.len outputs) (ceil_div varSize limbSize)); done.
Qed.

(** The hint on sizes in range, for any value. *)
Lemma DecomposeHint_truncates_lemma (m varSize limbSize val : Z) (outputs : list Z) :
  0 <= varSize <= 2 ^ 62 ->
  0 < limbSize <= 2 ^ 32 ->
  GoInt.len outputs = ceil_div varSize limbSize ->
  exists limbs,
    DecomposeHint m [varSize; limbSize; val] outputs = HintOk limbs /\
    length limbs = length outputs /\
    Forall (fun l => 0 <= l < 2 ^ limbSize) limbs /\
    recompose (2 ^ limbSize) limbs = val mod 2 ^ (limbSize * ceil_div varSize limbSize).
Proof.
  intros Hv Hl Hlen.
  assert (H62 : 2 ^ 62 < 2 ^ 64) by reflexivity.
  assert (H32 : 2 ^ 32 < 2 ^ 62) by reflexivity.
  assert (Hu : forall x, 0 <= x < 2 ^ 64 -> IsUint64 x = true).
  { intros x Hx. unfold IsUint64. apply andb_true_intro.
    split; [apply Z.leb_le|apply Z.ltb_lt]; lia. }
  assert (Hw : forall x, 0 <= x <= 2 ^ 62 -> GoInt.wrap64 x = x).
  { intros x Hx. apply wrap64_small.
    unfold GoInt.in_int, GoInt.MinInt64, GoInt.MaxInt64.
    change (2 ^ 63) with (2 * 2 ^ 62). lia. }
  exists (decompose_loop (2 ^ limbSize) limbSize outputs val).
  split; [|split; [|split]].
  - unfold DecomposeHint.
    rewrite (Hu varSize), (Hu limbSize) by lia. simpl negb. simpl orb. cbv iota.
    unfold Int64. rewrite !Hw by lia.
    destruct (Z.eqb_spec limbSize 0) as [?|_]; [lia|].
    rewrite decompSize_ceil by lia.
    rewrite Hlen, Z.eqb_refl. simpl negb. cbv iota.
    unfold GoInt.to_uint. rewrite (Z.mod_small limbSize) by lia.
    by rewrite Z.shiftl_1_l.
  - apply decompose_loop_length.
  - apply decompose_loop_limbs. lia.
  - unfold recompose. rewrite recompose_decompose_loop by lia.
    rewrite Z.pow_0_r, Z.mul_1_l, Hlen. f_equal.
    rewrite <- Z.pow_mul_r; [done|lia|].
    pose proof (ceil_div_bounds varSize limbSize ltac:(lia) ltac:(lia)). lia.
Qed.

(** X4.  With sizes in range and the right number of output slots,
    [DecomposeHint] succeeds on every value, of any size and sign: each
    limb is in [0, 2^limbSize), and the limbs recompose to the value
    reduced modulo [2^(limbSize * nbLimbs)].  An oversized value is
    truncated, not refused. *)
Theorem DecomposeHint_truncates (m varSize limbSize val : Z) (outputs : list Z) :
  0 <= varSize <= 2 ^ 62 ->
  0 < limbSize <= 2 ^ 32 ->
  GoInt.len outputs = ceil_div varSize limbSize ->
  exists limbs,
    DecomposeHint m [varSize; limbSize; val] outputs = HintOk limbs /\
    length limbs = length outputs /\
    Forall (fun l => 0 <= l < 2 ^ limbSize) limbs /\
    recompose (2 ^ limbSize) limbs = val mod 2 ^ (limbSize * ceil_div varSize limbSize).
Proof. apply DecomposeHint_truncates_lemma. Qed.

(** An instance: a value of 17 bits asked to fit 8 bits in limbs of 4
    loses its high bits. *)
Lemma DecomposeHint_truncates_witness :
  exists limbs,
    DecomposeHint 0 [8; 4; 74565] [0; 0] = HintOk limbs /\
    length limbs = length [0; 0] /\
    Forall (fun l => 0 <= l < 2 ^ 4) limbs /\
    recompose (2 ^ 4) limbs = 74565 mod 2 ^ (4 * ceil_div 8 4).
Proof.
  apply (DecomposeHint_truncates 0 8 4 74565 [0; 0]).
  - split; [lia|]. vm_compute. discriminate.
  - split; [lia|]. vm_compute. discriminate.
  - reflexivity.
Defined.






Section CollectorOrder.
Context {B V : Type} `{Builder B V}.
Implicit Types (c : varunaChecker V) (b : B).

Lemma checks_open requests : forall c b,
  closed c = false ->
  checks requests (c, b) = (MkChecker (collected c ++ requests) false (lookups c), b).
Proof.
  unfold checks. induction requests as [|r requests IH]; intros c b Hc; simpl.
  - rewrite app_nil_r. destruct c; simpl in *; by subst.
  - rewrite (Check_open c _ _ Hc). simpl. rewrite IH by done. simpl.
    destruct r. by rewrite <- List.app_assoc.
Qed.

Lemma checks_closed requests : forall c b,
  closed c = true -> checks requests (c, b) = (c, b).
Proof.
  unfold checks. induction requests as [|r requests IH]; intros c b Hc; simpl; [done|].
  rewrite (Check_closed c _ _ Hc). simpl. by apply IH.
Qed.

(** The limbs of the loop over the requests come in consecutive groups,
    one per request and in the order of the requests, each group being
    what [NewHint] returned for that request. *)
Lemma decompose_requests_groups baseLength base cs :
  forall decomposed b decomposed' b',
    decompose_requests baseLength base cs decomposed b = (Done decomposed', b') ->
    exists groups,
      decomposed' = decomposed ++ concat groups /\
      Forall2 (hinted baseLength) cs groups.
Proof.
  induction cs as [|rq cs IH]; intros decomposed b decomposed' b'; simpl.
  - intros [= <- <-]. exists []. simpl. by rewrite app_nil_r.
  - destruct (NewHint _ _ b) as [[limbs|] b1] eqn:Hh; [|discriminate].
    destruct (compose_loop _ _ _ _ _) as [composed b2].
    intros Hd. apply IH in Hd as (groups & -> & Hg).
    exists (limbs :: groups). split; [simpl; by rewrite <- List.app_assoc|].
    constructor; [|done]. by exists b, b1.
Qed.

Lemma canonical_loop_members decomposed :
  forall members b members' b',
    canonical_loop decomposed members b = (members', None, b') ->
    exists ls, members' = members ++ ls /\ Forall2 canonical_of decomposed ls.
Proof.
  induction decomposed as [|v decomposed IH]; intros members b members' b'; simpl.
  - intros [= <- <-]. exists []. by rewrite app_nil_r.
  - destruct (ToCanonicalVariable v b) as [[l|] b1] eqn:Hc; [|discriminate].
    intros Hl. apply IH in Hl as (ls & -> & Hf).
    exists (l :: ls). split; [by rewrite <- List.app_assoc|].
    constructor; [|done]. by exists b, b1.
Qed.

End CollectorOrder.

(** X6.  [Check] calls accumulate in call order: on an open collector a
    run of [Check] calls appends exactly the checked requests, in order,
    after those already collected, emits nothing on the builder and
    leaves the collector open with its [Lookup] untouched; on a closed
    collector the same calls change nothing. *)
Theorem Check_accumulates {B V} `{Builder B V}
    (requests : list (checkedVariable V)) (c : varunaChecker V) (b : B) :
  (closed c = false ->
     checks requests (c, b) = (MkChecker (collected c ++ requests) false (lookups c), b)) /\
  (closed c = true -> checks requests (c, b) = (c, b)).
Proof.
  split; [apply checks_open|apply checks_closed].
Qed.

(** X7.  The members of the [Lookup] follow the requests: after a run of
    the hook that returned [nil] on an open collector with requests, the
    members are, in order, the canonical forms of the limbs, and the limbs
    are the concatenation, in request order, of the groups that [NewHint]
    returned for each request. *)
Theorem Lookup_members_follow_requests {B V} `{Builder B V}
    (c : varunaChecker V) (b : B) (c' : varunaChecker V) (b' : B) :
  closed c = false ->
  collected c <> [] ->
  handleVarunaRangeCheck c b = (Done None, c', b') ->
  exists groups,
    Forall2 (hinted (getOptimalBasewidth (collected c))) (collected c) groups /\
    Forall2 canonical_of (concat groups) (A (lookups c')) /\
    collected c' = collected c.
Proof.
  intros Hc Hne Hh. pose proof (handle_closes c b _ _ _ Hh) as [_ Hcol].
  revert Hh. unfold handleVarunaRangeCheck. rewrite Hc.
  destruct (Z.eqb_spec (GoInt.len (collected c)) 0) as [Hz|_].
  { destruct (collected c); [done|]. unfold GoInt.len in Hz. simpl in Hz. lia. }
  destruct (getOptimalBasewidth (collected c) =? 0); [discriminate|].
  destruct (decompose_requests _ _ _ _ _) as [[decomposed|p] b1] eqn:Hd; [|discriminate].
  destruct (canonical_loop _ _ _) as [[members e] b2] eqn:Hl.
  intros [= -> <- <-].
  apply decompose_requests_groups in Hd as (groups & -> & Hg).
  apply canonical_loop_members in Hl as (ls & -> & Hf).
  exists groups. simpl in *. by repeat split.
Qed.

(** An instance: the scenario on the small R1CS builder. *)
Lemma Lookup_members_follow_requests_witness :
  let s := @handleVarunaRangeCheck _ _ Mini.r1cs_builder
             (MkChecker Mini.scenario false (MkLookup 0 [])) (Mini.fresh 3) in
  exists groups,
    Forall2 (@hinted _ _ Mini.r1cs_builder (getOptimalBasewidth Mini.scenario))
            Mini.scenario groups /\
    Forall2 (@canonical_of _ _ Mini.r1cs_builder) (concat groups)
            (A (lookups (snd (fst s)))) /\
    collected (snd (fst s)) = Mini.scenario.
Proof.
  intros s.
  apply (@Lookup_members_follow_requests _ _ Mini.r1cs_builder
           (MkChecker Mini.scenario false (MkLookup 0 [])) (Mini.fresh 3)
           (snd (fst s)) (snd s)).
  - reflexivity.
  - discriminate.
  - vm_compute. reflexivity.
Defined.

(** ** Invariants of the collector and of the build *)

Lemma handle_lookups {B V} `{Builder B V} (c : varunaChecker V) (b : B) r c' b' :
  handleVarunaRangeCheck c b = (r, c', b') ->
  lookups c' = lookups c \/
  exists w, 2 <= w <= 17 /\ NbTable (lookups c') = 2 ^ w.
Proof.
  unfold handleVarunaRangeCheck.
  destruct (closed c); [intros [= <- <- <-]; by left|].
  destruct (GoInt.len (collected c) =? 0); [intros [= <- <- <-]; by left|].
  destruct (Z.eqb_spec (getOptimalBasewidth (collected c)) 0) as [?|Hw];
    [intros [= <- <- <-]; by left|].
  destruct (decompose_requests _ _ _ _ _) as [[decomposed|p] b1];
    [|intros [= <- <- <-]; by left].
  destruct (canonical_loop _ _ _) as [[members err] b2].
  intros [= <- <- <-]. right. simpl.
  destruct (optimalWidth_range nbR1CSConstraints (collected c)) as [?|Hr]; [done|].
  exists (getOptimalBasewidth (collected c)). split; [done|].
  apply shl1_small. unfold getOptimalBasewidth. lia.
Qed.

(** X8.  The [Lookup] of a collector that started as [&varunaChecker{}]
    is always in one of two shapes: the zero value (table size 0 and no
    member), or a table size [2^w] with [w] in [2,17] on a collector that
    is closed.  So a [Lookup] with members always has a table, and an open
    collector never shows a table. *)
Theorem Lookup_shape_invariant {B V} `{Builder B V} (b0 : B) (s : varunaChecker V * B) :
  reachable b0 s ->
  lookups (fst s) = MkLookup 0 [] \/
  (closed (fst s) = true /\
   exists w, 2 <= w <= 17 /\ NbTable (lookups (fst s)) = 2 ^ w).
Proof.
  induction 1 as [|o [c b] Hs IH|c b b' Hs IH]; simpl in *; [by left| |done].
  destruct o as [v bits|]; simpl.
  - unfold Check. destruct (closed c) eqn:Hc; simpl; [by rewrite Hc|].
    destruct IH as [?|[? _]]; [by left|congruence].
  - destruct (handleVarunaRangeCheck c b) as [[r c'] b'] eqn:Hh. simpl.
    destruct (handle_closes c b r c' b' Hh) as [Hcl _].
    destruct (handle_lookups c b r c' b' Hh) as [->|Hw].
    + destruct IH as [?|[_ Hw]]; [by left|by right].
    + by right.
Qed.

(** An instance: the scenario, finalized on the small R1CS builder. *)
Lemma Lookup_shape_invariant_witness :
  let s := fold_left (fun s o => @run_op _ _ Mini.r1cs_builder o s)
             [OpCheck (Mini.Lin [(1, 1)]) 8; OpCheck (Mini.Lin [(1, 2)]) 8;
              OpCheck (Mini.Lin [(1, 3)]) 16; OpFinalize]
             (new_varunaChecker, Mini.fresh 3) in
  lookups (fst s) = MkLookup 0 [] \/
  (closed (fst s) = true /\
   exists w, 2 <= w <= 17 /\ NbTable (lookups (fst s)) = 2 ^ w).
Proof.
  intros s.
  apply (@Lookup_shape_invariant _ _ Mini.r1cs_builder (Mini.fresh 3) s).
  apply reachable_run. apply reach_new.
Defined.

Lemma decompose_requests_panic {B V} `{Builder B V} baseLength base
    (cs : list (checkedVariable V)) :
  forall decomposed (b : B) q b',
    decompose_requests baseLength base cs decomposed b = (Panic q, b') ->
    q = PanicDecompose.
Proof.
  induction cs as [|rq cs IH]; intros decomposed b q b'; simpl; [discriminate|].
  destruct (NewHint _ _ b) as [[limbs|] b2]; [|by intros [= <- _]].
  destruct (compose_loop _ _ _ _ _) as [composed b3]. apply IH.
Qed.

(** X9.  A run of the hook that panics does so on the hint call
    ("decompose") or on the division by a width of 0; the deferred
    assignment still closes the collector, and nothing else of it changes:
    the requests and the [Lookup] are as before. *)
Theorem Finalize_panic_leaves_Lookup {B V} `{Builder B V}
    (c : varunaChecker V) (b : B) (p : panicMsg) (c' : varunaChecker V) (b' : B) :
  handleVarunaRangeCheck c b = (Panic p, c', b') ->
  closed c = false /\
  collected c <> [] /\
  c' = MkChecker (collected c) true (lookups c) /\
  ((p = PanicDivideByZero /\ getOptimalBasewidth (collected c) = 0 /\ b' = b) \/
   (p = PanicDecompose /\ getOptimalBasewidth (collected c) <> 0)).
Proof.
  unfold handleVarunaRangeCheck.
  destruct (closed c); [discriminate|].
  destruct (Z.eqb_spec (GoInt.len (collected c)) 0) as [?|Hlen]; [discriminate|].
  assert (collected c <> []) as Hne by (intros He; rewrite He in Hlen; done).
  destruct (Z.eqb_spec (getOptimalBasewidth (collected c)) 0) as [Hw|Hw].
  { intros [= <- <- <-]. repeat split; try done. left. by repeat split. }
  destruct (decompose_requests _ _ _ _ _) as [[decomposed|q] b1] eqn:Hd.
  { destruct (canonical_loop _ _ _) as [[members err] b2]. discriminate. }
  intros [= <- <- <-]. repeat split; try done. right. split; [|done].
  by apply decompose_requests_panic in Hd.
Qed.

(** An instance: a request of 0 bits asks the small builder for a hint
    with no output, which it refuses. *)
Lemma Finalize_panic_leaves_Lookup_witness :
  let c := MkChecker [CheckedVariable (Mini.Lin [(1, 1)]) 0] false (MkLookup 0 []) in
  closed c = false /\
  collected c <> [] /\
  MkChecker (collected c) true (lookups c) = MkChecker (collected c) true (lookups c) /\
  ((PanicDecompose = PanicDivideByZero /\ getOptimalBasewidth (collected c) = 0 /\
    Mini.fresh 1 = Mini.fresh 1) \/
   (PanicDecompose = PanicDecompose /\ getOptimalBasewidth (collected c) <> 0)).
Proof.
  intros c.
  apply (@Finalize_panic_leaves_Lookup _ _ Mini.r1cs_builder c (Mini.fresh 1)
           PanicDecompose (MkChecker (collected c) true (lookups c)) (Mini.fresh 1)).
  vm_compute. reflexivity.
Defined.

Section BuildInvariants.
Context {B V : Type} `{Builder B V}.
Implicit Types (w : build B V) (c : ptr).

Lemma act_isStore a w : isStore (act a w) = isStore w.
Proof.
  destruct a as [|c v bits|n x|n|b|c]; simpl; try done.
  - unfold NewVarunaRangechecker. destruct (isStore w) eqn:Hs; simpl; [|done].
    destruct (kv w !! ctxCheckerKey) as [[p|]|]; simpl; done.
  - unfold CheckAt. destruct (heap w !! c); [|done].
    by destruct (Check _ v bits).
  - unfold FinalizeAt. destruct (heap w !! c); [|done].
    by destruct (handleVarunaRangeCheck _ _) as [[? ?] ?].
Qed.

Lemma act_not_new_slot a w :
  a <> ActNew -> kv (act a w) !! ctxCheckerKey = kv w !! ctxCheckerKey.
Proof.
  intros Hne. destruct a as [|c v bits|n x|n|b|c]; simpl; try done.
  - unfold CheckAt. destruct (heap w !! c); [|done].
    by destruct (Check _ v bits).
  - by rewrite lookup_insert_ne.
  - unfold FinalizeAt. destruct (heap w !! c); [|done].
    by destruct (handleVarunaRangeCheck _ _) as [[? ?] ?].
Qed.

Lemma act_own_frame a w :
  own_action a ->
  (forall n, kv (act a w) !! otherKey n = kv w !! otherKey n) /\
  other_hooks (deferred (act a w)) = other_hooks (deferred w) /\
  deferred w `prefix_of` deferred (act a w) /\
  (length (heap w) <= length (heap (act a w)))%nat.
Proof.
  destruct a as [|c v bits|n x|n|b|c]; simpl; try done; intros _.
  - unfold NewVarunaRangechecker. destruct (isStore w); simpl; [|done].
    destruct (kv w !! ctxCheckerKey) as [[p|]|]; simpl; try done.
    split; [intros n; by rewrite lookup_insert_ne|].
    split; [unfold other_hooks; rewrite omap_app; simpl; by rewrite app_nil_r|].
    split; [by apply prefix_app_r|]. rewrite length_app. lia.
  - unfold CheckAt. destruct (heap w !! c); [|done].
    destruct (Check _ v bits); simpl; [|done].
    repeat split; try done. by rewrite length_insert.
  - unfold FinalizeAt. destruct (heap w !! c); [|done].
    destruct (handleVarunaRangeCheck _ _) as [[? ?] ?]. simpl.
    repeat split; try done. by rewrite length_insert.
Qed.

(** A closed collector stored in the build stays as it is. *)
Lemma act_holds_closed c cht a w :
  holds_closed c cht w -> holds_closed c cht (act a w).
Proof.
  intros (Hs & Hk & Hc & Hcl). unfold holds_closed.
  destruct a as [|c' v bits|n x|n|b|c']; simpl.
  - unfold NewVarunaRangechecker. by rewrite Hs, Hk.
  - unfold CheckAt. destruct (heap w !! c') as [cht'|] eqn:Hc'; [|done].
    destruct (Check cht' v bits) as [cht''|] eqn:Hch; [|done].
    repeat split; simpl; try done.
    destruct (decide (c' = c)) as [->|Hne].
    + rewrite Hc in Hc'. injection Hc' as <-.
      by rewrite (Check_closed cht v bits Hcl) in Hch.
    + by rewrite list_lookup_insert_ne.
  - repeat split; simpl; try done. by rewrite lookup_insert_ne.
  - done.
  - done.
  - unfold FinalizeAt. destruct (heap w !! c') as [cht'|] eqn:Hc'; [|done].
    destruct (handleVarunaRangeCheck cht' (api w)) as [[r cht''] b'] eqn:Hh.
    repeat split; simpl; try done.
    destruct (decide (c' = c)) as [->|Hne].
    + rewrite Hc in Hc'. injection Hc' as <-.
      rewrite (handle_closed cht (api w) Hcl) in Hh. injection Hh as <- <- <-.
      apply list_lookup_insert_eq. by eapply lookup_lt_Some.
    + by rewrite list_lookup_insert_ne.
Qed.

End BuildInvariants.

(** X10.  Until [NewVarunaRangechecker] is called, whatever else happens
    in the build (calls through stale pointers, other gadgets' keys and
    callbacks, arithmetic, hooks), nothing is stored under the marker: on
    a compiler that implements the store [GetLookupByBuilder] panics with
    "rangechecker not found", and on one that does not, both
    [GetLookupByBuilder] and [NewVarunaRangechecker] panic with "builder
    should implement key-value store". *)
Theorem GetLookup_before_creation {B V} `{Builder B V} (w : build B V) (l : list action) :
  kv w !! ctxCheckerKey = None ->
  Forall (fun a => a <> ActNew) l ->
  kv (acts l w) !! ctxCheckerKey = None /\
  (isStore w = true -> GetLookupByBuilder (acts l w) = Panic PanicNotFound) /\
  (isStore w = false ->
     GetLookupByBuilder (acts l w) = Panic PanicNoStore /\
     NewVarunaRangechecker (acts l w) = Panic PanicNoStore).
Proof.
  intros Hk Hl.
  assert (Hinv : kv (acts l w) !! ctxCheckerKey = None /\ isStore (acts l w) = isStore w).
  { revert w Hk. unfold acts. induction Hl as [|a l Ha Hl IH]; intros w Hk; simpl; [done|].
    destruct (IH (act a w)) as [H1 H2]; [by rewrite act_not_new_slot|].
    split; [done|]. by rewrite H2, act_isStore. }
  destruct Hinv as [Hk' Hs']. split; [done|].
  unfold GetLookupByBuilder, NewVarunaRangechecker. rewrite Hs', Hk'.
  split; by intros ->.
Qed.

(** An instance: other gadgets at work on a fresh build. *)
Lemma GetLookup_before_creation_witness :
  let w := new_build (B := Mini.st) (V := Mini.var) (Mini.fresh 2) in
  let l := [ActSetKey 3 StoredOther; ActDefer 1; ActCheck 0%nat (Mini.Lin [(1, 1)]) 8;
            @ActFinalize Mini.st Mini.var 0%nat] in
  kv (@acts _ _ Mini.r1cs_builder l w) !! ctxCheckerKey = None /\
  (isStore w = true ->
     GetLookupByBuilder (@acts _ _ Mini.r1cs_builder l w) = Panic PanicNotFound) /\
  (isStore w = false ->
     GetLookupByBuilder (@acts _ _ Mini.r1cs_builder l w) = Panic PanicNoStore /\
     NewVarunaRangechecker (@acts _ _ Mini.r1cs_builder l w) = Panic PanicNoStore).
Proof.
  intros w l.
  apply (@GetLookup_before_creation _ _ Mini.r1cs_builder w l).
  - reflexivity.
  - repeat constructor; discriminate.
Defined.

(** X11.  The calls of this package ([NewVarunaRangechecker], [Check],
    the hook) never touch what belongs to other gadgets: the values under
    other keys of the store and the other registered callbacks are as
    before; the callbacks already registered keep their places; and no
    collector is dropped. *)
Theorem package_frame {B V} `{Builder B V} (w : build B V) (l : list action) :
  Forall own_action l ->
  (forall n, kv (acts l w) !! otherKey n = kv w !! otherKey n) /\
  other_hooks (deferred (acts l w)) = other_hooks (deferred w) /\
  deferred w `prefix_of` deferred (acts l w) /\
  (length (heap w) <= length (heap (acts l w)))%nat.
Proof.
  intros Hl. revert w. unfold acts.
  induction Hl as [|a l Ha Hl IH]; intros w; simpl; [done|].
  destruct (act_own_frame a w Ha) as (H1 & H2 & H3 & H4).
  destruct (IH (act a w)) as (I1 & I2 & I3 & I4).
  split; [intros n; by rewrite I1|]. split; [congruence|].
  split; [by etrans|lia].
Qed.

(** An instance: a collector created, fed and finalized beside another
    gadget's key and callback. *)
Lemma package_frame_witness :
  let w := @MkBuild Mini.st Mini.var true {[otherKey 3 := StoredOther]} [CallOther 1] []
             (Mini.fresh 2) in
  let l := [ActNew; ActCheck 0%nat (Mini.Lin [(1, 1)]) 8; ActNew;
            @ActFinalize Mini.st Mini.var 0%nat] in
  (forall n, kv (@acts _ _ Mini.r1cs_builder l w) !! otherKey n = kv w !! otherKey n) /\
  other_hooks (deferred (@acts _ _ Mini.r1cs_builder l w)) = other_hooks (deferred w) /\
  deferred w `prefix_of` deferred (@acts _ _ Mini.r1cs_builder l w) /\
  (length (heap w) <= length (heap (@acts _ _ Mini.r1cs_builder l w)))%nat.
Proof.
  intros w l.
  apply (@package_frame _ _ Mini.r1cs_builder w l).
  repeat constructor.
Defined.

(** X12.  The [Lookup] is immutable once the collector is closed:
    whatever happens next in the build (more [NewVarunaRangechecker],
    [Check] or hook calls, other gadgets, arithmetic), the stored
    collector stays exactly as it was and [GetLookupByBuilder] keeps
    returning the same [Lookup]. *)
Theorem Lookup_immutable_once_closed {B V} `{Builder B V}
    (w : build B V) (c : ptr) (cht : varunaChecker V) (l : list action) :
  isStore w = true ->
  kv w !! ctxCheckerKey = Some (StoredChecker c) ->
  heap w !! c = Some cht ->
  closed cht = true ->
  heap (acts l w) !! c = Some cht /\
  GetLookupByBuilder (acts l w) = Done (lookups cht).
Proof.
  intros Hs Hk Hc Hcl.
  assert (Hinv : holds_closed c cht (acts l w)).
  { assert (H0 : holds_closed c cht w) by done. clear Hs Hk Hc. revert w H0. unfold acts.
    induction l as [|a l IH]; intros w H0; simpl; [done|].
    apply IH. by apply act_holds_closed. }
  destruct Hinv as (Hs' & Hk' & Hc' & _). split; [done|].
  rewrite (GetLookupByBuilder_stored _ c cht Hs' Hk' Hc'). by rewrite Hcl.
Qed.

(** An instance: the scenario finalized on the small R1CS builder, and
    then used further. *)
Lemma Lookup_immutable_once_closed_witness :
  let w := @acts _ _ Mini.r1cs_builder
             [ActNew; ActCheck 0%nat (Mini.Lin [(1, 1)]) 8; ActFinalize 0%nat]
             (new_build (Mini.fresh 1)) in
  let l := [ActCheck 0%nat (Mini.Lin [(1, 1)]) 16; ActNew; ActSetKey 2 StoredOther;
            @ActFinalize Mini.st Mini.var 0%nat] in
  exists cht,
    heap w !! 0%nat = Some cht /\
    heap (@acts _ _ Mini.r1cs_builder l w) !! 0%nat = Some cht /\
    GetLookupByBuilder (@acts _ _ Mini.r1cs_builder l w) = Done (lookups cht).
Proof.
  intros w l.
  destruct (heap w !! 0%nat) as [cht|] eqn:Hc; [|vm_compute in Hc; discriminate].
  exists cht. split; [done|].
  apply (@Lookup_immutable_once_closed _ _ Mini.r1cs_builder w 0%nat cht l).
  - reflexivity.
  - reflexivity.
  - exact Hc.
  - vm_compute in Hc. injection Hc as <-. reflexivity.
Defined.

(** * Further properties of the export codec *)

(** X13.  Each of the three serializers returns [nil] exactly when the
    value to export was built without a panic, the encoder returned bytes,
    the file was created and those bytes were written without error; the
    file system is then the one left by closing the file. *)
Theorem export_nil_iff `{FieldLib} `{Encoder} {FS File : Type} `{OS FS File}
    (filePath : string) (fs fs' : FS) :
  (forall r1cs,
     ExportUtils.SerializeR1CS r1cs filePath fs = (Done None, fs') <->
     exists raw b,
       ExportUtils.r1csRaw r1cs = Done raw /\ Marshal _ raw = inr b /\
       written filePath b fs fs') /\
  (forall solution,
     ExportUtils.SerializeAssignment solution filePath fs = (Done None, fs') <->
     exists raw b,
       ExportUtils.assignmentRaw solution = Done raw /\ Marshal _ raw = inr b /\
       written filePath b fs fs') /\
  (forall lookup r1cs,
     ExportUtils.SerializeLookup lookup r1cs filePath fs = (Done None, fs') <->
     exists raw b,
       ExportUtils.lookupRaw lookup r1cs = Done raw /\ Marshal _ raw = inr b /\
       written filePath b fs fs').
Proof.
  repeat split; try (intros; by apply serialize_nil); try (intros; by apply serialize_nil).
Qed.

(** X14.  When the encoder fails, each serializer returns the encoder's
    error, and the file has already been created: the file system is the
    one [os.Create] left, with nothing written and the file not closed. *)
Theorem export_encoding_failure `{FieldLib} `{Encoder} {FS File : Type} `{OS FS File}
    (filePath : string) (fs : FS) (e : marshalError) :
  (forall r1cs raw,
     ExportUtils.r1csRaw r1cs = Done raw -> Marshal _ raw = inl e ->
     ExportUtils.SerializeR1CS r1cs filePath fs
       = (Done (Some (OfMarshal e)), snd (os_Create filePath fs))) /\
  (forall solution raw,
     ExportUtils.assignmentRaw solution = Done raw -> Marshal _ raw = inl e ->
     ExportUtils.SerializeAssignment solution filePath fs
       = (Done (Some (OfMarshal e)), snd (os_Create filePath fs))) /\
  (forall lookup r1cs raw,
     ExportUtils.lookupRaw lookup r1cs = Done raw -> Marshal _ raw = inl e ->
     ExportUtils.SerializeLookup lookup r1cs filePath fs
       = (Done (Some (OfMarshal e)), snd (os_Create filePath fs))).
Proof.
  repeat split.
  - intros r1cs raw Hr Hm. unfold ExportUtils.SerializeR1CS. rewrite Hr.
    by apply serialize_encoding_fails.
  - intros solution raw Hr Hm. unfold ExportUtils.SerializeAssignment. rewrite Hr.
    by apply serialize_encoding_fails.
  - intros lookup r1cs raw Hr Hm. unfold ExportUtils.SerializeLookup. rewrite Hr.
    by apply serialize_encoding_fails.
Qed.


Section RowFacts.
Context `{FieldLib}.

Lemma fill_side_checked_ok r1cs lc : forall side,
  in_field r1cs lc ->
  ExportUtils.fill_side_checked r1cs lc side = Done (ExportUtils.fill_side r1cs lc side).
Proof.
  unfold ExportUtils.fill_side.
  induction lc as [|t lc IH]; intros side Hf; simpl; [done|].
  inversion Hf as [|? ? Ht Hlc]; subst.
  destruct (Z.ltb_spec (BigInt (take 4 (GetCoefficient r1cs (CID t)))) Modulus); [|lia].
  by apply IH.
Qed.

Lemma fill_side_checked_done r1cs lc : forall side side',
  ExportUtils.fill_side_checked r1cs lc side = Done side' -> in_field r1cs lc.
Proof.
  induction lc as [|t lc IH]; intros side side'; simpl; [by constructor|].
  destruct (Z.ltb_spec (BigInt (take 4 (GetCoefficient r1cs (CID t)))) Modulus);
    [|discriminate].
  intros Hd. constructor; [done|]. by eapply IH.
Qed.

Lemma r1csRaw_loop_ok r1cs rows : forall acc,
  Forall (row_in_field r1cs) rows ->
  ExportUtils.r1csRaw_loop r1cs rows acc = Done (acc ++ map (row_of r1cs) rows).
Proof.
  induction rows as [|r1c rows IH]; intros acc Hf; simpl; [by rewrite app_nil_r|].
  inversion Hf as [|? ? (Hl & Hr & Ho) Hrows]; subst.
  rewrite !fill_side_checked_ok by done. rewrite IH by done.
  by rewrite <- List.app_assoc.
Qed.

Lemma r1csRaw_loop_done r1cs rows : forall acc raw,
  ExportUtils.r1csRaw_loop r1cs rows acc = Done raw -> Forall (row_in_field r1cs) rows.
Proof.
  induction rows as [|r1c rows IH]; intros acc raw; simpl; [by constructor|].
  destruct (ExportUtils.fill_side_checked r1cs (L r1c) ∅) as [a|] eqn:Ha; [|discriminate].
  destruct (ExportUtils.fill_side_checked r1cs (R r1c) ∅) as [b|] eqn:Hb; [|discriminate].
  destruct (ExportUtils.fill_side_checked r1cs (O r1c) ∅) as [c|] eqn:Hc; [|discriminate].
  intros Hd. constructor; [|by eapply IH].
  repeat split; by eapply fill_side_checked_done.
Qed.

Lemma fill_side_dom r1cs lc : forall side : gmap Z (list Z),
  dom (ExportUtils.fill_side r1cs lc side) = dom side ∪ list_to_set (VID <$> lc).
Proof.
  unfold ExportUtils.fill_side.
  induction lc as [|t lc IH]; intros side; simpl.
  - set_solver.
  - rewrite IH, dom_insert_L. set_solver.
Qed.

Lemma fill_side_size r1cs lc : forall side : gmap Z (list Z),
  (size (ExportUtils.fill_side r1cs lc side) <= size side + length lc)%nat.
Proof.
  unfold ExportUtils.fill_side.
  induction lc as [|t lc IH]; intros side; simpl; [lia|].
  etrans; [apply IH|].
  destruct (side !! VID t) eqn:Hl.
  - rewrite map_size_insert_Some by done. lia.
  - rewrite map_size_insert_None by done. lia.
Qed.

End RowFacts.

(** X16.  The constraint-system export checks what it writes: with a
    non-negative constraint count, the value [SerializeR1CS] encodes is
    built without a panic exactly when the coefficient of every term of
    every side of every constraint reads as an integer below the modulus,
    and it then has one row per constraint, in the order of the system,
    whose sides are filled from [L], [R] and [O]. *)
Theorem SerializeR1CS_rows `{FieldLib} (r1cs : R1CS) :
  0 <= GetNbConstraints r1cs ->
  (Forall (row_in_field r1cs) (GetR1Cs r1cs) ->
     ExportUtils.r1csRaw r1cs = Done (map (row_of r1cs) (GetR1Cs r1cs))) /\
  (forall raw,
     ExportUtils.r1csRaw r1cs = Done raw ->
     Forall (row_in_field r1cs) (GetR1Cs r1cs) /\
     raw = map (row_of r1cs) (GetR1Cs r1cs)) /\
  (~ Forall (row_in_field r1cs) (GetR1Cs r1cs) ->
     ExportUtils.r1csRaw r1cs = Panic PanicWft).
Proof.
  intros Hn. unfold ExportUtils.r1csRaw.
  destruct (Z.ltb_spec (GetNbConstraints r1cs) 0) as [?|_]; [lia|].
  split; [|split].
  - intros Hf. by rewrite r1csRaw_loop_ok.
  - intros raw Hd. pose proof (r1csRaw_loop_done _ _ _ _ Hd) as Hf.
    split; [done|]. rewrite r1csRaw_loop_ok in Hd by done. by injection Hd as <-.
  - intros Hnf.
    destruct (ExportUtils.r1csRaw_loop r1cs (GetR1Cs r1cs) []) as [raw|p] eqn:Hd.
    + exfalso. apply Hnf. by eapply r1csRaw_loop_done.
    + f_equal. clear Hnf. revert Hd. generalize (@nil ConstraintRaw) as acc.
      assert (Hside : forall lc side q,
                ExportUtils.fill_side_checked r1cs lc side = Panic q -> q = PanicWft).
      { induction lc as [|t lc IH]; intros side q; simpl; [discriminate|].
        destruct (_ <? _); [apply IH|by intros [= <-]]. }
      induction (GetR1Cs r1cs) as [|r1c rows IH]; intros acc; simpl; [discriminate|].
      destruct (ExportUtils.fill_side_checked r1cs (L r1c) ∅) as [a|q] eqn:Ha;
        [|intros [= <-]; by eapply Hside].
      destruct (ExportUtils.fill_side_checked r1cs (R r1c) ∅) as [b|q] eqn:Hb;
        [|intros [= <-]; by eapply Hside].
      destruct (ExportUtils.fill_side_checked r1cs (O r1c) ∅) as [c|q] eqn:Hc;
        [|intros [= <-]; by eapply Hside].
      apply IH.
Qed.

(** An instance: the system with the one constraint [x * x = y] over the
    scalar field of BLS12-377. *)
Lemma SerializeR1CS_rows_witness :
  let r1cs := MkR1CS [MkR1C [MkTerm 1 1] [MkTerm 1 1] [MkTerm 1 2]]
                     (fun cid => Fr.of_int cid ++ [0; 0]) 1 1 in
  (Forall (@row_in_field Fr.lib r1cs) (GetR1Cs r1cs) ->
     @ExportUtils.r1csRaw Fr.lib r1cs = Done (map (@row_of Fr.lib r1cs) (GetR1Cs r1cs))) /\
  (forall raw,
     @ExportUtils.r1csRaw Fr.lib r1cs = Done raw ->
     Forall (@row_in_field Fr.lib r1cs) (GetR1Cs r1cs) /\
     raw = map (@row_of Fr.lib r1cs) (GetR1Cs r1cs)) /\
  (~ Forall (@row_in_field Fr.lib r1cs) (GetR1Cs r1cs) ->
     @ExportUtils.r1csRaw Fr.lib r1cs = Panic PanicWft).
Proof.
  intros r1cs. apply (@SerializeR1CS_rows Fr.lib r1cs). simpl. lia.
Defined.

(** X17.  On every side of an exported row the keys are exactly the
    variable indices of the terms of the linear expression: a side has at
    most as many entries as the expression has terms, and as many when no
    index repeats. *)
Theorem exported_side_keys `{FieldLib} (r1cs : R1CS) (lc : list Term) :
  dom (ExportUtils.fill_side r1cs lc ∅) = list_to_set (VID <$> lc) /\
  (size (ExportUtils.fill_side r1cs lc ∅) <= length lc)%nat /\
  (NoDup (VID <$> lc) -> size (ExportUtils.fill_side r1cs lc ∅) = length lc).
Proof.
  split; [|split].
  - rewrite fill_side_dom. set_solver.
  - pose proof (fill_side_size r1cs lc ∅) as Hs. by rewrite map_size_empty in Hs.
  - intros Hnd. rewrite <- size_dom, fill_side_dom, dom_empty_L, (left_id_L ∅ (∪)).
    rewrite size_list_to_set by done. by rewrite length_fmap.
Qed.

(** * The JSON variant *)

Module JsonFacts.
Import ExportJson.

Lemma Z_of_byte_of_Z z : Z_of_byte (byte_of_Z z) = z mod 256.
Proof.
  unfold Z_of_byte, byte_of_Z.
  pose proof (Z.mod_pos_bound z 256 ltac:(lia)) as Hm.
  destruct (Byte.of_N (Z.to_N (z mod 256))) as [b|] eqn:Hb; simpl.
  - apply Byte.to_of_N in Hb. rewrite Hb. lia.
  - apply Byte.of_N_None_iff in Hb. lia.
Qed.

Lemma be_bytes_S k x :
  be_bytes (S k) x = byte_of_Z (Z.shiftr x (8 * Z.of_nat k)) :: be_bytes k x.
Proof.
  unfold be_bytes. rewrite Nat2Z.inj_succ, <- Z.add_1_r, seqZ_app by lia.
  rewrite Z.add_0_l.
  change (seqZ (Z.of_nat k) 1) with [0 + Z.of_nat k].
  rewrite rev_app_distr. simpl. by rewrite Z.add_0_l.
Qed.

Lemma fold_be_bytes k x : forall acc,
  fold_left (fun acc b => acc * 256 + Z_of_byte b) (be_bytes k x) acc =
  acc * 256 ^ Z.of_nat k + x mod 256 ^ Z.of_nat k.
Proof.
  induction k as [|k IH]; intros acc.
  - simpl. rewrite Z.mod_1_r. lia.
  - rewrite be_bytes_S. simpl fold_left. rewrite IH, Z_of_byte_of_Z.
    rewrite Z.shiftr_div_pow2 by lia.
    rewrite Nat2Z.inj_succ, Z.pow_succ_r by lia.
    assert (0 < 256 ^ Z.of_nat k) as Hp by (apply Z.pow_pos_nonneg; lia).
    replace (2 ^ (8 * Z.of_nat k)) with (256 ^ Z.of_nat k)
      by (change 256 with (2 ^ 8); rewrite <- Z.pow_mul_r; [done|lia|lia]).
    rewrite (Z.mul_comm 256 (256 ^ Z.of_nat k)).
    rewrite (Z.rem_mul_r x (256 ^ Z.of_nat k) 256) by lia. ring.
Qed.

Lemma fold_PutUint64 x acc :
  0 <= x < 2 ^ 64 ->
  fold_left (fun acc b => acc * 256 + Z_of_byte b) (PutUint64 x) acc = acc * 2 ^ 64 + x.
Proof.
  intros Hx. change (PutUint64 x) with (be_bytes 8 x).
  rewrite fold_be_bytes. change (256 ^ Z.of_nat 8) with (2 ^ 64).
  by rewrite Z.mod_small.
Qed.

Lemma SetBytes_buffer z :
  is_element z -> SetBytes (buffer z) = limbs_value z.
Proof.
  intros [Hlen Hall]. destruct z as [|l0 [|l1 [|l2 [|l3 [|? ?]]]]]; try done.
  inversion Hall as [|? ? H0 Hall1]; subst. inversion Hall1 as [|? ? H1 Hall2]; subst.
  inversion Hall2 as [|? ? H2 Hall3]; subst. inversion Hall3 as [|? ? H3 _]; subst.
  unfold SetBytes, buffer, limbs_value. cbn [nth].
  rewrite !fold_left_app, !fold_PutUint64 by done.
  change (2 ^ 128) with (2 ^ 64 * 2 ^ 64). change (2 ^ 192) with (2 ^ 64 * 2 ^ 64 * 2 ^ 64).
  ring.
Qed.

Lemma parse_decimal_Text10 v : parse_decimal (Text10 v) = Some v.
Proof.
  unfold parse_decimal, Text10. rewrite NilZero.isi.
  - simpl. by rewrite DecimalZ.of_to.
  - destruct v; simpl; try discriminate.
    intros [= Hp]. by apply Unsigned.to_uint_nonnil in Hp.
  - destruct v; simpl; try discriminate.
    intros [= Hp]. by apply Unsigned.to_uint_nonnil in Hp.
Qed.

Lemma append_inj_char (s s' : string) (a : Ascii.ascii) :
  String.append s (String a EmptyString) = String.append s' (String a EmptyString) ->
  s = s'.
Proof.
  revert s'. induction s as [|c s IH]; intros [|c' s']; simpl; try done.
  - intros [= _ Hs]. by destruct s'.
  - intros [= _ Hs]. by destruct s.
  - intros [= -> Hs]. f_equal. by apply IH.
Qed.

Lemma limbs_value_inj z z' :
  is_element z -> is_element z' -> limbs_value z = limbs_value z' -> z = z'.
Proof.
  intros [Hlen Hall] [Hlen' Hall'].
  destruct z as [|l0 [|l1 [|l2 [|l3 [|? ?]]]]]; try done.
  destruct z' as [|m0 [|m1 [|m2 [|m3 [|? ?]]]]]; try done.
  inversion Hall as [|? ? H0 Hall1]; subst. inversion Hall1 as [|? ? H1 Hall2]; subst.
  inversion Hall2 as [|? ? H2 Hall3]; subst. inversion Hall3 as [|? ? H3 _]; subst.
  inversion Hall' as [|? ? G0 Gall1]; subst. inversion Gall1 as [|? ? G1 Gall2]; subst.
  inversion Gall2 as [|? ? G2 Gall3]; subst. inversion Gall3 as [|? ? G3 _]; subst.
  unfold limbs_value. cbn [nth].
  change (2 ^ 128) with (2 ^ 64 * 2 ^ 64). change (2 ^ 192) with (2 ^ 64 * (2 ^ 64 * 2 ^ 64)).
  intros He.
  destruct (Zdiv_mod_unique (2 ^ 64) (l1 + 2 ^ 64 * (l2 + 2 ^ 64 * l3))
              (m1 + 2 ^ 64 * (m2 + 2 ^ 64 * m3)) l0 m0) as [Hq0 ->]; [lia|lia|lia|].
  destruct (Zdiv_mod_unique (2 ^ 64) (l2 + 2 ^ 64 * l3) (m2 + 2 ^ 64 * m3) l1 m1)
    as [Hq1 ->]; [lia|lia|lia|].
  destruct (Zdiv_mod_unique (2 ^ 64) l3 m3 l2 m2) as [-> ->]; [lia|lia|lia|].
  done.
Qed.

End JsonFacts.

(** X18.  [MarshalJSON] round trip: for four limbs of 64 bits the text
    is a double quote, the decimal digits of the integer
    [l0 + 2^64 l1 + 2^128 l2 + 2^192 l3] that the limbs stand for, and a
    double quote; reading the digits back gives that integer; and two
    elements with the same text are the same element. *)
Theorem MarshalJSON_roundtrip (z : list Z) :
  ExportJson.is_element z ->
  (exists text,
     ExportJson.MarshalJSON z =
       String ExportJson.quote (String.append text (String ExportJson.quote EmptyString)) /\
     ExportJson.parse_decimal text = Some (ExportJson.limbs_value z)) /\
  (forall z', ExportJson.is_element z' ->
     ExportJson.MarshalJSON z = ExportJson.MarshalJSON z' -> z = z').
Proof.
  intros Hz. split.
  - exists (ExportJson.Text10 (ExportJson.limbs_value z)).
    unfold ExportJson.MarshalJSON. rewrite JsonFacts.SetBytes_buffer by done.
    split; [done|]. apply JsonFacts.parse_decimal_Text10.
  - intros z' Hz'. unfold ExportJson.MarshalJSON.
    rewrite !JsonFacts.SetBytes_buffer by done.
    intros [= He]. apply JsonFacts.append_inj_char in He.
    apply JsonFacts.limbs_value_inj; [done|done|].
    pose proof (JsonFacts.parse_decimal_Text10 (ExportJson.limbs_value z)) as H1.
    pose proof (JsonFacts.parse_decimal_Text10 (ExportJson.limbs_value z')) as H2.
    rewrite He in H1. congruence.
Qed.

(** An instance: the Montgomery form of 7 in the scalar field of
    BLS12-377. *)
Lemma MarshalJSON_roundtrip_witness :
  (exists text,
     ExportJson.MarshalJSON (Fr.of_int 7) =
       String ExportJson.quote (String.append text (String ExportJson.quote EmptyString)) /\
     ExportJson.parse_decimal text = Some (ExportJson.limbs_value (Fr.of_int 7))) /\
  (forall z', ExportJson.is_element z' ->
     ExportJson.MarshalJSON (Fr.of_int 7) = ExportJson.MarshalJSON z' -> Fr.of_int 7 = z').
Proof.
  apply (MarshalJSON_roundtrip (Fr.of_int 7)).
  split; [reflexivity|]. repeat constructor; vm_compute; congruence.
Defined.

Lemma fill_side_Bits `{FieldLib} (r1cs : R1CS) (lc : list Term) :
  forall side : gmap Z (list Z),
    ExportUtils.fill_side r1cs lc (Bits <$> side) =
    Bits <$> ExportJson.fill_side r1cs lc side.
Proof.
  unfold ExportUtils.fill_side, ExportJson.fill_side.
  induction lc as [|t lc IH]; intros side; simpl; [done|].
  by rewrite <- IH, fmap_insert.
Qed.

(** X19.  The JSON variant and the binary exporter carry the same data in
    two forms.  Rows: the binary rows are the JSON rows with every element
    converted to normal form (and the binary export adds the test against
    the modulus).  Witness: the JSON export has every entry of the witness
    as stored, the binary export the normal form of every entry but the
    first.  Lookup table: for a table size of at most [2^32] the JSON rows
    are the decimal strings of the binary rows. *)
Theorem json_and_binary_exports_agree `{FieldLib}
    (r1cs : R1CS) (solution : R1CSSolution) (lookup : Lookup) :
  (forall raw,
     ExportUtils.r1csRaw r1cs = Done raw ->
     exists jraw, ExportJson.r1csRaw r1cs = Done jraw /\ raw = map normal_row jraw) /\
  (forall raw,
     ExportUtils.assignmentRaw solution = Done raw ->
     exists jraw,
       ExportJson.assignmentRaw solution = Done jraw /\
       ExportJson.Variables jraw = W solution /\
       ExportUtils.Variables raw = map Bits (tail (ExportJson.Variables jraw))) /\
  (0 <= NbTable lookup <= 2 ^ 32 ->
     exists raw jraw,
       ExportUtils.lookupRaw lookup r1cs = Done raw /\
       ExportJson.lookupRaw lookup r1cs = Done jraw /\
       ExportUtils.Constraints raw = map normal_row (ExportJson.Constraints jraw) /\
       map (fun row => (ExportJson.parse_decimal (fst (fst row)),
                        ExportJson.parse_decimal (snd (fst row)),
                        ExportJson.parse_decimal (snd row)))
           (ExportJson.Table jraw) =
       map (fun row => (Some (fst (fst row)), Some (snd (fst row)), Some (snd row)))
           (ExportUtils.Table raw)).
Proof.
  split; [|split].
  - intros raw Hr. unfold ExportJson.r1csRaw.
    revert Hr. unfold ExportUtils.r1csRaw.
    destruct (GetNbConstraints r1cs <? 0); [discriminate|]. intros Hr.
    eexists. split; [reflexivity|].
    pose proof (r1csRaw_loop_done _ _ _ _ Hr) as Hf.
    rewrite r1csRaw_loop_ok in Hr by done. injection Hr as <-.
    rewrite map_map. apply map_ext. intros r1c. unfold row_of, normal_row. simpl.
    by rewrite <- !fill_side_Bits, fmap_empty.
  - intros raw. unfold ExportUtils.assignmentRaw, ExportJson.assignmentRaw.
    destruct (W solution) as [|one rest]; [discriminate|]. intros [= <-].
    eexists. by repeat split.
  - intros Ht. unfold ExportUtils.lookupRaw, ExportJson.lookupRaw.
    rewrite (proj2 (makeslice_cap_in_range 12 (NbTable lookup)))
      by (change maxAlloc with 281474976710656;
          change (2 ^ 32) with 4294967296 in Ht; lia).
    rewrite (proj2 (makeslice_cap_in_range 48 (NbTable lookup)))
      by (change maxAlloc with 281474976710656;
          change (2 ^ 32) with 4294967296 in Ht; lia).
    eexists _, _. split; [reflexivity|]. split; [reflexivity|]. simpl. split.
    + rewrite map_map. apply map_ext. intros lc. unfold normal_row. simpl.
      by rewrite <- fill_side_Bits, !fmap_empty.
    + rewrite !map_map. apply map_ext_in. intros i Hi.
      apply list_elem_of_In, elem_of_seqZ in Hi. cbn [fst snd].
      change (ExportJson.Itoa i) with (ExportJson.Text10 i).
      rewrite (JsonFacts.parse_decimal_Text10 i).
      unfold GoInt.to_uint32. rewrite Z.mod_small by lia. done.
Qed.

(** * The group law of G2 *)

Module G2Facts.
Import SwBls12381.

Section Laws.
Context {E : Type} `{Ext2 E} (laws : Ext2_laws E).

Add Field Ext2_field_structure : (Ext2_field laws).

Lemma MulByConstElement_3 x : MulByConstElement x 3 = Add x (Add x x).
Proof.
  rewrite (MulByConstElement_spec laws) by lia.
  change (Z.to_nat 3) with 3%nat. simpl. ring.
Qed.

Lemma MulByConstElement_2 x : MulByConstElement x 2 = Add x x.
Proof.
  rewrite (MulByConstElement_spec laws) by lia.
  change (Z.to_nat 2) with 2%nat. simpl. ring.
Qed.

Lemma Sub_nonzero x y : x <> y -> Sub x y <> Zero.
Proof.
  intros Hxy H0. apply Hxy. transitivity (Add (Sub x y) y); [ring|].
  rewrite H0. ring.
Qed.

Lemma Sub_zero_eq x y : Sub x y = Zero -> x = y.
Proof.
  intros H0. transitivity (Add (Sub x y) y); [ring|]. rewrite H0. ring.
Qed.

Lemma G2Affine_eq (p q : G2Affine E) : X p = X q -> Y p = Y q -> p = q.
Proof. destruct p, q. simpl. congruence. Qed.

(** The derived operations in terms of sum and product. *)
Ltac ext2_norm :=
  rewrite ?(Square_spec laws), ?MulByConstElement_3, ?MulByConstElement_2,
    ?(Double_spec laws).

(** X20.  [add] stays on the curve: for two points of [y² = x³ + b] with
    distinct abscissas, whatever [b], the point [add] returns satisfies
    the same equation.  (With [c = y1² - x1³], the defect
    [yr² - xr³ - c] of the result is the defect of the second point times
    [(xr - x1) / (x2 - x1)].) *)
Theorem add_on_curve b p q :
  on_curve b p -> on_curve b q -> X q <> X p -> on_curve b (add p q).
Proof.
  unfold on_curve, add. destruct p as [x1 y1], q as [x2 y2]. simpl.
  intros Hp Hq Hx. apply Sub_nonzero in Hx.
  rewrite (DivUnchecked_spec laws) by done.
  ext2_norm.
  assert (Hb : b = Sub (Mul y1 y1) (Mul (Mul x1 x1) x1)) by (rewrite Hp; ring).
  assert (Hy2 : Mul y2 y2 =
                Add (Sub (Mul y1 y1) (Mul (Mul x1 x1) x1)) (Mul (Mul x2 x2) x2))
    by (rewrite Hq, Hb; ring).
  rewrite Hb.
  apply Sub_zero_eq.
  set (res := Sub (Mul y2 y2)
                (Add (Sub (Mul y1 y1) (Mul (Mul x1 x1) x1)) (Mul (Mul x2 x2) x2))).
  assert (Hres : res = Zero) by (unfold res; rewrite Hy2; ring).
  set (lam := Mul (Sub y2 y1) (Inverse (Sub x2 x1))).
  transitivity
    (Mul (Mul (Sub (Sub (Mul lam lam) (Add x1 x2)) x1) (Inverse (Sub x2 x1))) res).
  - unfold res, lam. field. exact Hx.
  - rewrite Hres. ring.
Qed.

(** X21.  [add] is symmetric where it is defined: with distinct
    abscissas [add p q] and [add q p] are the same point, although the
    formula takes the ordinate from its first argument alone. *)
Theorem add_symmetric p q : X p <> X q -> add p q = add q p.
Proof.
  intros Hx. assert (Hx' : X q <> X p) by congruence.
  apply Sub_nonzero in Hx, Hx'.
  unfold add. destruct p as [x1 y1], q as [x2 y2]. simpl in *.
  rewrite !(DivUnchecked_spec laws) by done. ext2_norm.
  apply G2Affine_eq; simpl; field; auto.
Qed.

(** X22.  [sub] undoes [add]: when the abscissa of [q] differs from
    those of [p] and of [add p q], [sub (add p q) q] is [p].  No curve
    equation is needed: the chord through [add p q] and the opposite of
    [q] is the mirror image of the chord through [p] and [q]. *)
Theorem sub_add_cancel p q :
  X q <> X p -> X q <> X (add p q) -> sub (add p q) q = p.
Proof.
  intros Hx Hx3. apply Sub_nonzero in Hx, Hx3. revert Hx3.
  unfold sub, neg, add. destruct p as [x1 y1], q as [x2 y2]. simpl in *.
  rewrite !(DivUnchecked_spec laws _ _ Hx). ext2_norm. intros Hx3.
  rewrite !(DivUnchecked_spec laws _ _ Hx3).
  apply G2Affine_eq; simpl; field; (split; [exact Hx|]); intros e; apply Hx3;
    match type of e with
    | ?N = _ => transitivity (Mul N (Inverse (Mul (Sub x2 x1) (Sub x2 x1))))
    end; try (field; exact Hx); rewrite e; ring.
Qed.

Lemma double_on_curve_lemma b p :
  on_curve b p -> Double (Y p) <> Zero -> on_curve b (double p).
Proof.
  unfold on_curve, double. destruct p as [x y]. simpl. intros Hb Hy.
  rewrite (DivUnchecked_spec laws) by done.
  ext2_norm. rewrite (Double_spec laws) in Hy.
  assert (Hb' : b = Sub (Mul y y) (Mul (Mul x x) x)) by (rewrite Hb; ring).
  rewrite Hb'. field. exact Hy.
Qed.

(** X23.  [double] stays on the curve: for a point of [y² = x³ + b]
    whose doubled ordinate is not zero, the point [double] returns
    satisfies the same equation. *)
Theorem double_on_curve b p :
  on_curve b p -> Double (Y p) <> Zero -> on_curve b (double p).
Proof. apply double_on_curve_lemma. Qed.

Lemma doubleN_nonpos (p : G2Affine E) n : n <= 0 -> doubleN p n = p.
Proof.
  intros Hn. unfold doubleN. replace (Z.to_nat n) with 0%nat by lia. done.
Qed.

Lemma doubleN_succ (p : G2Affine E) n :
  0 <= n -> doubleN p (n + 1) = double (doubleN p n).
Proof.
  intros Hn. unfold doubleN.
  replace (Z.to_nat (n + 1)) with (S (Z.to_nat n)) by lia. done.
Qed.

(** X24.  [doubleN] stays on the curve as long as no point it doubles
    has a doubled ordinate of zero; for [n <= 0] it returns its argument
    (the loop body does not run). *)
Theorem doubleN_on_curve b p n :
  on_curve b p ->
  (forall k, 0 <= k < n -> Double (Y (doubleN p k)) <> Zero) ->
  on_curve b (doubleN p n) /\ (n <= 0 -> doubleN p n = p).
Proof.
  intros Hp Hk. split; [|apply doubleN_nonpos].
  destruct (Z.le_gt_cases n 0) as [Hn|Hn]; [by rewrite doubleN_nonpos|].
  assert (Hn0 : 0 <= n) by lia. revert Hk. clear Hn. pattern n.
  apply natlike_ind; [| |exact Hn0]; clear n Hn0.
  - intros _. by rewrite doubleN_nonpos.
  - intros n Hn IH Hk. rewrite <- Z.add_1_r in *. rewrite doubleN_succ by lia.
    apply double_on_curve_lemma.
    + apply IH. intros k Hk'. apply Hk. lia.
    + apply Hk. lia.
Qed.

Lemma triple_add_double_lemma p :
  Double (Y p) <> Zero -> X p <> X (double p) -> triple p = add p (double p).
Proof.
  intros Hy Hx. apply Sub_nonzero in Hx. assert (Hx' : X (double p) <> X p).
  { intros e. apply Hx. rewrite e. ring. }
  apply Sub_nonzero in Hx'. revert Hx Hx'.
  unfold triple, add, double. destruct p as [x y]. simpl in *.
  rewrite !(DivUnchecked_spec laws _ _ Hy). ext2_norm.
  intros Hx Hx'.
  rewrite (DivUnchecked_spec laws _ _ Hx), (DivUnchecked_spec laws _ _ Hx').
  rewrite (Double_spec laws) in Hy.
  set (lam1 := Mul _ (Inverse (Add y y))) in *.
  set (x2 := Sub (Mul lam1 lam1) (Add x x)) in *.
  clearbody x2 lam1.
  apply G2Affine_eq; simpl; field; auto.
Qed.

(** X25.  [triple p] is [add p (double p)]: the shortcut that omits the
    ordinate of the double returns the same point as the two calls, when
    the doubled ordinate of [p] is not zero and [p] and its double have
    distinct abscissas. *)
Theorem triple_is_add_double p :
  Double (Y p) <> Zero -> X p <> X (double p) -> triple p = add p (double p).
Proof. apply triple_add_double_lemma. Qed.

Lemma doubleAndAdd_add_add_lemma p q :
  X q <> X p -> X (add p q) <> X p -> doubleAndAdd p q = add p (add p q).
Proof.
  intros Hx Hx2. apply Sub_nonzero in Hx, Hx2. revert Hx2.
  unfold doubleAndAdd, add. destruct p as [x1 y1], q as [x2 y2]. simpl in *.
  rewrite !(DivUnchecked_spec laws _ _ Hx). ext2_norm. intros Hx2.
  rewrite !(DivUnchecked_spec laws _ _ Hx2).
  set (lam1 := Mul _ (Inverse (Sub x2 x1))) in *.
  set (x3 := Sub (Mul lam1 lam1) (Add x1 x2)) in *.
  clearbody x3 lam1.
  apply G2Affine_eq; simpl; field; auto.
Qed.

(** X26.  [doubleAndAdd p q] is [add p (add p q)], that is [2p + q]
    by two chords: it returns the same point as the two calls when the
    abscissa of [p] differs from those of [q] and of [add p q]. *)
Theorem doubleAndAdd_is_add_add p q :
  X q <> X p -> X (add p q) <> X p -> doubleAndAdd p q = add p (add p q).
Proof. apply doubleAndAdd_add_add_lemma. Qed.

(** *** The addition chain of [scalarMulBySeed] *)

Section Multiples.
Variable pt : Z -> G2Affine E.
Hypothesis Hpt : chord_tangent_multiples pt.

Lemma pt_X_ne a b :
  small_scalar a -> small_scalar b -> a <> b -> a <> - b -> X (pt a) <> X (pt b).
Proof.
  intros Ha Hb Hab Hab' e. destruct Hpt as (HX & _).
  destruct (HX a b Ha Hb e); done.
Qed.

Lemma triple_pt a :
  small_scalar a -> small_scalar (3 * a) -> triple (pt a) = pt (3 * a).
Proof.
  intros Ha H3.
  assert (H2 : small_scalar (2 * a)) by (unfold small_scalar in *; lia).
  destruct Hpt as (HX & HY & Hadd & Hdbl & Hneg).
  rewrite triple_add_double_lemma.
  - rewrite Hdbl by done. rewrite Hadd; try done.
    + f_equal. lia.
    + replace (a + 2 * a) with (3 * a) by lia. done.
    + unfold small_scalar in *; lia.
  - auto.
  - rewrite Hdbl by done. apply pt_X_ne; try done; unfold small_scalar in *; lia.
Qed.

Lemma doubleAndAdd_pt a b :
  small_scalar a -> small_scalar b -> small_scalar (a + b) ->
  small_scalar (2 * a + b) -> a <> b ->
  doubleAndAdd (pt a) (pt b) = pt (2 * a + b).
Proof.
  intros Ha Hb Hab H2 Hne.
  destruct Hpt as (HX & HY & Hadd & Hdbl & Hneg).
  rewrite doubleAndAdd_add_add_lemma.
  - rewrite (Hadd a b) by done. rewrite Hadd; try done.
    + f_equal. lia.
    + replace (a + (a + b)) with (2 * a + b) by lia. done.
    + unfold small_scalar in *; lia.
  - apply pt_X_ne; try done; unfold small_scalar in *; lia.
  - rewrite (Hadd a b) by done.
    apply pt_X_ne; try done; unfold small_scalar in *; lia.
Qed.

Lemma doubleN_pt n a :
  0 <= n -> small_scalar a -> small_scalar (a * 2 ^ n) ->
  doubleN (pt a) n = pt (a * 2 ^ n).
Proof.
  intros Hn Ha. pattern n. apply natlike_ind; [| |exact Hn]; clear n Hn.
  - intros _. rewrite doubleN_nonpos by lia. f_equal. lia.
  - intros n Hn IH Hs. rewrite <- Z.add_1_r in *. rewrite doubleN_succ by lia.
    rewrite Z.pow_add_r in Hs |- * by lia. change (2 ^ 1) with 2 in *.
    assert (Hs' : small_scalar (a * 2 ^ n)).
    { unfold small_scalar in *.
      assert (0 < 2 ^ n) by (apply Z.pow_pos_nonneg; lia). nia. }
    rewrite IH by done. destruct Hpt as (HX & HY & Hadd & Hdbl & Hneg).
    rewrite Hdbl; [f_equal; lia|done|].
    replace (2 * (a * 2 ^ n)) with (a * (2 ^ n * 2)) by lia. done.
Qed.

(** X27.  [scalarMulBySeed] multiplies by the seed of the curve,
    [-0xd201000000010000]: on the multiples of a point, where chord and
    tangent add and double the scalars, its addition chain takes the
    point of scalar 1 to the point of scalar [-15132376222941642752].
    The chain goes through 3, 6, 13, 52, 105, 26880, 53761, 53761·2^31,
    53761·2^32 + 1 and (53761·2^32 + 1)·2^16. *)
Theorem scalarMulBySeed_scalar :
  scalarMulBySeed (pt 1) = pt (- 15132376222941642752).
Proof.
  unfold scalarMulBySeed.
  assert (Hs : forall a, a <> 0 -> Z.abs a < 18446744073709551616 -> small_scalar a)
    by (intros; split; done).
  rewrite (triple_pt 1) by (apply Hs; lia).
  assert (Hd : double (pt (3 * 1)) = pt 6).
  { destruct Hpt as (HX & HY & Hadd & Hdbl & Hneg).
    rewrite Hdbl by (apply Hs; lia). done. }
  rewrite Hd.
  rewrite (doubleAndAdd_pt 6 1) by (try apply Hs; lia).
  rewrite (doubleN_pt 2) by (try apply Hs; lia).
  rewrite (doubleAndAdd_pt _ 1) by (try apply Hs; lia).
  rewrite (doubleN_pt 8) by (try apply Hs; lia).
  rewrite (doubleAndAdd_pt _ 1) by (try apply Hs; lia).
  rewrite (doubleN_pt 31) by (try apply Hs; lia).
  rewrite (doubleAndAdd_pt _ 1) by (try apply Hs; lia).
  rewrite (doubleN_pt 16) by (try apply Hs; lia).
  destruct Hpt as (HX & HY & Hadd & Hdbl & Hneg).
  rewrite Hneg by (apply Hs; lia).
  f_equal.
Qed.

End Multiples.
End Laws.

(** *** The rationals as an instance *)

#[local] Existing Instance Qc_ext2.

Add Field Qc_field_structure : Qcanon.Qcft.

Lemma Qc_of_Z_add a b : Qc_of_Z (a + b) = Qcanon.Qcplus (Qc_of_Z a) (Qc_of_Z b).
Proof.
  apply Qcanon.Qc_is_canon. unfold Qc_of_Z, Qcanon.Qcplus, Qcanon.Q2Qc. simpl.
  rewrite !Qreduction.Qred_correct. rewrite QArith_base.inject_Z_plus.
  apply QArith_base.Qeq_refl.
Qed.

Lemma Qc_of_Z_mul a b : Qc_of_Z (a * b) = Qcanon.Qcmult (Qc_of_Z a) (Qc_of_Z b).
Proof.
  apply Qcanon.Qc_is_canon. unfold Qc_of_Z, Qcanon.Qcmult, Qcanon.Q2Qc. simpl.
  rewrite !Qreduction.Qred_correct. rewrite QArith_base.inject_Z_mult.
  apply QArith_base.Qeq_refl.
Qed.

Lemma Qc_of_Z_inj a b : Qc_of_Z a = Qc_of_Z b -> a = b.
Proof.
  intros e. apply (f_equal Qcanon.this) in e.
  unfold Qc_of_Z, Qcanon.Q2Qc in e. simpl in e.
  apply QArith_base.inject_Z_injective.
  rewrite <- (Qreduction.Qred_correct (QArith_base.inject_Z a)), e.
  apply Qreduction.Qred_correct.
Qed.

Lemma Qc_of_Z_opp a : Qc_of_Z (- a) = Qcanon.Qcopp (Qc_of_Z a).
Proof.
  assert (e : Qcanon.Qcplus (Qc_of_Z (- a)) (Qc_of_Z a) = Qc_of_Z 0).
  { rewrite <- Qc_of_Z_add. f_equal. lia. }
  change (Qc_of_Z 0) with (Qcanon.Q2Qc (QArith_base.Qmake 0 1)) in e.
  transitivity (Qcanon.Qcminus (Qcanon.Qcplus (Qc_of_Z (- a)) (Qc_of_Z a)) (Qc_of_Z a));
    [ring|].
  rewrite e. ring.
Qed.

Lemma Qc_of_Z_nonzero a :
  a <> 0 -> Qc_of_Z a <> Qcanon.Q2Qc (QArith_base.Qmake 0 1).
Proof. intros Ha e. apply Ha. apply Qc_of_Z_inj. exact e. Qed.

Lemma Qc_laws : Ext2_laws Qcanon.Qc.
Proof.
  split.
  - exact Qcanon.Qcft.
  - done.
  - done.
  - intros x c Hc. pattern c. apply natlike_ind; [| |exact Hc]; clear c Hc.
    + simpl. change (Qcanon.Qcmult x (Qc_of_Z 0) = Qc_of_Z 0).
      change (Qc_of_Z 0) with (Qcanon.Q2Qc (QArith_base.Qmake 0 1)). ring.
    + intros c Hc IH. rewrite Z2Nat.inj_succ by done. cbn [times]. rewrite <- IH.
      cbn [MulByConstElement Add Qc_ext2].
      unfold Z.succ. rewrite Qc_of_Z_add.
      change (Qc_of_Z 1) with (Qcanon.Q2Qc (QArith_base.Qmake 1 1)). ring.
  - done.
Qed.

Lemma Qc_eq_compute (x y : Qcanon.Qc) :
  QArith_base.Qeq_bool (Qcanon.this x) (Qcanon.this y) = true -> x = y.
Proof.
  intros e. apply Qcanon.Qc_is_canon. apply QArith_base.Qeq_bool_iff. exact e.
Qed.

Lemma Qc_neq_compute (x y : Qcanon.Qc) :
  QArith_base.Qeq_bool (Qcanon.this x) (Qcanon.this y) = false -> x <> y.
Proof. intros e <-. rewrite QArith_base.Qeq_bool_refl in e. discriminate e. Qed.

Lemma Qpoint_eq_compute (p q : G2Affine Qcanon.Qc) :
  QArith_base.Qeq_bool (Qcanon.this (X p)) (Qcanon.this (X q)) = true ->
  QArith_base.Qeq_bool (Qcanon.this (Y p)) (Qcanon.this (Y q)) = true ->
  p = q.
Proof.
  intros ex ey. destruct p, q. simpl in *.
  f_equal; apply Qc_eq_compute; done.
Qed.

(** On the cuspidal cubic [y² = x³] the chord and the tangent add the
    parameters of [cusp_point]. *)
Lemma cusp_point_multiples : chord_tangent_multiples cusp_point.
Proof.
  unfold chord_tangent_multiples, small_scalar, cusp_point, add, double, neg.
  cbn [X Y Add Sub Mul Neg Inverse Square Double MulByConstElement DivUnchecked
       Zero One Qc_ext2].
  repeat split.
  - intros a b [Ha _] [Hb _] e.
    apply Qc_of_Z_nonzero in Ha, Hb.
    assert (e' : Qc_of_Z (a * a) = Qc_of_Z (b * b)).
    { rewrite !Qc_of_Z_mul. set (A := Qc_of_Z a) in *. set (B := Qc_of_Z b) in *.
      transitivity (Qcanon.Qcmult (Qcanon.Qcmult (Qcanon.Qcmult A A) (Qcanon.Qcmult B B))
                      (Qcanon.Qcinv (Qcanon.Qcmult B B))); [field; exact Hb|].
      rewrite <- e. field. exact Ha. }
    apply Qc_of_Z_inj in e'. nia.
  - intros a [Ha _] e. apply Qc_of_Z_nonzero in Ha.
    set (A := Qc_of_Z a) in *.
    assert (e2 : Qc_of_Z 2 = Qc_of_Z 0).
    { transitivity (Qcanon.Qcmult (Qcanon.Qcmult (Qcanon.Qcmult A A) A)
                      (Qcanon.Qcplus (Qcanon.Qcinv (Qcanon.Qcmult (Qcanon.Qcmult A A) A))
                                     (Qcanon.Qcinv (Qcanon.Qcmult (Qcanon.Qcmult A A) A)))).
      - change (Qc_of_Z 2)
          with (Qcanon.Qcplus (Qcanon.Q2Qc (QArith_base.Qmake 1 1))
                              (Qcanon.Q2Qc (QArith_base.Qmake 1 1))).
        field. exact Ha.
      - rewrite e. change (Qc_of_Z 0) with (Qcanon.Q2Qc (QArith_base.Qmake 0 1)). ring. }
    apply Qc_of_Z_inj in e2. done.
  - intros a b [Ha _] [Hb _] [Hab _] Hne. rewrite !Qc_of_Z_add.
    assert (Hd : Qcanon.Qcminus (Qc_of_Z b) (Qc_of_Z a)
                 <> Qcanon.Q2Qc (QArith_base.Qmake 0 1)).
    { intros e. apply Hne. apply Qc_of_Z_inj.
      transitivity (Qcanon.Qcminus (Qc_of_Z b) (Qcanon.Qcminus (Qc_of_Z b) (Qc_of_Z a)));
        [ring|].
      rewrite e. ring. }
    apply Qc_of_Z_nonzero in Ha, Hb, Hab. rewrite Qc_of_Z_add in Hab.
    set (A := Qc_of_Z a) in *. set (B := Qc_of_Z b) in *.
    assert (Hsq : Qcanon.Qcminus (Qcanon.Qcmult A A) (Qcanon.Qcmult B B)
                  <> Qcanon.Q2Qc (QArith_base.Qmake 0 1)).
    { intros e.
      destruct (Qcanon.Qcmult_integral (Qcanon.Qcplus A B) (Qcanon.Qcminus B A));
        try done.
      transitivity (Qcanon.Qcopp (Qcanon.Qcminus (Qcanon.Qcmult A A) (Qcanon.Qcmult B B)));
        [ring|].
      rewrite e. ring. }
    f_equal; unfold Qcanon.Qcdiv; field; auto.
  - intros a [Ha _] _. rewrite Qc_of_Z_mul. apply Qc_of_Z_nonzero in Ha.
    change (Qc_of_Z 3)
      with (Qcanon.Qcplus (Qcanon.Q2Qc (QArith_base.Qmake 1 1))
              (Qcanon.Qcplus (Qcanon.Q2Qc (QArith_base.Qmake 1 1))
                             (Qcanon.Q2Qc (QArith_base.Qmake 1 1)))).
    change (Qc_of_Z 2)
      with (Qcanon.Qcplus (Qcanon.Q2Qc (QArith_base.Qmake 1 1))
                          (Qcanon.Q2Qc (QArith_base.Qmake 1 1))).
    set (A := Qc_of_Z a) in *.
    f_equal; unfold Qcanon.Qcdiv; field;
      (split; [exact Ha | intros e; apply (f_equal Qcanon.this) in e; discriminate e]).
  - intros a [Ha _]. rewrite Qc_of_Z_opp. apply Qc_of_Z_nonzero in Ha.
    set (A := Qc_of_Z a) in *.
    assert (Hn : Qcanon.Qcopp A <> Qcanon.Q2Qc (QArith_base.Qmake 0 1)).
    { intros e. apply Ha. transitivity (Qcanon.Qcopp (Qcanon.Qcopp A)); [ring|].
      rewrite e. ring. }
    f_equal; field; auto.
Qed.

(** *** Instances over the rationals *)

(** On [y² = x³ + 1]: [(2, 3) + (0, 1) = (-1, 0)]. *)
Lemma add_on_curve_witness :
  on_curve (Qc_of_Z 1) (add (Qpoint 2 3) (Qpoint 0 1)) /\
  add (Qpoint 2 3) (Qpoint 0 1) = Qpoint (-1) 0.
Proof.
  split.
  - apply (add_on_curve Qc_laws (Qc_of_Z 1) (Qpoint 2 3) (Qpoint 0 1)).
    + apply Qc_eq_compute. vm_compute. reflexivity.
    + apply Qc_eq_compute. vm_compute. reflexivity.
    + apply Qc_neq_compute. vm_compute. reflexivity.
  - apply Qpoint_eq_compute; vm_compute; reflexivity.
Defined.

Lemma add_symmetric_witness :
  add (Qpoint 2 3) (Qpoint 0 1) = add (Qpoint 0 1) (Qpoint 2 3).
Proof.
  apply (add_symmetric Qc_laws (Qpoint 2 3) (Qpoint 0 1)).
  apply Qc_neq_compute. vm_compute. reflexivity.
Defined.

(** [((0, 1) + (2, 3)) - (2, 3) = (0, 1)]. *)
Lemma sub_add_cancel_witness :
  sub (add (Qpoint 0 1) (Qpoint 2 3)) (Qpoint 2 3) = Qpoint 0 1.
Proof.
  apply (sub_add_cancel Qc_laws (Qpoint 0 1) (Qpoint 2 3)).
  - apply Qc_neq_compute. vm_compute. reflexivity.
  - apply Qc_neq_compute. vm_compute. reflexivity.
Defined.

(** On [y² = x³ + 1]: [2 (2, 3) = (0, 1)]. *)
Lemma double_on_curve_witness :
  on_curve (Qc_of_Z 1) (double (Qpoint 2 3)) /\ double (Qpoint 2 3) = Qpoint 0 1.
Proof.
  split.
  - apply (double_on_curve Qc_laws (Qc_of_Z 1) (Qpoint 2 3)).
    + apply Qc_eq_compute. vm_compute. reflexivity.
    + apply Qc_neq_compute. vm_compute. reflexivity.
  - apply Qpoint_eq_compute; vm_compute; reflexivity.
Defined.

(** On [y² = x³ + 1]: [4 (2, 3) = (0, -1)]. *)
Lemma doubleN_on_curve_witness :
  (on_curve (Qc_of_Z 1) (doubleN (Qpoint 2 3) 2) /\
   (2 <= 0 -> doubleN (Qpoint 2 3) 2 = Qpoint 2 3)) /\
  doubleN (Qpoint 2 3) 2 = Qpoint 0 (-1).
Proof.
  split.
  - apply (doubleN_on_curve Qc_laws (Qc_of_Z 1) (Qpoint 2 3) 2).
    + apply Qc_eq_compute. vm_compute. reflexivity.
    + intros k Hk. assert (Hk' : k = 0 \/ k = 1) by lia.
      destruct Hk' as [-> | ->]; apply Qc_neq_compute; vm_compute; reflexivity.
  - apply Qpoint_eq_compute; vm_compute; reflexivity.
Defined.

(** On [y² = x³ + 1]: [3 (2, 3) = (-1, 0)]. *)
Lemma triple_is_add_double_witness :
  triple (Qpoint 2 3) = add (Qpoint 2 3) (double (Qpoint 2 3)) /\
  triple (Qpoint 2 3) = Qpoint (-1) 0.
Proof.
  split.
  - apply (triple_is_add_double Qc_laws (Qpoint 2 3)).
    + apply Qc_neq_compute. vm_compute. reflexivity.
    + apply Qc_neq_compute. vm_compute. reflexivity.
  - apply Qpoint_eq_compute; vm_compute; reflexivity.
Defined.

(** On [y² = x³ + 1]: [2 (0, 1) + (2, 3) = (2, -3)]. *)
Lemma doubleAndAdd_is_add_add_witness :
  doubleAndAdd (Qpoint 0 1) (Qpoint 2 3) =
    add (Qpoint 0 1) (add (Qpoint 0 1) (Qpoint 2 3)) /\
  doubleAndAdd (Qpoint 0 1) (Qpoint 2 3) = Qpoint 2 (-3).
Proof.
  split.
  - apply (doubleAndAdd_is_add_add Qc_laws (Qpoint 0 1) (Qpoint 2 3)).
    + apply Qc_neq_compute. vm_compute. reflexivity.
    + apply Qc_neq_compute. vm_compute. reflexivity.
  - apply Qpoint_eq_compute; vm_compute; reflexivity.
Defined.

(** On the cuspidal cubic [y² = x³], where the parameter of
    [cusp_point] is added by the chord and doubled by the tangent. *)
Lemma scalarMulBySeed_scalar_witness :
  scalarMulBySeed (cusp_point 1) = cusp_point (- 15132376222941642752).
Proof.
  exact (scalarMulBySeed_scalar Qc_laws cusp_point cusp_point_multiples).
Defined.

End G2Facts.
